(** * Farthest-neighbour clustering of multilocus genotypes

    A shallow embedding of [farthest_neighbor] from [src/mlg_clustering.c]
    and the properties of its merge loop.

    Conventions of the embedding.
    - A C [int] is a [Z]; the two places where the value is not bounded by
      [num_individuals] (the cast of a label from [double], and the flat
      matrix index [k * num_individuals + l]) check the range of [int] and
      fault outside it.  All the other [int] arithmetic of the function
      increments counters that stay below [num_individuals].
    - A finite C [double] is a canonical rational [Qc]: the function only
      copies and compares doubles, it never computes with them.
    - Heap arrays are lists; a read or write outside an array is a fault
      (undefined behaviour in C), never a default value.
    - The vector [Rout] comes from [allocVector] with indeterminate contents:
      a cell is [None] until the function writes it.
    - The two [while] loops carry an iteration budget that the function
      cannot exceed when it returns; the results below are stated as
      [Ok], so they include that the budget is enough. *)

From Stdlib Require Import QArith Qcanon Lqa.
From stdpp Require Import base numbers list.

Local Open Scope Z_scope.

(** ** Faults and the result monad *)

Inductive fault : Set :=
| OutOfBounds   (* access outside an allocated array *)
| IntOverflow   (* a value that does not fit in [int] *)
| OutOfFuel.    (* a loop of the model used up its iteration budget *)

Inductive result (A : Type) : Type :=
| Ok (a : A)
| Fault (f : fault).
Arguments Ok {A} a.
Arguments Fault {A} f.

#[global] Instance result_ret : MRet result := fun _ a => Ok a.
#[global] Instance result_bind : MBind result := fun _ _ k m =>
  match m with
  | Ok a => k a
  | Fault f => Fault f
  end.

(** ** Machine integers, doubles and arrays *)

Definition INT_MAX : Z := 2147483647.
Definition INT_MIN : Z := -2147483648.

Definition to_int (z : Z) : result Z :=
  if decide (INT_MIN ≤ z ≤ INT_MAX) then Ok z else Fault IntOverflow.

(** The double constants of the function: [-1], [-0.5] and [0]. *)
Definition minus_one : Qc := Qc_of_Z (-1).
Definition minus_half : Qc := Qcmake (-1 # 2) eq_refl.
Definition zero : Qc := Qc_of_Z 0.

(** [x < y] on doubles. *)
Definition Qcltb (x y : Qc) : bool :=
  match (x ?= y)%Qc with
  | Lt => true
  | _ => false
  end.

(** The implicit conversion of [cur_mlg = REAL(mlg)[i]]: truncation toward
    zero, defined only when the result fits in [int]. *)
Definition double_to_int (x : Qc) : result Z :=
  to_int (Z.quot (Qnum x) (Z.pos (Qden x))).

Definition load {A} (a : list A) (i : Z) : result A :=
  if decide (0 ≤ i) then
    match a !! Z.to_nat i with
    | Some x => Ok x
    | None => Fault OutOfBounds
    end
  else Fault OutOfBounds.

Definition store {A} (a : list A) (i : Z) (x : A) : result (list A) :=
  if decide (0 ≤ i < Z.of_nat (length a)) then Ok (<[Z.to_nat i := x]> a)
  else Fault OutOfBounds.

(** ** Loops *)

(** [for (i = lo; i < lo + count && cond; i++) body] over a state [T]. *)
Fixpoint for_loop {T : Type} (count : nat) (i : Z)
    (cond : Z → T → result bool) (body : Z → T → result T) (s : T)
    : result T :=
  match count with
  | O => Ok s
  | S count' =>
      c ← cond i s;
      if c : bool then s' ← body i s; for_loop count' (i + 1) cond body s'
      else Ok s
  end.

Definition always {T : Type} (_ : Z) (_ : T) : result bool := Ok true.

(** [while (cond) body], cut off after [fuel] iterations. *)
Fixpoint while_loop {T : Type} (fuel : nat)
    (cond : T → result bool) (body : T → result T) (s : T) : result T :=
  c ← cond s;
  if c : bool then
    match fuel with
    | O => Fault OutOfFuel
    | S fuel' => s' ← body s; while_loop fuel' cond body s'
    end
  else Ok s.

(** ** The state of [farthest_neighbor] *)

Record state : Type := State {
  cluster_matrix : list (list Z);
  cluster_size : list Z;
  num_clusters : Z
}.

(** The variables of one scan for the closest pair. *)
Record scan_vars : Type := ScanVars {
  tmp_max : Qc;
  min_cluster_distance : Qc;
  closest_pair : Z * Z
}.

Section FarthestNeighbor.

Variable num_individuals : Z.
Variable dist : list Qc.
Variable thresh : Qc.

Definition num_mlgs : Z := num_individuals.

(** Lines 86-105: [num_mlgs] rows of [num_individuals] cells set to [-1]
    by [memset], sizes cleared by [calloc].  ([cluster_distance_matrix] is
    allocated and freed but never read or written.) *)
Definition alloc_state : state :=
  State (replicate (Z.to_nat num_mlgs) (replicate (Z.to_nat num_individuals) (-1)))
        (replicate (Z.to_nat num_mlgs) 0)
        0.

(** Lines 117-129, the body for individual [i]. *)
Definition fill_step (mlg : list Qc) (i : Z) (st : state) : result state :=
  m ← load mlg i;
  cur_mlg ← double_to_int m;
  row ← load (cluster_matrix st) (cur_mlg - 1);
  sz ← load (cluster_size st) (cur_mlg - 1);
  row' ← store row sz i;
  cm' ← store (cluster_matrix st) (cur_mlg - 1) row';
  cs' ← store (cluster_size st) (cur_mlg - 1) (sz + 1);
  Ok (State cm' cs'
        (if decide (sz + 1 = 1) then num_clusters st + 1 else num_clusters st)).

Definition fill_clusters (mlg : list Qc) : result state :=
  for_loop (Z.to_nat num_individuals) 0 always (fill_step mlg) alloc_state.

(** [cluster_matrix[c][k]] *)
Definition cell (cm : list (list Z)) (c k : Z) : result Z :=
  row ← load cm c; load row k.

(** [REAL(dist)[k * num_individuals + l]] *)
Definition dist_at (k l : Z) : result Qc :=
  p ← to_int (k * num_individuals);
  idx ← to_int (p + l);
  load dist idx.

(** Lines 161-170: the individuals of [j_cluster] against one individual. *)
Definition l_loop (cm : list (list Z)) (j_cluster k_individual_val : Z)
    (tmp : Qc) : result Qc :=
  for_loop (Z.to_nat num_individuals) 0
    (fun l _ => v ← cell cm j_cluster l; Ok (negb (v =? -1)))
    (fun l tmp =>
       l_individual_val ← cell cm j_cluster l;
       d ← dist_at k_individual_val l_individual_val;
       Ok (if Qcltb tmp d then d else tmp))
    tmp.

(** Lines 157-171: the individuals of [i_cluster]. *)
Definition k_loop (cm : list (list Z)) (i_cluster j_cluster : Z)
    (tmp : Qc) : result Qc :=
  for_loop (Z.to_nat num_individuals) 0
    (fun k _ => v ← cell cm i_cluster k; Ok (negb (v =? -1)))
    (fun k tmp =>
       k_individual_val ← cell cm i_cluster k;
       l_loop cm j_cluster k_individual_val tmp)
    tmp.

(** Line 174: does the candidate replace the current best? *)
Definition replaces (tmp min : Qc) : bool :=
  Qcltb minus_half tmp && (Qcltb tmp min || Qcltb min zero).

(** Lines 154-181, the body for [j_cluster]. *)
Definition j_body (cm : list (list Z)) (i_cluster j_cluster : Z)
    (v : scan_vars) : result scan_vars :=
  t ← k_loop cm i_cluster j_cluster (tmp_max v);
  Ok (if replaces t (min_cluster_distance v)
      then ScanVars t t (i_cluster, j_cluster)
      else ScanVars t (min_cluster_distance v) (closest_pair v)).

(** Lines 149-182, the body for [i_cluster]: [tmp_max] is reset here, once
    per [i_cluster]. *)
Definition i_body (cm : list (list Z)) (i_cluster : Z)
    (v : scan_vars) : result scan_vars :=
  for_loop (Z.to_nat (num_mlgs - (i_cluster + 1))) (i_cluster + 1) always
    (j_body cm i_cluster)
    (ScanVars minus_one (min_cluster_distance v) (closest_pair v)).

(** Lines 142-182: one scan.  [tmp_max] has no value before the first
    [i_cluster]; it is overwritten before it is read. *)
Definition scan (cm : list (list Z)) : result (Qc * (Z * Z)) :=
  v ← for_loop (Z.to_nat num_mlgs) 0 always (i_body cm)
        (ScanVars minus_one minus_one (-1, -1));
  Ok (min_cluster_distance v, closest_pair v).

(** Lines 190-195, one pass of the merge loop; the loop counter is part of
    the state because the bound [cluster_size[closest_pair[1]]] is read
    again before every pass. *)
Definition merge_cond (cp : Z * Z) (s : Z * state) : result bool :=
  n1 ← load (cluster_size s.2) cp.2;
  Ok (s.1 <? n1).

Definition merge_body (cp : Z * Z) (s : Z * state) : result (Z * state) :=
  let '(i, st) := s in
  x ← cell (cluster_matrix st) cp.2 i;
  row0 ← load (cluster_matrix st) cp.1;
  sz0 ← load (cluster_size st) cp.1;
  row0' ← store row0 sz0 x;
  cm' ← store (cluster_matrix st) cp.1 row0';
  row1 ← load cm' cp.2;
  row1' ← store row1 i (-1);
  cm'' ← store cm' cp.2 row1';
  sz0' ← load (cluster_size st) cp.1;
  cs' ← store (cluster_size st) cp.1 (sz0' + 1);
  Ok (i + 1, State cm'' cs' (num_clusters st)).

(** Lines 190-197.  A pass stores one more individual in a row of
    [num_individuals] cells, so a merge that returns makes at most
    [num_individuals] passes. *)
Definition merge (st : state) (cp : Z * Z) : result state :=
  s ← while_loop (Z.to_nat num_individuals) (merge_cond cp) (merge_body cp)
        (0, st);
  cs' ← store (cluster_size s.2) cp.2 0;
  Ok (State (cluster_matrix s.2) cs' (num_clusters s.2 - 1)).

(** Lines 142-198: one pass of the main loop. *)
Definition loop_body (s : Qc * state) : result (Qc * state) :=
  '(min, cp) ← scan (cluster_matrix s.2);
  if Qcltb min thresh then st' ← merge s.2 cp; Ok (min, st')
  else Ok (min, s.2).

(** Line 137. *)
Definition loop_cond (s : Qc * state) : result bool :=
  Ok (Qcltb s.1 thresh && (1 <? num_clusters s.2)).

(** Lines 136-199.  Every pass but the last one merges and so decrements
    [num_clusters], and a pass needs [num_clusters > 1]: the loop makes at
    most [num_clusters] passes. *)
Definition main_loop (st : state) : result (Qc * state) :=
  while_loop (Z.to_nat (num_clusters st)) loop_cond loop_body (minus_one, st).

(** Lines 203-211. *)
Definition fill_row (cm : list (list Z)) (i : Z)
    (rout : list (option Z)) : result (list (option Z)) :=
  for_loop (Z.to_nat num_individuals) 0
    (fun j _ => v ← cell cm i j; Ok (Qcltb minus_half (Qc_of_Z v)))
    (fun j rout => v ← cell cm i j; store rout v (Some (i + 1)))
    rout.

Definition fill_output (cm : list (list Z)) : result (list (option Z)) :=
  for_loop (Z.to_nat num_mlgs) 0 always (fill_row cm)
    (replicate (Z.to_nat num_individuals) None).

Definition farthest_neighbor (mlg : list Qc) : result (list (option Z)) :=
  st ← fill_clusters mlg;
  s ← main_loop st;
  fill_output (cluster_matrix s.2).

End FarthestNeighbor.

Arguments scan : simpl never.
Arguments merge : simpl never.
Arguments loop_body : simpl never.
Arguments loop_cond : simpl never.
Arguments fill_step : simpl never.
Arguments fill_output : simpl never.

(** ** Basic facts: comparisons, arrays, loops *)

Lemma Qcltb_lt (x y : Qc) : Qcltb x y = true ↔ (x < y)%Qc.
Proof.
  unfold Qcltb. rewrite Qclt_alt.
  destruct (x ?= y)%Qc; split; congruence.
Qed.

Lemma Qcltb_ge (x y : Qc) : Qcltb x y = false ↔ (y ≤ x)%Qc.
Proof.
  split.
  - intros H. apply Qcnot_lt_le. intros Hlt%Qcltb_lt. congruence.
  - intros H. destruct (Qcltb x y) eqn:E; [|done].
    apply Qcltb_lt in E. by apply Qclt_not_le in E.
Qed.

(** Order goals on doubles, sent to [lra] over [Q]. *)
Ltac qc_order :=
  repeat match goal with
  | H : Qcltb _ _ = true |- _ => apply Qcltb_lt in H
  | H : Qcltb _ _ = false |- _ => apply Qcltb_ge in H
  | |- Qcltb _ _ = true => apply Qcltb_lt
  | |- Qcltb _ _ = false => apply Qcltb_ge
  | |- @eq Qc _ _ => apply Qcle_antisym
  | H : @eq Qc ?x ?y |- _ =>
      assert (x ≤ y)%Qc by (rewrite H; apply Qcle_refl);
      assert (y ≤ x)%Qc by (rewrite H; apply Qcle_refl);
      clear H
  end;
  unfold Qclt, Qcle, minus_one, minus_half, zero, Qc_of_Z, inject_Z in *;
  simpl in *; lra.

Lemma load_lookup {A} (a : list A) (k : nat) (x : A) :
  a !! k = Some x → load a (Z.of_nat k) = Ok x.
Proof.
  intros H. unfold load. rewrite decide_True by lia.
  by rewrite Nat2Z.id, H.
Qed.

Lemma store_insert {A} (a : list A) (k : nat) (x : A) :
  (k < length a)%nat → store a (Z.of_nat k) x = Ok (<[k := x]> a).
Proof.
  intros H. unfold store. rewrite decide_True by lia.
  by rewrite Nat2Z.id.
Qed.

Lemma Ok_bind {A B} (a : A) (k : A → result B) : Ok a ≫= k = k a.
Proof. done. Qed.

Lemma while_loop_O {T} (cond : T → result bool) (body : T → result T) (s : T) :
  while_loop 0 cond body s
  = c ← cond s; if c : bool then Fault OutOfFuel else Ok s.
Proof. done. Qed.

Lemma while_loop_S {T} (cond : T → result bool) (body : T → result T)
    (fuel : nat) (s : T) :
  while_loop (S fuel) cond body s
  = c ← cond s;
    if c : bool then s' ← body s; while_loop fuel cond body s' else Ok s.
Proof. done. Qed.

Lemma bind_Ok {A B} (m : result A) (k : A → result B) (b : B) :
  m ≫= k = Ok b ↔ ∃ a, m = Ok a ∧ k a = Ok b.
Proof.
  destruct m as [a|f]; simpl; split.
  - intros H. by exists a.
  - by intros (a' & [= <-] & H).
  - done.
  - by intros (a' & ? & _).
Qed.

(** A [for] loop whose condition is [always] and whose body cannot fault on
    the range is a left fold over the range. *)
Lemma for_loop_fold {T} (f : T → nat → T) (body : Z → T → result T)
    (count lo : nat) (s : T) :
  (∀ k s, (lo ≤ k < lo + count)%nat → body (Z.of_nat k) s = Ok (f s k)) →
  for_loop count (Z.of_nat lo) always body s = Ok (foldl f s (seq lo count)).
Proof.
  revert lo s. induction count as [|c IH]; intros lo s Hb; [done|].
  simpl. rewrite Hb by lia. simpl.
  replace (Z.of_nat lo + 1) with (Z.of_nat (S lo)) by lia.
  apply IH. intros. apply Hb. lia.
Qed.

(** An invariant rule for the same loops, for bodies that stay in the
    monad. *)
Lemma for_loop_inv {T} (I : nat → T → Prop) (body : Z → T → result T)
    (count lo : nat) (s : T) :
  I lo s →
  (∀ k s, (lo ≤ k < lo + count)%nat → I k s →
     ∃ s', body (Z.of_nat k) s = Ok s' ∧ I (S k) s') →
  ∃ s', for_loop count (Z.of_nat lo) always body s = Ok s'
        ∧ I (lo + count)%nat s'.
Proof.
  revert lo s. induction count as [|c IH]; intros lo s HI Hb.
  - exists s. by rewrite Nat.add_0_r.
  - destruct (Hb lo s ltac:(lia) HI) as (s1 & E1 & HI1).
    simpl. rewrite E1. simpl.
    replace (Z.of_nat lo + 1) with (Z.of_nat (S lo)) by lia.
    destruct (IH (S lo) s1 HI1) as (s' & E & HI').
    { intros. apply Hb; [lia|done]. }
    exists s'. split; [done|]. by replace (lo + S c)%nat with (S lo + c)%nat by lia.
Qed.

(** What a [while] loop that returns has done. *)
Inductive iterates {T} (cond : T → result bool) (body : T → result T)
    : T → T → Prop :=
| iterates_refl s : iterates cond body s s
| iterates_step s s1 s2 :
    cond s = Ok true → body s = Ok s1 → iterates cond body s1 s2 →
    iterates cond body s s2.

Lemma while_loop_iterates {T} (cond : T → result bool)
    (body : T → result T) (fuel : nat) (s s' : T) :
  while_loop fuel cond body s = Ok s' →
  iterates cond body s s' ∧ cond s' = Ok false.
Proof.
  revert s. induction fuel as [|f IH]; intros s; simpl.
  - destruct (cond s) as [[]|] eqn:E; simpl; [done| |done].
    intros [= <-]. split; [constructor|done].
  - destruct (cond s) as [[]|] eqn:E; simpl; [| |done].
    + destruct (body s) as [s1|] eqn:E1; simpl; [|done].
      intros H. destruct (IH _ H). split; [|done].
      by eapply iterates_step.
    + intros [= <-]. split; [constructor|done].
Qed.

(** ** Partitions: the contents of the cluster arrays

    A partition lists, for every slot, the individuals stored in it, in the
    order of the row.  [encode] is the state that stores a partition: the
    members at the front of each row, [-1] in the cells behind them. *)

Abbreviation partition := (list (list nat)).

Definition row_of (N : nat) (m : list nat) : list Z :=
  (Z.of_nat <$> m) ++ replicate (N - length m) (-1).

Definition live (M : partition) : nat :=
  length (filter (λ m, m ≠ []) M).

Definition encode (N : nat) (M : partition) : state :=
  State (row_of N <$> M) ((λ m, Z.of_nat (length m)) <$> M) (Z.of_nat (live M)).

(** The members of a slot, read off a state: the first [cluster_size]
    cells of its row. *)
Definition members (st : state) (c : Z) : list Z :=
  take (Z.to_nat (cluster_size st !!! Z.to_nat c)) (cluster_matrix st !!! Z.to_nat c).

(** A monadic fold over the members of a slot. *)
Fixpoint foldM {T} (f : Z → T → result T) (m : list nat) (s : T) : result T :=
  match m with
  | [] => Ok s
  | e :: m' => s' ← f (Z.of_nat e) s; foldM f m' s'
  end.

Lemma foldM_pure {T} (f : Z → T → result T) (g : T → nat → T) (m : list nat) (s : T) :
  (∀ e s, e ∈ m → f (Z.of_nat e) s = Ok (g s e)) →
  foldM f m s = Ok (foldl g s m).
Proof.
  revert s. induction m as [|e m IH]; intros s H; [done|].
  simpl. rewrite H by left. simpl. apply IH. intros. apply H. by right.
Qed.

Lemma foldM_inv {T} (I : T → Prop) (f : Z → T → result T) (g : T → nat → T)
    (m : list nat) (s : T) :
  I s →
  (∀ e s, e ∈ m → I s → f (Z.of_nat e) s = Ok (g s e) ∧ I (g s e)) →
  foldM f m s = Ok (foldl g s m) ∧ I (foldl g s m).
Proof.
  revert s. induction m as [|e m IH]; intros s HI H; [done|].
  destruct (H e s) as [E HI']; [by left|done|].
  simpl. rewrite E. simpl. apply IH; [done|]. intros. apply H; [by right|done].
Qed.

Lemma cell_lookup (cm : list (list Z)) (c k : nat) (row : list Z) (v : Z) :
  cm !! c = Some row → row !! k = Some v →
  cell cm (Z.of_nat c) (Z.of_nat k) = Ok v.
Proof.
  intros Hc Hk. unfold cell. rewrite (load_lookup _ _ _ Hc). simpl.
  by apply load_lookup.
Qed.

Lemma members_encode (N : nat) (M : partition) (c : nat) (m : list nat) :
  M !! c = Some m →
  members (encode N M) (Z.of_nat c) = Z.of_nat <$> m.
Proof.
  intros H. unfold members, encode. simpl. rewrite Nat2Z.id.
  rewrite (list_lookup_total_correct _ c (Z.of_nat (length m)))
    by (by rewrite list_lookup_fmap, H).
  rewrite (list_lookup_total_correct _ c (row_of N m))
    by (by rewrite list_lookup_fmap, H).
  rewrite Nat2Z.id.
  unfold row_of. rewrite take_app_length'; [done|]. by rewrite length_fmap.
Qed.

(** The loops of the function that walk a row up to the first [-1] visit
    exactly the members of the slot. *)
Lemma for_row_from {T} (cm : list (list Z)) (c : nat) (p : Z → bool)
    (f : Z → T → result T) (pre : list Z) (m : list nat) (r : nat) (s : T) :
  cm !! c = Some (pre ++ (Z.of_nat <$> m) ++ replicate r (-1)) →
  (∀ e : nat, p (Z.of_nat e) = true) → p (-1) = false →
  for_loop (length m + r) (Z.of_nat (length pre))
    (λ k _, v ← cell cm (Z.of_nat c) k; Ok (p v))
    (λ k s, v ← cell cm (Z.of_nat c) k; f v s) s
  = foldM f m s.
Proof.
  intros Hc Hp Hn. revert pre s Hc.
  induction m as [|e m IH]; intros pre s Hc.
  - destruct r as [|r]; [done|]. simpl.
    rewrite (cell_lookup _ _ _ _ (-1) Hc); [by simpl; rewrite Hn|].
    by rewrite lookup_app_r, Nat.sub_diag by lia.
  - simpl. rewrite (cell_lookup _ _ _ _ (Z.of_nat e) Hc)
      by (by rewrite lookup_app_r, Nat.sub_diag by lia).
    simpl. rewrite Hp. destruct (f (Z.of_nat e) s) as [s'|] eqn:E; [|done].
    simpl. specialize (IH (pre ++ [Z.of_nat e]) s').
    rewrite length_app, Nat2Z.inj_add in IH. simpl in IH.
    apply IH. by rewrite <- app_assoc.
Qed.

Lemma for_row {T} (N : nat) (cm : list (list Z)) (c : nat) (p : Z → bool)
    (f : Z → T → result T) (m : list nat) (s : T) :
  cm !! c = Some (row_of N m) → (length m ≤ N)%nat →
  (∀ e : nat, p (Z.of_nat e) = true) → p (-1) = false →
  for_loop N 0
    (λ k _, v ← cell cm (Z.of_nat c) k; Ok (p v))
    (λ k s, v ← cell cm (Z.of_nat c) k; f v s) s
  = foldM f m s.
Proof.
  intros Hc Hl Hp Hn.
  replace N with (length m + (N - length m))%nat at 1 by lia.
  by apply (for_row_from cm c p f [] m (N - length m)).
Qed.

(** ** Well-formed partitions *)

(** Every individual below [i] is in exactly one slot, and nothing else is
    stored.  (While the clusters are filled [i] is the number of
    individuals placed so far; afterwards it is [N].) *)
Definition wf_upto (N i : nat) (M : partition) : Prop :=
  length M = N ∧ concat M ≡ₚ seq 0 i.

Definition wf (N : nat) (M : partition) : Prop := wf_upto N N M.

Lemma concat_lookup_perm (M : partition) (c : nat) (m : list nat) :
  M !! c = Some m → concat M ≡ₚ m ++ concat (<[c := []]> M).
Proof.
  revert c. induction M as [|a M IH]; intros [|c] H; simplify_eq/=; [done|].
  rewrite (IH _ H) at 1. apply Permutation_app_swap_app.
Qed.

Lemma concat_insert_perm (M : partition) (c : nat) (x : list nat) :
  (c < length M)%nat →
  concat (<[c := x]> M) ≡ₚ x ++ concat (<[c := []]> M).
Proof.
  intros H.
  rewrite (concat_lookup_perm (<[c := x]> M) c x)
    by (by apply list_lookup_insert_eq).
  by rewrite list_insert_insert_eq.
Qed.

Lemma slot_elem_of_concat (M : partition) (c : nat) (m : list nat) (e : nat) :
  M !! c = Some m → e ∈ m → e ∈ concat M.
Proof.
  intros H He. rewrite (concat_lookup_perm _ _ _ H).
  apply elem_of_app. by left.
Qed.

Lemma elem_of_concat_slot (M : partition) (e : nat) :
  e ∈ concat M → ∃ c m, M !! c = Some m ∧ e ∈ m.
Proof.
  induction M as [|a M IH]; simpl; [by intros ?%elem_of_nil|].
  intros [H|H]%elem_of_app.
  - by exists 0%nat, a.
  - destruct (IH H) as (c & m & ? & ?). by exists (S c), m.
Qed.

Lemma wf_upto_elem (N i : nat) (M : partition) (c : nat) (m : list nat) (e : nat) :
  wf_upto N i M → M !! c = Some m → e ∈ m → (e < i)%nat.
Proof.
  intros [_ HP] H He.
  pose proof (slot_elem_of_concat _ _ _ _ H He) as Hc.
  rewrite HP in Hc. apply elem_of_seq in Hc. lia.
Qed.

Lemma wf_upto_length (N i : nat) (M : partition) (c : nat) (m : list nat) :
  wf_upto N i M → M !! c = Some m → (length m ≤ i)%nat.
Proof.
  intros [_ HP] H.
  pose proof (concat_lookup_perm _ _ _ H) as Hc.
  apply Permutation_length in Hc, HP.
  rewrite length_app in Hc. rewrite length_seq in HP. lia.
Qed.

(** Two different slots together hold at most [i] individuals. *)
Lemma wf_upto_length2 (N i : nat) (M : partition) (c1 c2 : nat) (m1 m2 : list nat) :
  wf_upto N i M → c1 ≠ c2 → M !! c1 = Some m1 → M !! c2 = Some m2 →
  (length m1 + length m2 ≤ i)%nat.
Proof.
  intros [_ HP] Hne H1 H2.
  pose proof (concat_lookup_perm _ _ _ H1) as Hc1.
  assert (<[c1 := []]> M !! c2 = Some m2) as H2'
    by (by rewrite list_lookup_insert_ne).
  pose proof (concat_lookup_perm _ _ _ H2') as Hc2.
  apply Permutation_length in Hc1, Hc2, HP.
  rewrite length_app in Hc1, Hc2. rewrite length_seq in HP. lia.
Qed.

(** No individual is in two slots, nor twice in one. *)
Lemma wf_upto_unique (N i : nat) (M : partition) (c1 c2 : nat) (m1 m2 : list nat) (e : nat) :
  wf_upto N i M → M !! c1 = Some m1 → M !! c2 = Some m2 →
  e ∈ m1 → e ∈ m2 → c1 = c2.
Proof.
  intros [_ HP] H1 H2 He1 He2.
  destruct (decide (c1 = c2)) as [|Hne]; [done|exfalso].
  pose proof (concat_lookup_perm _ _ _ H1) as Hc1.
  assert (<[c1 := []]> M !! c2 = Some m2) as H2'
    by (by rewrite list_lookup_insert_ne).
  pose proof (concat_lookup_perm _ _ _ H2') as Hc2.
  assert (NoDup (concat M)) as Hnd by (rewrite HP; apply NoDup_seq).
  rewrite Hc1, Hc2 in Hnd.
  apply NoDup_app in Hnd as (_ & Hd & _).
  apply (Hd e He1), elem_of_app. by left.
Qed.

Lemma wf_upto_NoDup (N i : nat) (M : partition) (c : nat) (m : list nat) :
  wf_upto N i M → M !! c = Some m → NoDup m.
Proof.
  intros [_ HP] H.
  assert (NoDup (concat M)) as Hnd by (rewrite HP; apply NoDup_seq).
  rewrite (concat_lookup_perm _ _ _ H) in Hnd.
  by apply NoDup_app in Hnd as (? & _ & _).
Qed.

Lemma wf_elem_slot (N : nat) (M : partition) (e : nat) :
  wf N M → (e < N)%nat → ∃ c m, M !! c = Some m ∧ e ∈ m.
Proof.
  intros [_ HP] He. apply elem_of_concat_slot. rewrite HP.
  apply elem_of_seq. lia.
Qed.

(** ** The scan, on partitions *)

Section Scan.

Variable N : nat.
Variable dist : list Qc.

Hypothesis dist_length : length dist = (N * N)%nat.
Hypothesis index_fits : Z.of_nat (N * N) ≤ INT_MAX.

Local Abbreviation n := (Z.of_nat N).

(** The entry the function reads for the individuals [u] and [v]. *)
Definition D (u v : nat) : Qc := default zero (dist !! (u * N + v)%nat).

(** Lines 165-169. *)
Definition upd (t d : Qc) : Qc := if Qcltb t d then d else t.

(** The entries read for the slots [i] and [j], in the order of the two
    inner loops. *)
Definition link (M : partition) (i j : nat) : list Qc :=
  u ← M !!! i; D u <$> M !!! j.

(** [tmp_max] after the two inner loops for [(i, j)], entered with [t]. *)
Definition acc (M : partition) (i j : nat) (t : Qc) : Qc :=
  foldl upd t (link M i j).

Definition a_j (M : partition) (i : nat) (v : scan_vars) (j : nat) : scan_vars :=
  let t := acc M i j (tmp_max v) in
  if replaces t (min_cluster_distance v)
  then ScanVars t t (Z.of_nat i, Z.of_nat j)
  else ScanVars t (min_cluster_distance v) (closest_pair v).

Definition a_i (M : partition) (v : scan_vars) (i : nat) : scan_vars :=
  foldl (a_j M i) (ScanVars minus_one (min_cluster_distance v) (closest_pair v))
    (seq (S i) (N - S i)).

Definition a_scan (M : partition) : scan_vars :=
  foldl (a_i M) (ScanVars minus_one minus_one (-1, -1)) (seq 0 N).

Lemma dist_at_D (u v : nat) :
  (u < N)%nat → (v < N)%nat →
  dist_at n dist (Z.of_nat u) (Z.of_nat v) = Ok (D u v).
Proof.
  intros Hu Hv. unfold dist_at, to_int, D, INT_MIN, INT_MAX in *.
  assert (u * N + v < N * N)%nat as Hlt by nia.
  rewrite decide_True by nia. simpl.
  rewrite decide_True by nia. simpl.
  destruct (lookup_lt_is_Some_2 dist (u * N + v)%nat) as [d Hd]; [lia|].
  rewrite Hd. simpl.
  replace (Z.of_nat u * n + Z.of_nat v) with (Z.of_nat (u * N + v)) by lia.
  by apply load_lookup.
Qed.

Lemma foldl_bind {A B C} (f : A → B → A) (g : C → list B) (a : A) (l : list C) :
  foldl f a (l ≫= g) = foldl (λ a x, foldl f a (g x)) a l.
Proof.
  revert a. induction l as [|x l IH]; intros a; [done|].
  by rewrite bind_cons, foldl_app, IH.
Qed.

Section Rows.

Variable M : partition.
Hypothesis M_wf : wf N M.

Local Abbreviation cm := (row_of N <$> M).

Lemma row_lookup (c : nat) (m : list nat) :
  M !! c = Some m → cm !! c = Some (row_of N m).
Proof. intros H. by rewrite list_lookup_fmap, H. Qed.

Lemma l_loop_fold (j u : nat) (mj : list nat) (t : Qc) :
  M !! j = Some mj → (u < N)%nat →
  l_loop n dist cm (Z.of_nat j) (Z.of_nat u) t = Ok (foldl upd t (D u <$> mj)).
Proof.
  intros Hj Hu. unfold l_loop. rewrite Nat2Z.id.
  rewrite (for_row N cm j (λ v, negb (v =? -1))
             (λ v tmp, d ← dist_at n dist (Z.of_nat u) v;
                       Ok (if Qcltb tmp d then d else tmp)) mj).
  - rewrite foldl_fmap. apply foldM_pure. intros e s He.
    rewrite dist_at_D; [done|done|].
    pose proof (wf_upto_elem _ _ _ _ _ _ M_wf Hj He). lia.
  - by apply row_lookup.
  - pose proof (wf_upto_length _ _ _ _ _ M_wf Hj). lia.
  - intros e. apply negb_true_iff, Z.eqb_neq. lia.
  - done.
Qed.

Lemma k_loop_acc (i j : nat) (mi mj : list nat) (t : Qc) :
  M !! i = Some mi → M !! j = Some mj →
  k_loop n dist cm (Z.of_nat i) (Z.of_nat j) t = Ok (acc M i j t).
Proof.
  intros Hi Hj. unfold k_loop. rewrite Nat2Z.id.
  rewrite (for_row N cm i (λ v, negb (v =? -1))
             (λ v tmp, l_loop n dist cm (Z.of_nat j) v tmp) mi).
  - unfold acc, link.
    rewrite (list_lookup_total_correct _ _ _ Hi), (list_lookup_total_correct _ _ _ Hj).
    rewrite foldl_bind. apply foldM_pure. intros e s He.
    apply l_loop_fold; [done|].
    pose proof (wf_upto_elem _ _ _ _ _ _ M_wf Hi He). lia.
  - by apply row_lookup.
  - pose proof (wf_upto_length _ _ _ _ _ M_wf Hi). lia.
  - intros e. apply negb_true_iff, Z.eqb_neq. lia.
  - done.
Qed.

Lemma j_body_a_j (i j : nat) (v : scan_vars) :
  (i < N)%nat → (j < N)%nat →
  j_body n dist cm (Z.of_nat i) (Z.of_nat j) v = Ok (a_j M i v j).
Proof.
  intros Hi Hj. destruct M_wf as [M_length _].
  destruct (lookup_lt_is_Some_2 M i) as [mi Hmi]; [lia|].
  destruct (lookup_lt_is_Some_2 M j) as [mj Hmj]; [lia|].
  unfold j_body. by rewrite (k_loop_acc i j mi mj).
Qed.

Lemma i_body_a_i (i : nat) (v : scan_vars) :
  (i < N)%nat → i_body n dist cm (Z.of_nat i) v = Ok (a_i M v i).
Proof.
  intros Hi. unfold i_body, num_mlgs, a_i.
  replace (Z.to_nat (n - (Z.of_nat i + 1))) with (N - S i)%nat by lia.
  replace (Z.of_nat i + 1) with (Z.of_nat (S i)) by lia.
  apply for_loop_fold. intros k s Hk. apply j_body_a_j; lia.
Qed.

Lemma scan_a_scan :
  scan n dist cm
  = Ok (min_cluster_distance (a_scan M), closest_pair (a_scan M)).
Proof.
  unfold scan, num_mlgs. rewrite Nat2Z.id.
  change 0 with (Z.of_nat 0).
  rewrite (for_loop_fold (a_i M)); [done|].
  intros k s Hk. apply i_body_a_i. lia.
Qed.

End Rows.

End Scan.

(** ** What a scan selects *)

Section ScanFacts.

Variable N : nat.
Variable dist : list Qc.
Hypothesis dist_nonneg : Forall (λ d, (zero ≤ d)%Qc) dist.
Variable M : partition.

Lemma D_nonneg (u v : nat) : (zero ≤ D N dist u v)%Qc.
Proof.
  unfold D. destruct (dist !! _) as [d|] eqn:E; simpl.
  - by eapply (Forall_lookup_1 _ _ _ _ dist_nonneg).
  - apply Qcle_refl.
Qed.

Lemma foldl_upd_ge (t : Qc) (l : list Qc) : (t ≤ foldl upd t l)%Qc.
Proof.
  revert t. induction l as [|d l IH]; intros t; simpl; [apply Qcle_refl|].
  eapply Qcle_trans; [|apply IH].
  unfold upd. destruct (Qcltb t d) eqn:E; [qc_order|apply Qcle_refl].
Qed.

Lemma foldl_upd_elem (t : Qc) (l : list Qc) (d : Qc) :
  d ∈ l → (d ≤ foldl upd t l)%Qc.
Proof.
  revert t. induction l as [|d' l IH]; intros t; [by intros ?%elem_of_nil|].
  intros [->|H]%elem_of_cons; simpl; [|by apply IH].
  eapply Qcle_trans; [|apply foldl_upd_ge].
  unfold upd. destruct (Qcltb t d') eqn:E; [apply Qcle_refl|qc_order].
Qed.

Lemma foldl_upd_in (t : Qc) (l : list Qc) :
  foldl upd t l = t ∨ foldl upd t l ∈ l.
Proof.
  revert t. induction l as [|d l IH]; intros t; simpl; [by left|].
  destruct (IH (upd t d)) as [->|H]; [|right; by right].
  unfold upd. destruct (Qcltb t d); [right; by left|by left].
Qed.

Lemma link_elem (i j : nat) (d : Qc) :
  d ∈ link N dist M i j → ∃ u v, u ∈ M !!! i ∧ v ∈ M !!! j ∧ d = D N dist u v.
Proof.
  unfold link. intros (u & Hd & Hu)%list_elem_of_bind.
  apply list_elem_of_fmap in Hd as (v & -> & Hv). by exists u, v.
Qed.

Lemma elem_link (i j u v : nat) :
  u ∈ M !!! i → v ∈ M !!! j → D N dist u v ∈ link N dist M i j.
Proof.
  intros Hu Hv. unfold link. apply list_elem_of_bind. exists u.
  split; [|done]. apply list_elem_of_fmap. by exists v.
Qed.

Lemma link_nonneg (i j : nat) (d : Qc) :
  d ∈ link N dist M i j → (zero ≤ d)%Qc.
Proof. intros (u & v & _ & _ & ->)%link_elem. apply D_nonneg. Qed.

Lemma link_nil (i j : nat) :
  link N dist M i j = [] ↔ M !!! i = [] ∨ M !!! j = [].
Proof.
  unfold link. destruct (M !!! i) as [|u mi]; [split; [by left|done]|].
  destruct (M !!! j) as [|v mj].
  - split; [by right|intros _].
    clear. induction (u :: mi) as [|? ? IH]; [done|]. by rewrite bind_cons, IH.
  - split; [done|]. by intros [|].
Qed.

(** The value of [tmp_max] when the pair [(i, j)] is checked: the running
    maximum over the slots [i + 1 .. j], not the maximum for [j] alone. *)
Definition val (i j : nat) : Qc :=
  foldl (λ t j', acc N dist M i j' t) minus_one (seq (S i) (j - i)).

Lemma val_start (i j : nat) : (j ≤ i)%nat → val i j = minus_one.
Proof. intros H. unfold val. by replace (j - i)%nat with 0%nat by lia. Qed.

Lemma val_S (i j : nat) :
  (i ≤ j)%nat → val i (S j) = acc N dist M i (S j) (val i j).
Proof.
  intros H. unfold val. replace (S j - i)%nat with (S (j - i)) by lia.
  rewrite seq_S, foldl_app. simpl. by replace (S (i + (j - i))) with (S j) by lia.
Qed.

Lemma val_range (i j : nat) : val i j = minus_one ∨ (zero ≤ val i j)%Qc.
Proof.
  induction j as [|j IH]; [left; apply val_start; lia|].
  destruct (decide (i ≤ j)%nat) as [H|H]; [|left; apply val_start; lia].
  rewrite val_S by done. unfold acc.
  destruct (foldl_upd_in (val i j) (link N dist M i (S j))) as [->|Hin];
    [done|right]. by eapply link_nonneg.
Qed.

Lemma val_mono (i j : nat) : (i ≤ j)%nat → (val i j ≤ val i (S j))%Qc.
Proof. intros H. rewrite val_S by done. apply foldl_upd_ge. Qed.

(** Two non-empty slots always give a candidate value. *)
Lemma val_nonneg (i j : nat) :
  (i < j)%nat → M !!! i ≠ [] → M !!! j ≠ [] → (zero ≤ val i j)%Qc.
Proof.
  intros Hij Hi Hj. destruct j as [|j]; [lia|].
  rewrite val_S by lia.
  destruct (M !!! i) as [|u mi] eqn:Ei; [done|].
  destruct (M !!! S j) as [|v mj] eqn:Ej; [done|].
  eapply Qcle_trans; [apply (D_nonneg u v)|].
  apply foldl_upd_elem, elem_link; rewrite ?Ei, ?Ej; by left.
Qed.

End ScanFacts.

(** ** The pair a scan retains *)

(** [(a, b)] is checked before [(i, j)]. *)
Definition before (i j a b : nat) : Prop :=
  (a < i ∨ (a = i ∧ b < j))%nat.

(** The pairs of slots checked before the scan reaches [(i, j)]. *)
Definition checked (N i j a b : nat) : Prop :=
  (a < b < N)%nat ∧ before i j a b.

(** [m] and [cp] are what the scan holds after checking the pairs [P]:
    either no pair of [P] was a candidate, or [cp] is the first pair of [P]
    whose value is the least candidate value of [P]. *)
Definition best_of (N : nat) (dist : list Qc) (M : partition)
    (P : nat → nat → Prop) (m : Qc) (cp : Z * Z) : Prop :=
  (cp = (-1, -1) ∧ m = minus_one
   ∧ ∀ a b, P a b → val N dist M a b = minus_one)
  ∨ (∃ ci cj : nat,
       cp = (Z.of_nat ci, Z.of_nat cj) ∧ P ci cj
       ∧ m = val N dist M ci cj ∧ (zero ≤ m)%Qc
       ∧ ∀ a b, P a b →
           val N dist M a b = minus_one
           ∨ ((m ≤ val N dist M a b)%Qc
              ∧ (before ci cj a b → (m < val N dist M a b)%Qc))).

Lemma replaces_true (t m : Qc) :
  replaces t m = true ↔ (minus_half < t)%Qc ∧ ((t < m)%Qc ∨ (m < zero)%Qc).
Proof.
  unfold replaces. rewrite andb_true_iff, orb_true_iff, !Qcltb_lt. tauto.
Qed.

Section ScanBest.

Variable N : nat.
Variable dist : list Qc.
Hypothesis dist_nonneg : Forall (λ d, (zero ≤ d)%Qc) dist.
Variable M : partition.

Local Abbreviation val' := (val N dist M).
Local Abbreviation best_of' := (best_of N dist M).

Lemma best_of_ext (P Q : nat → nat → Prop) (m : Qc) (cp : Z * Z) :
  (∀ a b, P a b ↔ Q a b) → best_of' P m cp → best_of' Q m cp.
Proof.
  intros HPQ [(-> & -> & H)|(ci & cj & -> & HP & -> & Hm & H)].
  - left. split_and!; [done|done|]. intros a b ?%HPQ. by apply H.
  - right. exists ci, cj. split_and!; [done|by apply HPQ|done|done|].
    intros a b ?%HPQ. by apply H.
Qed.

Lemma best_of_step (P : nat → nat → Prop) (i j : nat) (m : Qc) (cp : Z * Z) :
  best_of' P m cp → (∀ a b, P a b → before i j a b) →
  best_of' (λ a b, P a b ∨ (a = i ∧ b = j))
    (if replaces (val' i j) m then val' i j else m)
    (if replaces (val' i j) m then (Z.of_nat i, Z.of_nat j) else cp).
Proof.
  intros Hbest Hbefore.
  pose proof (val_range N dist dist_nonneg M i j) as Hrange.
  destruct (replaces (val' i j) m) eqn:E.
  - apply replaces_true in E as [Hhalf Hless].
    assert (zero ≤ val' i j)%Qc as Hpos by (destruct Hrange; qc_order).
    right. exists i, j. split_and!; [done|by right|done|done|].
    intros a b [Hab|[-> ->]].
    + destruct Hbest as [(_ & _ & H)|(ci & cj & _ & _ & -> & Hm & H)].
      * left. by apply H.
      * destruct (H a b Hab) as [|[Hle _]]; [by left|right].
        assert (val' i j < val' a b)%Qc by (destruct Hless; qc_order).
        split; [by apply Qclt_le_weak|done].
    + right. split; [apply Qcle_refl|].
      unfold before. lia.
  - assert (¬ ((minus_half < val' i j)%Qc
               ∧ ((val' i j < m)%Qc ∨ (m < zero)%Qc))) as Hno.
    { rewrite <- replaces_true. by rewrite E. }
    destruct Hbest as [(-> & -> & H)|(ci & cj & -> & HP & -> & Hm & H)].
    + left. split_and!; [done|done|].
      intros a b [Hab|[-> ->]]; [by apply H|].
      destruct Hrange as [|Hr]; [done|]. exfalso. apply Hno.
      split; [|right]; qc_order.
    + right. exists ci, cj. split_and!; [done|by left|done|done|].
      intros a b [Hab|[-> ->]]; [by apply H|].
      destruct Hrange as [|Hr]; [by left|right]. split.
      * apply Qcnot_lt_le. intros Hlt. apply Hno. split; [qc_order|by left].
      * intros Hb. specialize (Hbefore _ _ HP). unfold before in *. lia.
Qed.

Lemma a_i_inv (i k : nat) (m : Qc) (cp : Z * Z) :
  (S i + k ≤ N)%nat → best_of' (checked N i (S i)) m cp →
  let v := foldl (a_j N dist M i) (ScanVars minus_one m cp) (seq (S i) k) in
  tmp_max v = val' i (i + k)
  ∧ best_of' (checked N i (S i + k)) (min_cluster_distance v) (closest_pair v).
Proof.
  intros Hk Hbest. cbv zeta. induction k as [|k IH].
  - simpl. split; [by rewrite val_start by lia|].
    eapply best_of_ext; [|done]. intros a b. by rewrite Nat.add_0_r.
  - destruct IH as [IHt IHb]; [lia|].
    rewrite seq_S, foldl_app. simpl.
    set (v := foldl _ _ _) in *. unfold a_j.
    replace (acc N dist M i (S (i + k)) (tmp_max v)) with (val' i (S (i + k)))
      by (rewrite val_S by lia; by rewrite IHt).
    pose proof (best_of_step _ i (S (i + k)) _ _ IHb) as Hstep.
    destruct (replaces _ _); simpl;
      (split; [f_equal; lia|]);
      (eapply best_of_ext; [|apply Hstep; by intros a b [_ ?]]);
      intros a b; unfold checked, before; lia.
Qed.

Lemma a_scan_inv (k : nat) :
  (k ≤ N)%nat →
  let v := foldl (a_i N dist M) (ScanVars minus_one minus_one (-1, -1)) (seq 0 k) in
  best_of' (checked N k (S k)) (min_cluster_distance v) (closest_pair v).
Proof.
  intros Hk. cbv zeta. induction k as [|k IH].
  - left. split_and!; [done|done|]. unfold checked, before. lia.
  - rewrite seq_S, foldl_app. simpl. set (v := foldl _ _ _) in *.
    unfold a_i.
    destruct (a_i_inv k (N - S k) (min_cluster_distance v) (closest_pair v))
      as [_ Hb]; [lia|by apply IH; lia|].
    eapply best_of_ext; [|apply Hb].
    intros a b; unfold checked, before; lia.
Qed.

(** After a scan the function holds the first pair, in the order of the
    two outer loops, with the least candidate value. *)
Lemma a_scan_best :
  best_of' (λ a b, (a < b < N)%nat)
    (min_cluster_distance (a_scan N dist M)) (closest_pair (a_scan N dist M)).
Proof.
  eapply best_of_ext; [|apply (a_scan_inv N); lia].
  intros a b; unfold checked, before; lia.
Qed.

End ScanBest.

(** ** The merge, on partitions *)

(** Lines 190-197 on a partition: the members of slot [j] go to the end of
    slot [i], and slot [j] is left empty. *)
Definition pmerge (M : partition) (i j : nat) : partition :=
  <[j := []]> (<[i := M !!! i ++ M !!! j]> M).

Definition occupied (m : list nat) : nat := if decide (m ≠ []) then 1%nat else 0%nat.

Lemma live_cons (m : list nat) (M : partition) :
  live (m :: M) = (occupied m + live M)%nat.
Proof.
  unfold live, occupied. rewrite filter_cons. by destruct (decide (m ≠ [])).
Qed.

Lemma live_insert (M : partition) (c : nat) (m x : list nat) :
  M !! c = Some m →
  (live (<[c := x]> M) + occupied m = live M + occupied x)%nat.
Proof.
  revert c. induction M as [|a M IH]; intros [|c] H; simplify_eq/=.
  - rewrite !live_cons. lia.
  - rewrite !live_cons. specialize (IH _ H). lia.
Qed.

Lemma live_pmerge (M : partition) (i j : nat) (mi mj : list nat) :
  i ≠ j → M !! i = Some mi → M !! j = Some mj → mi ≠ [] → mj ≠ [] →
  Z.of_nat (live (pmerge M i j)) = Z.of_nat (live M) - 1.
Proof.
  intros Hne Hi Hj Hmi Hmj. unfold pmerge.
  rewrite (list_lookup_total_correct _ _ _ Hi), (list_lookup_total_correct _ _ _ Hj).
  pose proof (live_insert M i mi (mi ++ mj) Hi) as H1.
  assert (<[i := mi ++ mj]> M !! j = Some mj) as Hj'
    by (by rewrite list_lookup_insert_ne).
  pose proof (live_insert _ j mj [] Hj') as H2.
  unfold occupied in *.
  rewrite decide_True in H1 by done.
  rewrite decide_True in H1 by (by destruct mi).
  rewrite decide_True in H2 by done.
  rewrite decide_False in H2 by (by intros ?).
  lia.
Qed.

Lemma wf_pmerge (N : nat) (M : partition) (i j : nat) :
  wf N M → i ≠ j → (i < N)%nat → (j < N)%nat → wf N (pmerge M i j).
Proof.
  intros [HL HP] Hne Hi Hj.
  destruct (lookup_lt_is_Some_2 M i) as [mi Hmi]; [lia|].
  destruct (lookup_lt_is_Some_2 M j) as [mj Hmj]; [lia|].
  unfold pmerge.
  rewrite (list_lookup_total_correct _ _ _ Hmi), (list_lookup_total_correct _ _ _ Hmj).
  split; [by rewrite !length_insert|].
  rewrite <- HP.
  rewrite (list_insert_insert_ne M j i) by done.
  rewrite concat_insert_perm by (rewrite length_insert; lia).
  rewrite (concat_lookup_perm M i mi Hmi).
  rewrite (concat_lookup_perm (<[i := []]> M) j mj)
    by (by rewrite list_lookup_insert_ne).
  rewrite (list_insert_insert_ne M j i) by done.
  by rewrite <- app_assoc.
Qed.

Lemma row_of_snoc (N : nat) (m : list nat) (e : nat) :
  (length m < N)%nat →
  <[length m := Z.of_nat e]> (row_of N m) = row_of N (m ++ [e]).
Proof.
  intros H. unfold row_of.
  rewrite insert_app_r_alt by (rewrite length_fmap; lia).
  rewrite length_fmap, Nat.sub_diag, length_app. simpl.
  replace (N - length m)%nat with (S (N - (length m + 1))) by lia.
  simpl. by rewrite fmap_app, <- app_assoc.
Qed.

Lemma length_row_of (N : nat) (m : list nat) :
  (length m ≤ N)%nat → length (row_of N m) = N.
Proof.
  intros H. unfold row_of. rewrite length_app, length_fmap, length_replicate. lia.
Qed.

Section Merge.

Variable N : nat.
Variable M : partition.
Variables i j : nat.
Variables mi mj : list nat.

Hypothesis M_wf : wf N M.
Hypothesis i_ne_j : i ≠ j.
Hypothesis M_i : M !! i = Some mi.
Hypothesis M_j : M !! j = Some mj.

Local Abbreviation n := (Z.of_nat N).
Local Abbreviation cp := (Z.of_nat i, Z.of_nat j).

(** Row [j] after [t] passes: the cells already moved are [-1]. *)
Definition row_from (t : nat) : list Z :=
  replicate t (-1) ++ (Z.of_nat <$> drop t mj) ++ replicate (N - length mj) (-1).

(** The state after [t] passes of the merge loop. *)
Definition merging (t : nat) : state :=
  State (<[j := row_from t]> (<[i := row_of N (mi ++ take t mj)]>
           (cluster_matrix (encode N M))))
        (<[i := Z.of_nat (length mi + t)]> (cluster_size (encode N M)))
        (num_clusters (encode N M)).

Lemma i_lt : (i < length M)%nat.
Proof. by eapply lookup_lt_Some. Qed.

Lemma j_lt : (j < length M)%nat.
Proof. by eapply lookup_lt_Some. Qed.

Lemma lengths_le : (length mi + length mj ≤ N)%nat.
Proof. by eapply (wf_upto_length2 N N M i j). Qed.

Lemma merging_0 : merging 0 = encode N M.
Proof.
  unfold merging, encode, row_from. simpl.
  rewrite drop_0, app_nil_r, Nat.add_0_r.
  f_equal.
  - rewrite (list_insert_id _ i) by (by rewrite list_lookup_fmap, M_i).
    apply list_insert_id. by rewrite list_lookup_fmap, M_j.
  - apply list_insert_id. by rewrite list_lookup_fmap, M_i.
Qed.

Lemma row_from_step (t e : nat) :
  mj !! t = Some e →
  row_from t !! t = Some (Z.of_nat e)
  ∧ <[t := -1]> (row_from t) = row_from (S t).
Proof.
  intros He. unfold row_from.
  rewrite (drop_S _ _ _ He). split.
  - rewrite lookup_app_r by (rewrite length_replicate; lia).
    by rewrite length_replicate, Nat.sub_diag.
  - rewrite replicate_S_end, <- app_assoc.
    rewrite insert_app_r_alt by (rewrite length_replicate; lia).
    by rewrite length_replicate, Nat.sub_diag.
Qed.

Lemma merge_body_step (t e : nat) :
  mj !! t = Some e →
  merge_body cp (Z.of_nat t, merging t) = Ok (Z.of_nat (S t), merging (S t)).
Proof.
  intros He. pose proof i_lt. pose proof j_lt. pose proof lengths_le.
  pose proof (lookup_lt_Some _ _ _ He) as Ht.
  destruct (row_from_step t e He) as [Hx Hrow].
  unfold merge_body. simpl.
  assert (<[j:=row_from t]> (<[i:=row_of N (mi ++ take t mj)]> (row_of N <$> M))
            !! j = Some (row_from t)) as Hcj.
  { apply list_lookup_insert_eq. by rewrite length_insert, length_fmap. }
  rewrite (cell_lookup _ _ _ _ _ Hcj Hx). simpl.
  rewrite (load_lookup _ i (row_of N (mi ++ take t mj))); cycle 1.
  { rewrite list_lookup_insert_ne by done.
    apply list_lookup_insert_eq. by rewrite length_fmap. }
  simpl.
  rewrite (load_lookup _ i (Z.of_nat (length mi + t))); cycle 1.
  { apply list_lookup_insert_eq. by rewrite length_fmap. }
  simpl.
  assert (length (mi ++ take t mj) = (length mi + t)%nat) as Hlen.
  { rewrite length_app, length_take. lia. }
  rewrite (store_insert (row_of N (mi ++ take t mj)))
    by (rewrite length_row_of; lia).
  rewrite <- Hlen at 1. rewrite row_of_snoc by lia. simpl.
  rewrite (store_insert (<[j:=_]> _) i)
    by (by rewrite !length_insert, length_fmap).
  simpl.
  rewrite (load_lookup _ j (row_from t)); cycle 1.
  { rewrite list_lookup_insert_ne by done. done. }
  simpl.
  rewrite (store_insert (row_from t)); cycle 1.
  { unfold row_from. rewrite !length_app, !length_replicate, length_fmap, length_drop. lia. }
  simpl. rewrite Hrow.
  rewrite (store_insert (<[i:=_]> (<[j:=_]> _)) j)
    by (by rewrite !length_insert, length_fmap).
  simpl.
  rewrite store_insert by (by rewrite !length_insert, length_fmap).
  simpl. unfold merging. simpl.
  f_equal. f_equal; [lia|]. f_equal.
  - rewrite (list_insert_insert_ne _ i j) by done.
    rewrite !list_insert_insert_eq.
    by rewrite <- app_assoc, (take_S_r _ _ _ He).
  - rewrite list_insert_insert_eq. f_equal. lia.
Qed.

Lemma merge_cond_eval (t : nat) :
  merge_cond cp (Z.of_nat t, merging t)
  = Ok (Z.of_nat t <? Z.of_nat (length mj)).
Proof.
  unfold merge_cond. simpl.
  rewrite (load_lookup _ j (Z.of_nat (length mj))); [done|].
  rewrite list_lookup_insert_ne by done. by rewrite list_lookup_fmap, M_j.
Qed.

Lemma merge_loop (fuel t : nat) :
  (t ≤ length mj)%nat → (length mj - t ≤ fuel)%nat →
  while_loop fuel (merge_cond cp) (merge_body cp) (Z.of_nat t, merging t)
  = Ok (Z.of_nat (length mj), merging (length mj)).
Proof.
  revert t. induction fuel as [|f IH]; intros t Ht Hf.
  - assert (t = length mj) as -> by lia.
    by rewrite while_loop_O, merge_cond_eval, Ok_bind, Z.ltb_irrefl.
  - rewrite while_loop_S, merge_cond_eval, Ok_bind.
    destruct (decide (t = length mj)) as [->|Hne].
    + by rewrite Z.ltb_irrefl.
    + replace (Z.of_nat t <? Z.of_nat (length mj)) with true
        by (symmetry; apply Z.ltb_lt; lia).
      destruct (lookup_lt_is_Some_2 mj t) as [e He]; [lia|].
      rewrite (merge_body_step t e He), Ok_bind. apply IH; lia.
Qed.

Hypothesis mi_occupied : mi ≠ [].
Hypothesis mj_occupied : mj ≠ [].

Lemma merge_pmerge :
  merge n (encode N M) cp = Ok (encode N (pmerge M i j)).
Proof.
  pose proof i_lt. pose proof j_lt. pose proof lengths_le.
  unfold merge. rewrite Nat2Z.id, <- merging_0.
  change 0 with (Z.of_nat 0).
  rewrite (merge_loop N 0) by lia. simpl.
  rewrite store_insert by (by rewrite length_insert, length_fmap).
  simpl. unfold encode.
  rewrite (live_pmerge M i j mi mj) by done. unfold pmerge.
  rewrite (list_lookup_total_correct _ _ _ M_i), (list_lookup_total_correct _ _ _ M_j).
  rewrite !list_fmap_insert. unfold row_from.
  rewrite take_ge, drop_ge by lia. simpl.
  rewrite <- replicate_add, length_app. unfold row_of at 3. simpl.
  by replace (length mj + (N - length mj))%nat with (N - 0)%nat by lia.
Qed.

End Merge.

(** ** Filling the clusters, on partitions *)

(** Lines 121-122: individual [e] goes to the end of slot [c]. *)
Definition place (M : partition) (c e : nat) : partition :=
  <[c := M !!! c ++ [e]]> M.

(** The slot of an individual whose label is [l]. *)
Definition slot_of_label (l : Z) : nat := Z.to_nat (l - 1).

(** The partition after the first [k] individuals are placed. *)
Definition initial_upto (N : nat) (labels : list Z) (k : nat) : partition :=
  foldl (λ M e, place M (slot_of_label (labels !!! e)) e)
    (replicate N []) (seq 0 k).

Definition initial (N : nat) (labels : list Z) : partition :=
  initial_upto N labels N.

(** The label vector as the function receives it: a vector of doubles. *)
Definition label_vector (labels : list Z) : list Qc := Qc_of_Z <$> labels.

Lemma double_to_int_Qc_of_Z (z : Z) :
  INT_MIN ≤ z ≤ INT_MAX → double_to_int (Qc_of_Z z) = Ok z.
Proof.
  intros H. unfold double_to_int, to_int. simpl.
  rewrite Z.quot_1_r. by rewrite decide_True.
Qed.

Lemma alloc_state_encode (N : nat) :
  alloc_state (Z.of_nat N) = encode N (replicate N []).
Proof.
  unfold alloc_state, encode, num_mlgs. rewrite Nat2Z.id.
  rewrite !fmap_replicate. unfold row_of. simpl. rewrite Nat.sub_0_r.
  f_equal. unfold live.
  induction N as [|k IH]; [done|]. simpl.
  rewrite filter_cons_False by (by intros H). done.
Qed.

Lemma wf_upto_alloc (N : nat) : wf_upto N 0 (replicate N []).
Proof.
  split; [by rewrite length_replicate|]. simpl.
  induction N as [|k IH]; [done|]. done.
Qed.

Lemma wf_upto_place (N e : nat) (M : partition) (c : nat) :
  wf_upto N e M → (c < N)%nat → wf_upto N (S e) (place M c e).
Proof.
  intros [HL HP] Hc. unfold place.
  destruct (lookup_lt_is_Some_2 M c) as [mc Hmc]; [lia|].
  rewrite (list_lookup_total_correct _ _ _ Hmc).
  split; [by rewrite length_insert|].
  rewrite concat_insert_perm by lia.
  rewrite seq_S, <- HP. simpl.
  rewrite (concat_lookup_perm M c mc Hmc).
  rewrite <- !app_assoc. apply Permutation_app_head, Permutation_app_comm.
Qed.

Lemma live_place (M : partition) (c e : nat) (mc : list nat) :
  M !! c = Some mc →
  Z.of_nat (live (place M c e))
  = if decide (Z.of_nat (length mc) + 1 = 1)
    then Z.of_nat (live M) + 1 else Z.of_nat (live M).
Proof.
  intros Hmc. unfold place. rewrite (list_lookup_total_correct _ _ _ Hmc).
  pose proof (live_insert M c mc (mc ++ [e]) Hmc) as H.
  unfold occupied in H.
  destruct mc as [|x mc]; simpl in *; repeat case_decide; done || lia.
Qed.

Lemma initial_upto_S (N : nat) (labels : list Z) (k : nat) :
  initial_upto N labels (S k)
  = place (initial_upto N labels k) (slot_of_label (labels !!! k)) k.
Proof. unfold initial_upto. by rewrite seq_S, foldl_app. Qed.

Lemma initial_upto_length (N : nat) (labels : list Z) (k : nat) :
  length (initial_upto N labels k) = N.
Proof.
  induction k as [|k IH]; [apply length_replicate|].
  rewrite initial_upto_S. unfold place. by rewrite length_insert.
Qed.

Section Fill.

Variable N : nat.
Variable labels : list Z.
Hypothesis labels_length : length labels = N.
Hypothesis labels_range : Forall (λ l, 1 ≤ l ≤ Z.of_nat N) labels.
Hypothesis N_fits : Z.of_nat N ≤ INT_MAX.

Local Abbreviation n := (Z.of_nat N).

Lemma label_lookup (e : nat) :
  (e < N)%nat →
  labels !! e = Some (labels !!! e) ∧ 1 ≤ labels !!! e ≤ n.
Proof.
  intros He. destruct (lookup_lt_is_Some_2 labels e) as [l Hl]; [lia|].
  rewrite (list_lookup_total_correct _ _ _ Hl). split; [done|].
  by apply (Forall_lookup_1 _ _ _ _ labels_range Hl).
Qed.

Lemma fill_step_place (M : partition) (e : nat) :
  wf_upto N e M → (e < N)%nat →
  fill_step (label_vector labels) (Z.of_nat e) (encode N M)
  = Ok (encode N (place M (slot_of_label (labels !!! e)) e)).
Proof.
  intros Hwf He. destruct (label_lookup e He) as [Hl Hr].
  set (l := labels !!! e) in *. set (c := slot_of_label l).
  assert (l - 1 = Z.of_nat c) as Hc by (unfold c, slot_of_label; lia).
  assert (c < N)%nat as HcN by lia.
  destruct Hwf as [HL HP].
  destruct (lookup_lt_is_Some_2 M c) as [mc Hmc]; [lia|].
  pose proof (wf_upto_length N e M c mc (conj HL HP) Hmc) as Hlen.
  unfold fill_step.
  rewrite (load_lookup _ e (Qc_of_Z l))
    by (unfold label_vector; by rewrite list_lookup_fmap, Hl).
  rewrite Ok_bind, double_to_int_Qc_of_Z, Ok_bind
    by (unfold INT_MIN, INT_MAX in *; lia).
  rewrite Hc. simpl.
  rewrite (load_lookup _ c (row_of N mc)) by (by rewrite list_lookup_fmap, Hmc).
  rewrite Ok_bind.
  rewrite (load_lookup _ c (Z.of_nat (length mc)))
    by (by rewrite list_lookup_fmap, Hmc).
  rewrite Ok_bind.
  rewrite (store_insert (row_of N mc)) by (rewrite length_row_of; lia).
  rewrite Ok_bind, row_of_snoc by lia.
  rewrite (store_insert (row_of N <$> M)) by (rewrite length_fmap; lia).
  rewrite Ok_bind.
  rewrite store_insert by (rewrite length_fmap; lia).
  rewrite Ok_bind. unfold encode.
  rewrite (live_place M c e mc Hmc). unfold place.
  rewrite (list_lookup_total_correct _ _ _ Hmc), !list_fmap_insert.
  rewrite length_app, Nat2Z.inj_add. done.
Qed.

Lemma fill_clusters_initial :
  fill_clusters n (label_vector labels) = Ok (encode N (initial N labels))
  ∧ wf N (initial N labels).
Proof.
  unfold fill_clusters. rewrite Nat2Z.id, alloc_state_encode.
  change 0 with (Z.of_nat 0).
  destruct (for_loop_inv
    (λ k st, st = encode N (initial_upto N labels k)
             ∧ wf_upto N k (initial_upto N labels k))
    (fill_step (label_vector labels)) N 0 (encode N (replicate N [])))
    as (st & E & -> & Hwf).
  - split; [done|apply wf_upto_alloc].
  - intros k st Hk [-> Hwf]. eexists. split; [apply fill_step_place; [done|lia]|].
    rewrite initial_upto_S.
    split; [done|]. apply wf_upto_place; [done|].
    destruct (label_lookup k) as [_ ?]; [lia|]. unfold slot_of_label. lia.
  - by rewrite E.
Qed.

End Fill.

(** ** Selected pairs *)

Lemma live_occupied (M : partition) :
  (0 < live M)%nat → ∃ a, (a < length M)%nat ∧ M !!! a ≠ [].
Proof.
  induction M as [|m M IH]; [unfold live; simpl; lia|].
  rewrite live_cons. unfold occupied. case_decide.
  - intros _. exists 0%nat. simpl. split; [lia|done].
  - intros H'. destruct IH as (a & ? & ?); [lia|].
    exists (S a). simpl. split; [lia|done].
Qed.

Lemma live_two (M : partition) :
  (1 < live M)%nat →
  ∃ a b, (a < b < length M)%nat ∧ M !!! a ≠ [] ∧ M !!! b ≠ [].
Proof.
  induction M as [|m M IH]; [unfold live; simpl; lia|].
  rewrite live_cons. unfold occupied. case_decide.
  - intros H'. destruct (live_occupied M) as (b & ? & ?); [lia|].
    exists 0%nat, (S b). simpl. split_and!; [lia|lia|done|done].
  - intros H'. destruct IH as (a & b & ? & ? & ?); [lia|].
    exists (S a), (S b). simpl. split_and!; [lia|lia|done|done].
Qed.

Section Selected.

Variable N : nat.
Variable dist : list Qc.
Hypothesis dist_nonneg : Forall (λ d, (zero ≤ d)%Qc) dist.
Variable M : partition.
Hypothesis M_length : length M = N.

(** The pair a scan retains is a pair of occupied slots, and the value
    retained with it is the maximum over that pair alone: every pair
    [(ci, b)] with [b < cj] had no candidate value. *)
Lemma best_of_selected (m : Qc) (ci cj : nat) :
  best_of N dist M (λ a b, (a < b < N)%nat) m (Z.of_nat ci, Z.of_nat cj) →
  (ci < cj < N)%nat ∧ M !!! ci ≠ [] ∧ M !!! cj ≠ []
  ∧ m = acc N dist M ci cj minus_one ∧ (zero ≤ m)%Qc
  ∧ m = val N dist M ci cj.
Proof.
  intros [(? & _)|(ci' & cj' & E & HP & -> & Hm & H)]; [simplify_eq; lia|].
  assert (ci' = ci ∧ cj' = cj) as [-> ->] by (simplify_eq; lia). clear E.
  destruct cj as [|j]; [lia|].
  assert (val N dist M ci j = minus_one) as Hprev.
  { destruct (decide (j ≤ ci)%nat) as [|Hgt]; [by apply val_start|].
    destruct (H ci j) as [|[_ Hlt]]; [lia|done|].
    pose proof (val_mono N dist M ci j ltac:(lia)).
    specialize (Hlt ltac:(unfold before; lia)). qc_order. }
  assert (val N dist M ci (S j) = acc N dist M ci (S j) minus_one) as Hacc.
  { rewrite val_S by lia. by rewrite Hprev. }
  assert (link N dist M ci (S j) ≠ []) as Hlink.
  { intros Hnil. unfold acc in Hacc. rewrite Hnil in Hacc. simpl in Hacc.
    rewrite Hacc in Hm. qc_order. }
  rewrite link_nil in Hlink.
  split_and!; [lia|lia|tauto|tauto|done|done|done].
Qed.

(** With two occupied slots the scan retains a pair. *)
Lemma best_of_found (m : Qc) (cp : Z * Z) :
  best_of N dist M (λ a b, (a < b < N)%nat) m cp → (1 < live M)%nat →
  ∃ ci cj : nat, cp = (Z.of_nat ci, Z.of_nat cj).
Proof.
  intros [(_ & _ & H)|(ci & cj & -> & _)] Hlive; [|by exists ci, cj].
  destruct (live_two M Hlive) as (a & b & Hab & Ha & Hb).
  pose proof (val_nonneg N dist dist_nonneg M a b ltac:(lia) Ha Hb) as Hv.
  rewrite H in Hv by lia. qc_order.
Qed.

End Selected.

(** ** The output vector, on partitions *)

(** Line 208 for the members [m] of slot [c]. *)
Definition paint (out : list (option Z)) (c : nat) (m : list nat)
    : list (option Z) :=
  foldl (λ o e, <[e := Some (Z.of_nat c + 1)]> o) out m.

Definition out_upto (N : nat) (M : partition) (k : nat) : list (option Z) :=
  foldl (λ out c, paint out c (M !!! c)) (replicate N None) (seq 0 k).

Definition out_of (N : nat) (M : partition) : list (option Z) :=
  out_upto N M N.

Lemma length_paint (out : list (option Z)) (c : nat) (m : list nat) :
  length (paint out c m) = length out.
Proof.
  revert out. induction m as [|e m IH]; intros out; [done|].
  unfold paint in *. simpl. by rewrite IH, length_insert.
Qed.

Lemma paint_lookup_ne (out : list (option Z)) (c : nat) (m : list nat) (e : nat) :
  e ∉ m → paint out c m !! e = out !! e.
Proof.
  revert out. induction m as [|x m IH]; intros out He; [done|].
  apply not_elem_of_cons in He as [Hne He].
  unfold paint in *. simpl. rewrite IH by done.
  by apply list_lookup_insert_ne.
Qed.

Lemma paint_lookup (out : list (option Z)) (c : nat) (m : list nat) (e : nat) :
  e ∈ m → (e < length out)%nat →
  paint out c m !! e = Some (Some (Z.of_nat c + 1)).
Proof.
  revert out. induction m as [|x m IH]; intros out He Hl;
    [by apply elem_of_nil in He|].
  change (paint out c (x :: m))
    with (paint (<[x := Some (Z.of_nat c + 1)]> out) c m).
  destruct (decide (e ∈ m)) as [Hin|Hnin].
  - apply IH; [done|]. by rewrite length_insert.
  - rewrite paint_lookup_ne by done.
    apply elem_of_cons in He as [->|]; [|done].
    by apply list_lookup_insert_eq.
Qed.

Lemma out_upto_S (N : nat) (M : partition) (k : nat) :
  out_upto N M (S k) = paint (out_upto N M k) k (M !!! k).
Proof. unfold out_upto. by rewrite seq_S, foldl_app. Qed.

Lemma length_out_upto (N : nat) (M : partition) (k : nat) :
  length (out_upto N M k) = N.
Proof.
  induction k as [|k IH]; [apply length_replicate|].
  by rewrite out_upto_S, length_paint.
Qed.

Lemma Qcltb_half_nat (e : nat) :
  Qcltb minus_half (Qc_of_Z (Z.of_nat e)) = true.
Proof.
  apply Qcltb_lt. unfold Qclt, Qlt, minus_half, Qc_of_Z. simpl. lia.
Qed.

Section Output.

Variable N : nat.
Variable M : partition.
Hypothesis M_wf : wf N M.

Local Abbreviation n := (Z.of_nat N).
Local Abbreviation cm := (row_of N <$> M).

Lemma fill_row_paint (c : nat) (m : list nat) (out : list (option Z)) :
  M !! c = Some m → length out = N →
  fill_row n cm (Z.of_nat c) out = Ok (paint out c m).
Proof.
  intros Hc Hl. unfold fill_row. rewrite Nat2Z.id.
  rewrite (for_row N cm c (λ v, Qcltb minus_half (Qc_of_Z v))
             (λ v rout, store rout v (Some (Z.of_nat c + 1))) m).
  - apply (foldM_inv (λ o, length o = N)); [done|].
    intros e o He Ho. split; [|by rewrite length_insert].
    apply store_insert.
    pose proof (wf_upto_elem _ _ _ _ _ _ M_wf Hc He). lia.
  - by rewrite list_lookup_fmap, Hc.
  - by apply (wf_upto_length N N M c m).
  - apply Qcltb_half_nat.
  - done.
Qed.

Lemma fill_output_out_of : fill_output n cm = Ok (out_of N M).
Proof.
  unfold fill_output, num_mlgs. rewrite Nat2Z.id.
  change 0 with (Z.of_nat 0).
  destruct (for_loop_inv (λ k out, out = out_upto N M k)
    (fill_row n cm) N 0 (replicate N None)) as (out & E & ->); [done| |done].
  intros k out Hk ->.
  destruct M_wf as [HL _].
  destruct (lookup_lt_is_Some_2 M k) as [m Hm]; [lia|].
  exists (paint (out_upto N M k) k m). split.
  - apply fill_row_paint; [done|apply length_out_upto].
  - by rewrite out_upto_S, (list_lookup_total_correct _ _ _ Hm).
Qed.

Lemma out_upto_lookup (k c : nat) (m : list nat) (e : nat) :
  (c < k ≤ N)%nat → M !! c = Some m → e ∈ m →
  out_upto N M k !! e = Some (Some (Z.of_nat c + 1)).
Proof.
  intros Hck Hc He.
  pose proof (wf_upto_elem _ _ _ _ _ _ M_wf Hc He) as HeN.
  induction k as [|k IH]; [lia|].
  rewrite out_upto_S.
  destruct (decide (c = k)) as [->|Hne].
  - rewrite (list_lookup_total_correct _ _ _ Hc).
    apply paint_lookup; [done|]. by rewrite length_out_upto.
  - rewrite paint_lookup_ne; [apply IH; lia|].
    intros Hin. apply Hne.
    destruct (lookup_lt_is_Some_2 M k) as [mk Hmk]; [destruct M_wf; lia|].
    rewrite (list_lookup_total_correct _ _ _ Hmk) in Hin.
    by apply (wf_upto_unique N N M c k m mk e).
Qed.

(** Every individual gets the number of its slot, plus one. *)
Lemma out_of_lookup (c : nat) (m : list nat) (e : nat) :
  M !! c = Some m → e ∈ m →
  out_of N M !! e = Some (Some (Z.of_nat c + 1)).
Proof.
  intros Hc He. apply (out_upto_lookup N c m e); [|done|done].
  destruct M_wf as [HL _]. pose proof (lookup_lt_Some _ _ _ Hc). lia.
Qed.

Lemma length_out_of : length (out_of N M) = N.
Proof. apply length_out_upto. Qed.

End Output.

(** ** Valid inputs *)

(** What the function assumes of its arguments: [N] labels in [1 .. N], an
    [N] by [N] matrix of non-negative entries, and a matrix small enough
    for its flat index to be an [int]. *)
Record valid_input (N : nat) (dist : list Qc) (labels : list Z) : Prop := {
  valid_labels_length : length labels = N;
  valid_dist_length : length dist = (N * N)%nat;
  valid_index : Z.of_nat (N * N) ≤ INT_MAX;
  valid_labels : Forall (λ l, 1 ≤ l ≤ Z.of_nat N) labels;
  valid_dist : Forall (λ d, (zero ≤ d)%Qc) dist
}.

Definition check_input (N : nat) (dist : list Qc) (labels : list Z) : bool :=
  (length labels =? N)%nat && (length dist =? N * N)%nat
  && (Z.of_nat (N * N) <=? INT_MAX)
  && forallb (λ l, (1 <=? l) && (l <=? Z.of_nat N)) labels
  && forallb (λ d, negb (Qcltb d zero)) dist.

Lemma check_input_valid (N : nat) (dist : list Qc) (labels : list Z) :
  check_input N dist labels = true → valid_input N dist labels.
Proof.
  unfold check_input. rewrite !andb_true_iff.
  intros ((((H1 & H2) & H3) & H4) & H5).
  split.
  - by apply Nat.eqb_eq.
  - by apply Nat.eqb_eq.
  - by apply Z.leb_le.
  - apply Forall_forall. intros l Hl.
    rewrite forallb_forall in H4. specialize (H4 l).
    rewrite andb_true_iff, !Z.leb_le in H4. apply H4.
    by apply list_elem_of_In.
  - apply Forall_forall. intros d Hd.
    rewrite forallb_forall in H5. specialize (H5 d).
    rewrite negb_true_iff, Qcltb_ge in H5. apply H5.
    by apply list_elem_of_In.
Qed.

Lemma valid_N_fits (N : nat) (dist : list Qc) (labels : list Z) :
  valid_input N dist labels → Z.of_nat N ≤ INT_MAX.
Proof. intros [_ _ H _ _]. nia. Qed.

(** ** One pass of the main loop, on partitions *)

Section Run.

Variable N : nat.
Variable dist : list Qc.
Variable thresh : Qc.

Local Abbreviation n := (Z.of_nat N).

(** The pairs the loop merges: two occupied slots whose farthest members
    are closer than the threshold. *)
Definition mergeable (M : partition) (ci cj : nat) : Prop :=
  (ci < cj < N)%nat ∧ M !!! ci ≠ [] ∧ M !!! cj ≠ []
  ∧ (acc N dist M ci cj minus_one < thresh)%Qc.

Lemma loop_cond_encode (m : Qc) (M : partition) :
  loop_cond thresh (m, encode N M)
  = Ok (Qcltb m thresh && bool_decide (1 < live M)%nat).
Proof.
  unfold loop_cond. simpl. do 2 f_equal.
  case_bool_decide; [apply Z.ltb_lt|apply Z.ltb_ge]; lia.
Qed.

(** One pass on partitions: the scan retains [(ci, cj)] with the value
    [m], and the partition changes only if [m] is below the threshold. *)
Definition pstep (M : partition) (m : Qc) (M' : partition) : Prop :=
  ∃ ci cj : nat,
    scan n dist (row_of N <$> M) = Ok (m, (Z.of_nat ci, Z.of_nat cj))
    ∧ best_of N dist M (λ a b, (a < b < N)%nat) m (Z.of_nat ci, Z.of_nat cj)
    ∧ (ci < cj < N)%nat ∧ M !!! ci ≠ [] ∧ M !!! cj ≠ []
    ∧ m = acc N dist M ci cj minus_one
    ∧ M' = if Qcltb m thresh then pmerge M ci cj else M.

(** States that store a well-formed partition, with [P] of the retained
    minimum and the partition. *)
Definition stores (P : Qc → partition → Prop) (s : Qc * state) : Prop :=
  ∃ M, s.2 = encode N M ∧ wf N M ∧ P s.1 M.

(** [P] survives every pass of the loop. *)
Definition step_invariant (P : Qc → partition → Prop) : Prop :=
  ∀ m0 M m M', wf N M → P m0 M → pstep M m M' → P m M'.

(** [P] survives every merge the loop can make. *)
Definition merge_invariant (P : partition → Prop) : Prop :=
  ∀ M ci cj, wf N M → P M → mergeable M ci cj → P (pmerge M ci cj).

Lemma merge_step_invariant (P : partition → Prop) :
  merge_invariant P → step_invariant (λ _, P).
Proof.
  intros HP m0 M m M' Hwf HPM (ci & cj & _ & _ & Hlt & Hi & Hj & Hm & ->).
  destruct (Qcltb m thresh) eqn:E; [|done].
  apply HP; [done|done|]. split_and!; try done; try lia.
  rewrite <- Hm. by apply Qcltb_lt.
Qed.

Lemma pstep_wf (M : partition) (m : Qc) (M' : partition) :
  wf N M → pstep M m M' → wf N M'.
Proof.
  intros Hwf (ci & cj & _ & _ & Hlt & _ & _ & _ & ->).
  destruct (Qcltb m thresh); [|done]. apply wf_pmerge; [done|lia..].
Qed.

Lemma pstep_live (M : partition) (m : Qc) (M' : partition) :
  wf N M → pstep M m M' →
  if Qcltb m thresh then Z.of_nat (live M') = Z.of_nat (live M) - 1
  else M' = M.
Proof.
  intros [HL _] (ci & cj & _ & _ & Hlt & Hi & Hj & _ & ->).
  destruct (Qcltb m thresh); [|done].
  destruct (lookup_lt_is_Some_2 M ci) as [mi Hmi]; [lia|].
  destruct (lookup_lt_is_Some_2 M cj) as [mj Hmj]; [lia|].
  rewrite (list_lookup_total_correct _ _ _ Hmi) in Hi.
  rewrite (list_lookup_total_correct _ _ _ Hmj) in Hj.
  apply (live_pmerge M ci cj mi mj); [lia|done..].
Qed.

Hypothesis dist_length : length dist = (N * N)%nat.
Hypothesis index_fits : Z.of_nat (N * N) ≤ INT_MAX.
Hypothesis dist_nonneg : Forall (λ d, (zero ≤ d)%Qc) dist.

Lemma loop_body_step (m0 : Qc) (M : partition) :
  wf N M → (1 < live M)%nat →
  ∃ (m : Qc) (ci cj : nat),
    scan n dist (row_of N <$> M) = Ok (m, (Z.of_nat ci, Z.of_nat cj))
    ∧ best_of N dist M (λ a b, (a < b < N)%nat) m (Z.of_nat ci, Z.of_nat cj)
    ∧ (ci < cj < N)%nat ∧ M !!! ci ≠ [] ∧ M !!! cj ≠ []
    ∧ m = acc N dist M ci cj minus_one
    ∧ loop_body n dist thresh (m0, encode N M)
      = Ok (m, encode N (if Qcltb m thresh then pmerge M ci cj else M)).
Proof.
  intros Hwf Hlive.
  pose proof (scan_a_scan N dist dist_length index_fits M Hwf) as Hscan.
  pose proof (a_scan_best N dist dist_nonneg M) as Hbest.
  set (v := a_scan N dist M) in *.
  destruct (best_of_found N dist dist_nonneg M (proj1 Hwf) _ _ Hbest Hlive)
    as (ci & cj & Hcp).
  rewrite Hcp in Hscan, Hbest.
  destruct (best_of_selected N dist M (proj1 Hwf) _ ci cj Hbest)
    as (Hlt & Hi & Hj & Hm & _).
  exists (min_cluster_distance v), ci, cj.
  split_and!; try done; try lia.
  unfold loop_body. cbn [snd].
  change (cluster_matrix (encode N M)) with (row_of N <$> M).
  rewrite Hscan, Ok_bind.
  destruct (Qcltb _ thresh); [|done].
  destruct Hwf as [HL HP].
  destruct (lookup_lt_is_Some_2 M ci) as [mi Hmi]; [lia|].
  destruct (lookup_lt_is_Some_2 M cj) as [mj Hmj]; [lia|].
  rewrite (list_lookup_total_correct _ _ _ Hmi) in Hi.
  rewrite (list_lookup_total_correct _ _ _ Hmj) in Hj.
  rewrite (merge_pmerge N M ci cj mi mj (conj HL HP)); [done|lia|done..].
Qed.

Lemma loop_body_pstep (m0 : Qc) (M : partition) :
  wf N M → loop_cond thresh (m0, encode N M) = Ok true →
  ∃ m M', loop_body n dist thresh (m0, encode N M) = Ok (m, encode N M')
          ∧ pstep M m M'.
Proof.
  intros Hwf Hcond. rewrite loop_cond_encode in Hcond.
  injection Hcond as Hcond. apply andb_true_iff in Hcond as [_ Hlive].
  apply bool_decide_eq_true in Hlive.
  destruct (loop_body_step m0 M Hwf Hlive)
    as (m & ci & cj & Hscan & Hbest & Hlt & Hi & Hj & Hm & Hbody).
  exists m, (if Qcltb m thresh then pmerge M ci cj else M).
  split; [done|]. by exists ci, cj.
Qed.

Lemma loop_body_stores (P : Qc → partition → Prop) (s : Qc * state) :
  step_invariant P → stores P s → loop_cond thresh s = Ok true →
  ∃ s', loop_body n dist thresh s = Ok s' ∧ stores P s'
        ∧ (num_clusters s'.2 = num_clusters s.2 - 1
           ∨ loop_cond thresh s' = Ok false).
Proof.
  intros HP (M & HM & Hwf & HPM) Hcond. destruct s as [m0 st].
  simpl in HM. subst st.
  destruct (loop_body_pstep m0 M Hwf Hcond) as (m & M' & Hbody & Hstep).
  exists (m, encode N M'). split; [done|]. split.
  - exists M'. split_and!; [done|by eapply pstep_wf|by eapply HP].
  - pose proof (pstep_live M m M' Hwf Hstep) as Hl.
    destruct (Qcltb m thresh) eqn:E; [by left|right].
    rewrite loop_cond_encode. by rewrite E.
Qed.

Lemma iterates_stores (P : Qc → partition → Prop) (s s' : Qc * state) :
  step_invariant P → stores P s →
  iterates (loop_cond thresh) (loop_body n dist thresh) s s' → stores P s'.
Proof.
  intros HP Hs Hit. induction Hit as [|s s1 s2 Hc Hb _ IH]; [done|].
  destruct (loop_body_stores P s HP Hs Hc) as (s1' & Hb' & Hs1 & _).
  rewrite Hb in Hb'. injection Hb' as <-. by apply IH.
Qed.

(** The main loop returns: [num_clusters] passes are enough. *)
Lemma while_loop_returns (P : Qc → partition → Prop) (fuel : nat)
    (s : Qc * state) :
  step_invariant P → stores P s → num_clusters s.2 ≤ Z.of_nat fuel →
  ∃ s', while_loop fuel (loop_cond thresh) (loop_body n dist thresh) s = Ok s'.
Proof.
  intros HP. revert s. induction fuel as [|f IH]; intros s Hs Hf.
  - rewrite while_loop_O.
    destruct Hs as (M & HM & _). destruct s as [m st]. simpl in HM. subst st.
    rewrite loop_cond_encode, Ok_bind.
    rewrite (bool_decide_eq_false_2 (1 < live M)%nat) by (simpl in Hf; lia).
    rewrite andb_false_r. by eexists.
  - rewrite while_loop_S.
    destruct (loop_cond thresh s) as [[]|] eqn:Hc; [| |done].
    + destruct (loop_body_stores P s HP Hs Hc) as (s1 & Hb & Hs1 & Hstep).
      rewrite Ok_bind, Hb, Ok_bind.
      destruct Hstep as [Hdec|Hstop].
      * apply IH; [done|lia].
      * destruct f as [|f']; [rewrite while_loop_O|rewrite while_loop_S];
          rewrite Hstop, Ok_bind; by eexists.
    + rewrite Ok_bind. by eexists.
Qed.

(** The main loop from a well-formed partition: it returns, in a state
    that stores a well-formed partition, with its condition false. *)
Lemma main_loop_stores (P : Qc → partition → Prop) (M0 : partition) :
  step_invariant P → wf N M0 → P minus_one M0 →
  ∃ m M,
    main_loop n dist thresh (encode N M0) = Ok (m, encode N M)
    ∧ iterates (loop_cond thresh) (loop_body n dist thresh)
        (minus_one, encode N M0) (m, encode N M)
    ∧ loop_cond thresh (m, encode N M) = Ok false
    ∧ wf N M ∧ P m M.
Proof.
  intros HP Hwf HP0.
  assert (stores P (minus_one, encode N M0)) as Hs0 by (by exists M0).
  unfold main_loop.
  destruct (while_loop_returns P (Z.to_nat (num_clusters (encode N M0)))
              (minus_one, encode N M0) HP Hs0) as ([m st] & Hw);
    [simpl; lia|].
  destruct (while_loop_iterates _ _ _ _ _ Hw) as [Hit Hc].
  destruct (iterates_stores P _ _ HP Hs0 Hit) as (M & HM & HwfM & HPM).
  simpl in HM. subst st. by exists m, M.
Qed.

End Run.

(** ** Invariants of the run *)

(** The number of a slot, plus one, is the least label of its members. *)
Definition lowest_label (labels : list Z) (M : partition) : Prop :=
  ∀ c m, M !! c = Some m →
    (∀ e, e ∈ m → Z.of_nat c + 1 ≤ labels !!! e)
    ∧ (m ≠ [] → ∃ e, e ∈ m ∧ labels !!! e = Z.of_nat c + 1).

Lemma pmerge_lookup (M : partition) (ci cj c : nat) :
  ci ≠ cj → (ci < length M)%nat → (cj < length M)%nat →
  pmerge M ci cj !!! c
  = if decide (c = cj) then []
    else if decide (c = ci) then M !!! ci ++ M !!! cj else M !!! c.
Proof.
  intros Hne Hi Hj. unfold pmerge.
  destruct (decide (c = cj)) as [->|Hcj].
  - by rewrite list_lookup_total_insert_eq by (by rewrite length_insert).
  - rewrite list_lookup_total_insert_ne by done.
    destruct (decide (c = ci)) as [->|Hci].
    + by rewrite list_lookup_total_insert_eq.
    + by rewrite list_lookup_total_insert_ne.
Qed.

Lemma lookup_total_Some (M : partition) (c : nat) (m : list nat) :
  M !! c = Some m → M !!! c = m.
Proof. apply list_lookup_total_correct. Qed.

Lemma lookup_total_lt (M : partition) (c : nat) :
  (c < length M)%nat → M !! c = Some (M !!! c).
Proof.
  intros H. destruct (lookup_lt_is_Some_2 M c H) as [m Hm].
  by rewrite (list_lookup_total_correct _ _ _ Hm).
Qed.

Section Invariants.

Variable N : nat.
Variable dist : list Qc.
Variable thresh : Qc.

Lemma lowest_label_merge (labels : list Z) :
  merge_invariant N dist thresh (lowest_label labels).
Proof.
  intros M ci cj [HL _] HP (Hlt & Hi & Hj & _) c m Hc.
  assert (c < N)%nat as HcN.
  { apply lookup_lt_Some in Hc. unfold pmerge in Hc.
    rewrite !length_insert in Hc. lia. }
  apply lookup_total_Some in Hc.
  rewrite pmerge_lookup in Hc by lia.
  destruct (HP ci (M !!! ci)) as [Hci1 Hci2]; [apply lookup_total_lt; lia|].
  destruct (HP cj (M !!! cj)) as [Hcj1 _]; [apply lookup_total_lt; lia|].
  destruct (decide (c = cj)) as [->|?]; [subst m; split; [|done]|].
  { by intros e ?%elem_of_nil. }
  destruct (decide (c = ci)) as [->|?].
  - subst m. split.
    + intros e [He|He]%elem_of_app; [by apply Hci1|].
      specialize (Hcj1 e He). lia.
    + intros _. destruct (Hci2 Hi) as (e & He & Hl).
      exists e. split; [|done]. apply elem_of_app. by left.
  - apply HP. subst m. apply lookup_total_lt. lia.
Qed.

(** A slot that is empty stays empty. *)
Lemma empty_slot_merge (c : nat) :
  merge_invariant N dist thresh (λ M, M !!! c = []).
Proof.
  intros M ci cj [HL _] HP (Hlt & Hi & Hj & _).
  rewrite pmerge_lookup by lia.
  destruct (decide (c = cj)); [done|].
  destruct (decide (c = ci)) as [->|]; [done|done].
Qed.

End Invariants.

Section Initial.

Variable N : nat.
Variable labels : list Z.
Hypothesis labels_length : length labels = N.
Hypothesis labels_range : Forall (λ l, 1 ≤ l ≤ Z.of_nat N) labels.

(** Slot [c] of the initial partition holds the individuals whose label is
    [c + 1]. *)
Lemma initial_elem (c e : nat) :
  (c < N)%nat →
  e ∈ initial N labels !!! c ↔ (e < N)%nat ∧ labels !!! e = Z.of_nat c + 1.
Proof.
  intros Hc. unfold initial.
  assert (∀ k, e ∈ initial_upto N labels k !!! c
               ↔ (e < k)%nat ∧ slot_of_label (labels !!! e) = c) as H.
  { induction k as [|k IH].
    - unfold initial_upto. simpl.
      rewrite (list_lookup_total_correct _ c []) by (by apply lookup_replicate_2).
      split; [by intros ?%elem_of_nil|lia].
    - rewrite initial_upto_S. unfold place.
      pose proof (initial_upto_length N labels k) as HL.
      destruct (decide (slot_of_label (labels !!! k) = c)) as [Heq|Hne].
      + rewrite Heq, list_lookup_total_insert_eq by lia.
        rewrite elem_of_app, IH, list_elem_of_singleton.
        split; [intros [[? ?]| ->]; split; (lia || done)|].
        intros [? ?]. destruct (decide (e = k)); [by right|left; split; [lia|done]].
      + rewrite list_lookup_total_insert_ne by done. rewrite IH.
        split; [intros [? ?]; split; [lia|done]|].
        intros [? ?]. split; [|done]. destruct (decide (e = k)); [by subst|lia]. }
  rewrite H. split; intros [He Hl]; (split; [done|]).
  - destruct (lookup_lt_is_Some_2 labels e) as [l Hl']; [lia|].
    pose proof (Forall_lookup_1 _ _ _ _ labels_range Hl') as Hr.
    rewrite (list_lookup_total_correct _ _ _ Hl') in *.
    unfold slot_of_label in Hl. simpl in Hr. lia.
  - unfold slot_of_label. lia.
Qed.

Lemma initial_lowest_label : lowest_label labels (initial N labels).
Proof.
  intros c m Hc.
  assert (c < N)%nat as HcN.
  { apply lookup_lt_Some in Hc. unfold initial in Hc.
    by rewrite initial_upto_length in Hc. }
  apply lookup_total_Some in Hc. subst m. split.
  - intros e He. apply initial_elem in He as [_ ->]; [lia|done].
  - intros Hne. destruct (initial N labels !!! c) as [|e m] eqn:E; [done|].
    exists e. split; [by left|].
    assert (e ∈ initial N labels !!! c) as He by (rewrite E; by left).
    by apply initial_elem in He as [_ ->].
Qed.

End Initial.

(** ** The whole function, on partitions *)

(** The labels written for a partition. *)
Definition labelling (N : nat) (M : partition) : list Z :=
  default 0 <$> out_of N M.

Lemma length_labelling (N : nat) (M : partition) : length (labelling N M) = N.
Proof. unfold labelling, out_of. by rewrite length_fmap, length_out_upto. Qed.

Lemma labelling_lookup (N : nat) (M : partition) (c : nat) (m : list nat) (e : nat) :
  wf N M → M !! c = Some m → e ∈ m →
  labelling N M !! e = Some (Z.of_nat c + 1).
Proof.
  intros Hwf Hc He. unfold labelling.
  by rewrite list_lookup_fmap, (out_of_lookup N M Hwf c m e Hc He).
Qed.

(** Every cell of the output vector is written. *)
Lemma out_of_labelling (N : nat) (M : partition) :
  wf N M → out_of N M = Some <$> labelling N M.
Proof.
  intros Hwf. apply list_eq. intros e.
  rewrite list_lookup_fmap.
  destruct (decide (e < N)%nat) as [He|He].
  - destruct (wf_elem_slot N M e Hwf He) as (c & m & Hc & Hm).
    by rewrite (labelling_lookup N M c m e), (out_of_lookup N M Hwf c m e).
  - rewrite !lookup_ge_None_2; [done| |];
      rewrite ?length_labelling, ?length_out_of; lia.
Qed.

Lemma labelling_slot (N : nat) (M : partition) (e : nat) (l : Z) :
  wf N M → labelling N M !! e = Some l →
  ∃ c m, M !! c = Some m ∧ e ∈ m ∧ l = Z.of_nat c + 1 ∧ (c < N)%nat.
Proof.
  intros Hwf Hl.
  assert (e < N)%nat as He.
  { apply lookup_lt_Some in Hl. by rewrite length_labelling in Hl. }
  destruct (wf_elem_slot N M e Hwf He) as (c & m & Hc & Hm).
  rewrite (labelling_lookup N M c m e Hwf Hc Hm) in Hl.
  exists c, m. split_and!; [done|done|congruence|].
  destruct Hwf as [<- _]. by eapply lookup_lt_Some.
Qed.

Lemma labelling_range (N : nat) (M : partition) :
  wf N M → Forall (λ l, 1 ≤ l ≤ Z.of_nat N) (labelling N M).
Proof.
  intros Hwf. apply Forall_lookup. intros e l Hl.
  destruct (labelling_slot N M e l Hwf Hl) as (c & m & _ & _ & -> & ?). lia.
Qed.

Section Top.

Variable N : nat.
Variable dist : list Qc.
Variable thresh : Qc.
Variable labels : list Z.
Hypothesis input_valid : valid_input N dist labels.

Local Abbreviation n := (Z.of_nat N).

Lemma farthest_neighbor_run (P : Qc → partition → Prop) :
  step_invariant N dist thresh P → P minus_one (initial N labels) →
  ∃ m M,
    fill_clusters n (label_vector labels) = Ok (encode N (initial N labels))
    ∧ main_loop n dist thresh (encode N (initial N labels))
      = Ok (m, encode N M)
    ∧ iterates (loop_cond thresh) (loop_body n dist thresh)
        (minus_one, encode N (initial N labels)) (m, encode N M)
    ∧ loop_cond thresh (m, encode N M) = Ok false
    ∧ wf N (initial N labels) ∧ wf N M ∧ P m M
    ∧ farthest_neighbor n dist thresh (label_vector labels)
      = Ok (Some <$> labelling N M).
Proof.
  intros HP HP0. pose proof (valid_N_fits _ _ _ input_valid) as HN.
  destruct input_valid as [Hll Hdl Hidx Hlr Hdn].
  destruct (fill_clusters_initial N labels Hll Hlr HN) as [Hfill Hwf0].
  destruct (main_loop_stores N dist thresh Hdl Hidx Hdn P _ HP Hwf0 HP0)
    as (m & M & Hloop & Hit & Hc & Hwf & HPM).
  exists m, M. split_and!; try done.
  unfold farthest_neighbor. rewrite Hfill, Ok_bind, Hloop, Ok_bind.
  cbn [snd]. change (cluster_matrix (encode N M)) with (row_of N <$> M).
  by rewrite fill_output_out_of, out_of_labelling.
Qed.

End Top.

(** ** Reading partitions off states *)

(** Every individual is in exactly one slot, once. *)
Definition partitioned (n : Z) (st : state) : Prop :=
  (∀ c, 0 ≤ c < n →
     NoDup (members st c) ∧ ∀ e, e ∈ members st c → 0 ≤ e < n)
  ∧ (∀ e, 0 ≤ e < n →
       ∃ c, 0 ≤ c < n ∧ e ∈ members st c
            ∧ ∀ c', 0 ≤ c' < n → e ∈ members st c' → c' = c).

Lemma members_encode_Z (N : nat) (M : partition) (c : Z) :
  length M = N → 0 ≤ c < Z.of_nat N →
  members (encode N M) c = Z.of_nat <$> M !!! Z.to_nat c.
Proof.
  intros HL Hc.
  rewrite <- (Z2Nat.id c) at 1 by lia.
  apply members_encode, lookup_total_lt. lia.
Qed.

Lemma elem_of_members (N : nat) (M : partition) (c e : Z) :
  length M = N → 0 ≤ c < Z.of_nat N →
  e ∈ members (encode N M) c ↔ 0 ≤ e ∧ Z.to_nat e ∈ M !!! Z.to_nat c.
Proof.
  intros HL Hc. rewrite members_encode_Z, list_elem_of_fmap by done. split.
  - intros (x & -> & Hx). split; [lia|]. by rewrite Nat2Z.id.
  - intros [He Hx]. exists (Z.to_nat e). split; [lia|done].
Qed.

Lemma members_nil (N : nat) (M : partition) (c : Z) :
  length M = N → 0 ≤ c < Z.of_nat N →
  members (encode N M) c = [] ↔ M !!! Z.to_nat c = [].
Proof.
  intros HL Hc. rewrite members_encode_Z by done.
  split; [apply fmap_nil_inv|by intros ->].
Qed.

Lemma encode_partitioned (N : nat) (M : partition) :
  wf N M → partitioned (Z.of_nat N) (encode N M).
Proof.
  intros Hwf. pose proof Hwf as [HL _]. split.
  - intros c Hc. rewrite members_encode_Z by done.
    pose proof (lookup_total_lt M (Z.to_nat c) ltac:(lia)) as Hm.
    split.
    + apply (NoDup_fmap_2 _). by apply (wf_upto_NoDup N N M (Z.to_nat c)).
    + intros e (x & -> & Hx)%list_elem_of_fmap.
      pose proof (wf_upto_elem N N M _ _ x Hwf Hm Hx). lia.
  - intros e He.
    destruct (wf_elem_slot N M (Z.to_nat e) Hwf ltac:(lia)) as (c & m & Hc & Hm).
    pose proof (lookup_lt_Some _ _ _ Hc) as HcN.
    exists (Z.of_nat c). split_and!; [lia|lia| |].
    + apply (elem_of_members N); [done|lia|]. split; [lia|].
      by rewrite Nat2Z.id, (lookup_total_Some _ _ _ Hc).
    + intros c' Hc' [_ Hin]%(elem_of_members N); [|done|done].
      pose proof (lookup_total_lt M (Z.to_nat c') ltac:(lia)) as Hm'.
      pose proof (wf_upto_unique N N M _ _ _ _ _ Hwf Hm' Hc Hin Hm). lia.
Qed.

(** ** Complete linkage, as the specification words it *)

(** [DistanceMatrix[u][v]], read where the function reads it. *)
Definition entry (n : Z) (dist : list Qc) (u v : Z) : Qc :=
  default zero (dist !! Z.to_nat (u * n + v)).

Definition max_list (l : list Qc) : option Qc :=
  foldr (λ d o, Some (match o with
                      | None => d
                      | Some x => if Qcltb x d then d else x
                      end)) None l.

(** The maximum of [DistanceMatrix[u][v]] over the members [u] of slot [a]
    and [v] of slot [b]; [None] when one of the slots is empty. *)
Definition complete_linkage (n : Z) (dist : list Qc) (st : state) (a b : Z)
    : option Qc :=
  max_list (u ← members st a; entry n dist u <$> members st b).

(** The value of [tmp_max] when the function checks the pair [(i, j)] at
    line 174: the inner loops have run for [i + 1 .. j] since the reset at
    line 151. *)
Definition compared (n : Z) (dist : list Qc) (cm : list (list Z)) (i j : Z)
    : result Qc :=
  for_loop (Z.to_nat (j - i)) (i + 1) always (k_loop n dist cm i) minus_one.

Lemma max_list_spec (l : list Qc) (x : Qc) :
  max_list l = Some x → x ∈ l ∧ ∀ d, d ∈ l → (d ≤ x)%Qc.
Proof.
  revert x. induction l as [|d l IH]; intros x; [done|]. simpl.
  destruct (max_list l) as [y|] eqn:E.
  - destruct (IH y eq_refl) as [Hy Hmax].
    destruct (Qcltb y d) eqn:Hyd; intros [= <-].
    + split; [by left|]. intros d' [->|Hd']%elem_of_cons; [apply Qcle_refl|].
      specialize (Hmax d' Hd'). qc_order.
    + split; [by right|]. intros d' [->|Hd']%elem_of_cons; [qc_order|].
      by apply Hmax.
  - intros [= <-]. destruct l; [|done].
    split; [by left|]. intros d' [->|Hd']%elem_of_cons; [apply Qcle_refl|].
    by apply elem_of_nil in Hd'.
Qed.

Lemma max_list_is_Some (l : list Qc) : l ≠ [] → is_Some (max_list l).
Proof. destruct l; [done|]. intros _. simpl. by eexists. Qed.

(** On a non-empty list of entries above [-1], the running maximum that
    starts from [-1] is the maximum. *)
Lemma max_list_foldl (l : list Qc) :
  l ≠ [] → (∀ d, d ∈ l → (minus_one ≤ d)%Qc) →
  max_list l = Some (foldl upd minus_one l).
Proof.
  intros Hne Hge. destruct (max_list_is_Some l Hne) as [x Hx].
  rewrite Hx. f_equal.
  destruct (max_list_spec l x Hx) as [Hin Hmax].
  apply Qcle_antisym.
  - by apply foldl_upd_elem.
  - destruct (foldl_upd_in minus_one l) as [->|Hy]; [by apply Hge|by apply Hmax].
Qed.

Lemma entry_D (N : nat) (dist : list Qc) (u v : nat) :
  entry (Z.of_nat N) dist (Z.of_nat u) (Z.of_nat v) = D N dist u v.
Proof.
  unfold entry, D. by replace (Z.to_nat (Z.of_nat u * Z.of_nat N + Z.of_nat v))
    with (u * N + v)%nat by lia.
Qed.

Lemma complete_linkage_encode (N : nat) (dist : list Qc) (M : partition)
    (a b : nat) :
  (a < length M)%nat → (b < length M)%nat →
  complete_linkage (Z.of_nat N) dist (encode N M) (Z.of_nat a) (Z.of_nat b)
  = max_list (link N dist M a b).
Proof.
  intros Ha Hb. unfold complete_linkage, link.
  rewrite (members_encode N M a _ (lookup_total_lt M a Ha)).
  rewrite (members_encode N M b _ (lookup_total_lt M b Hb)).
  f_equal. induction (M !!! a) as [|u m IH]; [done|].
  rewrite fmap_cons, !bind_cons, IH. f_equal.
  rewrite <- list_fmap_compose. apply list_fmap_ext.
  intros i v _. apply entry_D.
Qed.

(** The value retained for a pair of occupied slots whose predecessors
    gave no value is the complete-linkage distance of the pair. *)
Lemma complete_linkage_acc (N : nat) (dist : list Qc) (M : partition)
    (a b : nat) :
  Forall (λ d, (zero ≤ d)%Qc) dist →
  (a < length M)%nat → (b < length M)%nat →
  M !!! a ≠ [] → M !!! b ≠ [] →
  complete_linkage (Z.of_nat N) dist (encode N M) (Z.of_nat a) (Z.of_nat b)
  = Some (acc N dist M a b minus_one).
Proof.
  intros Hd Ha Hb Hna Hnb. rewrite complete_linkage_encode by done.
  apply max_list_foldl.
  - rewrite link_nil. tauto.
  - intros d Hin. pose proof (link_nonneg N dist Hd M a b d Hin). qc_order.
Qed.

Section Compared.

Variable N : nat.
Variable dist : list Qc.
Hypothesis dist_length : length dist = (N * N)%nat.
Hypothesis index_fits : Z.of_nat (N * N) ≤ INT_MAX.
Variable M : partition.
Hypothesis M_wf : wf N M.

Lemma compared_val (a b : nat) :
  (a < N)%nat → (b < N)%nat →
  compared (Z.of_nat N) dist (row_of N <$> M) (Z.of_nat a) (Z.of_nat b)
  = Ok (val N dist M a b).
Proof.
  intros Ha Hb. unfold compared, val.
  replace (Z.to_nat (Z.of_nat b - Z.of_nat a)) with (b - a)%nat by lia.
  replace (Z.of_nat a + 1) with (Z.of_nat (S a)) by lia.
  apply for_loop_fold. intros k t Hk.
  destruct M_wf as [HL _].
  apply (k_loop_acc N dist dist_length index_fits M M_wf a k
           (M !!! a) (M !!! k)); apply lookup_total_lt; lia.
Qed.

End Compared.

(** ** The states of a run *)

Section Reachable.

Variable N : nat.
Variable dist : list Qc.
Variable thresh : Qc.
Variable labels : list Z.
Hypothesis input_valid : valid_input N dist labels.

Local Abbreviation n := (Z.of_nat N).

(** The states the main loop goes through store well-formed partitions. *)
Lemma reachable_stores (st0 : state) (s : Qc * state) :
  fill_clusters n (label_vector labels) = Ok st0 →
  iterates (loop_cond thresh) (loop_body n dist thresh) (minus_one, st0) s →
  ∃ m0 M, s = (m0, encode N M) ∧ wf N M.
Proof.
  intros Hfill Hit. pose proof (valid_N_fits _ _ _ input_valid) as HN.
  destruct input_valid as [Hll Hdl Hidx Hlr Hdn].
  destruct (fill_clusters_initial N labels Hll Hlr HN) as [Hfill' Hwf0].
  rewrite Hfill in Hfill'. injection Hfill' as ->.
  destruct (iterates_stores N dist thresh Hdl Hidx Hdn (λ _ _, True)
              (minus_one, encode N (initial N labels)) s)
    as (M & HM & Hwf & _);
    [by intros ? ? ? ? ? ? ?|by exists (initial N labels)|done|].
  destruct s as [m0 st]. simpl in HM. subst st. by exists m0, M.
Qed.

(** A pass from such a state, on partitions. *)
Lemma reachable_pass (st0 : state) (s : Qc * state) :
  fill_clusters n (label_vector labels) = Ok st0 →
  iterates (loop_cond thresh) (loop_body n dist thresh) (minus_one, st0) s →
  loop_cond thresh s = Ok true →
  ∃ m0 M m M',
    s = (m0, encode N M) ∧ wf N M
    ∧ loop_body n dist thresh s = Ok (m, encode N M')
    ∧ pstep N dist thresh M m M'.
Proof.
  intros Hfill Hit Hcond.
  destruct (reachable_stores st0 s Hfill Hit) as (m0 & M & -> & Hwf).
  destruct input_valid as [Hll Hdl Hidx Hlr Hdn].
  destruct (loop_body_pstep N dist thresh Hdl Hidx Hdn m0 M Hwf Hcond)
    as (m & M' & Hbody & Hstep).
  by exists m0, M, m, M'.
Qed.

End Reachable.

(** What a merge does to the members of the slots. *)
Lemma members_pmerge (N : nat) (M : partition) (ci cj : nat) :
  length M = N → (ci < cj < N)%nat →
  members (encode N (pmerge M ci cj)) (Z.of_nat ci)
  = members (encode N M) (Z.of_nat ci) ++ members (encode N M) (Z.of_nat cj)
  ∧ members (encode N (pmerge M ci cj)) (Z.of_nat cj) = []
  ∧ ∀ c, 0 ≤ c < Z.of_nat N → c ≠ Z.of_nat ci → c ≠ Z.of_nat cj →
      members (encode N (pmerge M ci cj)) c = members (encode N M) c.
Proof.
  intros HL Hlt.
  assert (length (pmerge M ci cj) = N) as HL'
    by (unfold pmerge; by rewrite !length_insert).
  split_and!.
  - rewrite !members_encode_Z, !Nat2Z.id by (done || lia).
    rewrite pmerge_lookup by lia.
    rewrite decide_False, decide_True by (done || lia).
    by rewrite fmap_app.
  - rewrite members_encode_Z, Nat2Z.id by (done || lia).
    rewrite pmerge_lookup by lia. by rewrite decide_True.
  - intros c Hc Hi Hj. rewrite !members_encode_Z by (done || lia).
    rewrite pmerge_lookup by lia.
    by rewrite !decide_False by lia.
Qed.

(** ** Worked inputs *)

Definition q (z : Z) : Qc := Qc_of_Z z.

(** The example of the specification: d(0,1) = d(2,3) = 1, the other
    distances 5. *)
Definition example_dist : list Qc :=
  [q 0; q 1; q 5; q 5;
   q 1; q 0; q 5; q 5;
   q 5; q 5; q 0; q 1;
   q 5; q 5; q 1; q 0].

(** Three singletons with d(0,1) = 5, d(0,2) = 1, d(1,2) = 5. *)
Definition skipped_dist : list Qc :=
  [q 0; q 5; q 1;
   q 5; q 0; q 5;
   q 1; q 5; q 0].

(** Three singletons with d(0,1) = 1, d(0,2) = 5, d(1,2) = 5. *)
Definition sparse_dist : list Qc :=
  [q 0; q 1; q 5;
   q 1; q 0; q 5;
   q 5; q 5; q 0].

Definition pair_dist (d : Qc) : list Qc := [zero; d; d; zero].

(** Four singletons with d(0,3) = d(1,2) = 1, the other distances 5. *)
Definition tie_dist : list Qc :=
  [q 0; q 5; q 5; q 1;
   q 5; q 0; q 1; q 5;
   q 5; q 1; q 0; q 5;
   q 1; q 5; q 5; q 0].

(** ** Properties of [farthest_neighbor] *)

(** C8.  On the example of the specification (four singletons, d(0,1) =
    d(2,3) = 1, every other distance 5, threshold 2) the first pass merges
    slot 1 into slot 0, the second pass merges slot 3 into slot 2, the
    third pass finds the distance 5 and merges nothing, the loop stops
    there, and the labels returned are 1, 1, 3, 3. *)
Theorem example_end_to_end :
  let st0 := encode 4 [[0]; [1]; [2]; [3]]%nat in
  let st1 := encode 4 [[0; 1]; []; [2]; [3]]%nat in
  let st2 := encode 4 [[0; 1]; []; [2; 3]; []]%nat in
  fill_clusters 4 (label_vector [1; 2; 3; 4]) = Ok st0
  ∧ loop_body 4 example_dist (q 2) (minus_one, st0) = Ok (q 1, st1)
  ∧ loop_body 4 example_dist (q 2) (q 1, st1) = Ok (q 1, st2)
  ∧ loop_body 4 example_dist (q 2) (q 1, st2) = Ok (q 5, st2)
  ∧ main_loop 4 example_dist (q 2) st0 = Ok (q 5, st2)
  ∧ members st2 0 = [0; 1] ∧ members st2 1 = []
  ∧ members st2 2 = [2; 3] ∧ members st2 3 = []
  ∧ farthest_neighbor 4 example_dist (q 2) (label_vector [1; 2; 3; 4])
    = Ok [Some 1; Some 1; Some 3; Some 3].
Proof. vm_compute. repeat split. Qed.

(** C1, at an input where the function departs from it.  For three
    singletons with d(0,1) = 5, d(0,2) = 1, d(1,2) = 5 the complete-linkage
    distance of the slots 0 and 2 is 1, but the value the scan compares for
    that pair is 5, the maximum left over from the pair (0, 1); the scan
    retains (0, 1) at distance 5, and with threshold 2 nothing is merged. *)
Theorem scan_compares_running_maximum :
  let st := encode 3 [[0]; [1]; [2]]%nat in
  fill_clusters 3 (label_vector [1; 2; 3]) = Ok st
  ∧ complete_linkage 3 skipped_dist st 0 2 = Some (q 1)
  ∧ compared 3 skipped_dist (cluster_matrix st) 0 2 = Ok (q 5)
  ∧ scan 3 skipped_dist (cluster_matrix st) = Ok (q 5, (0, 1))
  ∧ farthest_neighbor 3 skipped_dist (q 2) (label_vector [1; 2; 3])
    = Ok [Some 1; Some 2; Some 3].
Proof. vm_compute. repeat split. Qed.

(** C4, at an input where the function departs from it.  For four
    singletons with d(0,3) = d(1,2) = 1 and every other distance 5, the
    pairs (0, 3) and (1, 2) have the same least complete-linkage distance,
    1, below the threshold 2, and (0, 3) comes first in the order of the
    scan.  The value the scan compares for (0, 3) is 5, left over from the
    pair (0, 1): the scan retains (1, 2), the pass merges slot 2 into slot
    1, and the individuals 0 and 3 are never merged. *)
Theorem scan_breaks_tie_for_later_pair :
  let st := encode 4 [[0]; [1]; [2]; [3]]%nat in
  fill_clusters 4 (label_vector [1; 2; 3; 4]) = Ok st
  ∧ complete_linkage 4 tie_dist st 0 3 = Some (q 1)
  ∧ complete_linkage 4 tie_dist st 1 2 = Some (q 1)
  ∧ complete_linkage 4 tie_dist st 0 1 = Some (q 5)
  ∧ complete_linkage 4 tie_dist st 0 2 = Some (q 5)
  ∧ complete_linkage 4 tie_dist st 1 3 = Some (q 5)
  ∧ complete_linkage 4 tie_dist st 2 3 = Some (q 5)
  ∧ compared 4 tie_dist (cluster_matrix st) 0 3 = Ok (q 5)
  ∧ scan 4 tie_dist (cluster_matrix st) = Ok (q 1, (1, 2))
  ∧ loop_body 4 tie_dist (q 2) (minus_one, st)
    = Ok (q 1, encode 4 [[0]; [1; 2]; []; [3]]%nat)
  ∧ farthest_neighbor 4 tie_dist (q 2) (label_vector [1; 2; 3; 4])
    = Ok [Some 1; Some 2; Some 2; Some 4].
Proof. vm_compute. repeat split. Qed.

(** C2, at an input where the function departs from it.  With two
    individuals and the labels 1 and 3 the function does not check the
    label 3: it indexes [cluster_matrix] at 2, outside the two rows. *)
Theorem invalid_label_out_of_bounds :
  fill_step (label_vector [1; 3]) 1 (encode 2 [[0]; []]%nat)
  = Fault OutOfBounds
  ∧ farthest_neighbor 2 (pair_dist (q 1)) (q 2) (label_vector [1; 3])
    = Fault OutOfBounds.
Proof. vm_compute. repeat split. Qed.

(** C7.  For a valid input, every state of the main loop holds each
    individual in exactly one slot, once; the function returns one label
    for every individual, and each label returned is one of the labels it
    was given. *)
Theorem every_individual_in_one_slot (N : nat) (dist : list Qc) (thresh : Qc)
    (labels : list Z) :
  valid_input N dist labels →
  ∃ st0 out,
    fill_clusters (Z.of_nat N) (label_vector labels) = Ok st0
    ∧ (∀ s, iterates (loop_cond thresh) (loop_body (Z.of_nat N) dist thresh)
              (minus_one, st0) s →
            partitioned (Z.of_nat N) s.2)
    ∧ farthest_neighbor (Z.of_nat N) dist thresh (label_vector labels)
      = Ok (Some <$> out)
    ∧ length out = N
    ∧ ∀ l, l ∈ out → l ∈ labels.
Proof.
  intros Hvalid. pose proof Hvalid as [Hll Hdl Hidx Hlr Hdn].
  destruct (farthest_neighbor_run N dist thresh labels Hvalid
              (λ _, lowest_label labels))
    as (m & M & Hfill & _ & _ & _ & Hwf0 & Hwf & Hlow & Hout).
  { apply merge_step_invariant, lowest_label_merge. }
  { by apply initial_lowest_label. }
  exists (encode N (initial N labels)), (labelling N M).
  split_and!; [done| |done|apply length_labelling|].
  - intros s Hit.
    destruct (iterates_stores N dist thresh Hdl Hidx Hdn (λ _ _, True)
                (minus_one, encode N (initial N labels)) s)
      as (M' & HM' & HwfM' & _);
      [by intros ? ? ? ? ? ? ?|by exists (initial N labels)|done|].
    rewrite HM'. by apply encode_partitioned.
  - intros l (e & He)%list_elem_of_lookup.
    destruct (labelling_slot N M e l Hwf He) as (c & mc & Hc & Hin & -> & HcN).
    destruct (Hlow c mc Hc) as [_ Hex].
    destruct Hex as (e' & He' & <-); [by intros ->; apply elem_of_nil in Hin|].
    apply list_elem_of_lookup_total_2.
    pose proof (wf_upto_elem N N M c mc e' Hwf Hc He'). lia.
Qed.

(** C10.  For a valid input, the label returned for an individual is the
    least of the labels given to the individuals that are returned the same
    label, that is, of the members of its final cluster: some member was
    given that label and no member a smaller one.  In particular the
    label of an individual never increases. *)
Theorem label_is_least_of_cluster (N : nat) (dist : list Qc) (thresh : Qc)
    (labels : list Z) :
  valid_input N dist labels →
  ∃ out,
    farthest_neighbor (Z.of_nat N) dist thresh (label_vector labels)
    = Ok (Some <$> out)
    ∧ ∀ e l, out !! e = Some l →
        (∃ e', out !! e' = Some l ∧ labels !! e' = Some l)
        ∧ (∀ e' l', out !! e' = Some l → labels !! e' = Some l' → l ≤ l')
        ∧ (∀ l0, labels !! e = Some l0 → l ≤ l0).
Proof.
  intros Hvalid. pose proof Hvalid as [Hll Hdl Hidx Hlr Hdn].
  destruct (farthest_neighbor_run N dist thresh labels Hvalid
              (λ _, lowest_label labels))
    as (m & M & _ & _ & _ & _ & _ & Hwf & Hlow & Hout).
  { apply merge_step_invariant, lowest_label_merge. }
  { by apply initial_lowest_label. }
  exists (labelling N M). split; [done|].
  intros e l He.
  destruct (labelling_slot N M e l Hwf He) as (c & mc & Hc & Hin & -> & HcN).
  destruct (Hlow c mc Hc) as [Hge Hex].
  assert (∀ e' l', labelling N M !! e' = Some (Z.of_nat c + 1) →
                   labels !! e' = Some l' → Z.of_nat c + 1 ≤ l') as Hmin.
  { intros e' l' He' Hl'.
    destruct (labelling_slot N M e' _ Hwf He')
      as (c' & mc' & Hc' & Hin' & Heq & _).
    assert (c' = c) as -> by lia. simplify_eq.
    specialize (Hge e' Hin'). by rewrite (list_lookup_total_correct _ _ _ Hl') in Hge. }
  split_and!.
  - destruct Hex as (e' & He' & Hl'); [by intros ->; apply elem_of_nil in Hin|].
    exists e'. split; [by apply (labelling_lookup N M c mc)|].
    rewrite <- Hl'. apply list_lookup_lookup_total_lt.
    pose proof (wf_upto_elem N N M c mc e' Hwf Hc He'). lia.
  - done.
  - intros l0 Hl0. by apply (Hmin e).
Qed.

(** C6.  For a valid input, the label returned for an individual is the
    number of the slot that holds it when the main loop ends, plus one; the
    number of an empty slot is not returned for any individual.  The labels
    are not renumbered: three singletons of which the first two merge are
    returned the labels 1, 1, 3. *)
Theorem labels_are_slot_numbers (N : nat) (dist : list Qc) (thresh : Qc)
    (labels : list Z) :
  valid_input N dist labels →
  (∃ st0 s out,
     fill_clusters (Z.of_nat N) (label_vector labels) = Ok st0
     ∧ main_loop (Z.of_nat N) dist thresh st0 = Ok s
     ∧ farthest_neighbor (Z.of_nat N) dist thresh (label_vector labels)
       = Ok out
     ∧ length out = N
     ∧ (∀ c e, 0 ≤ c < Z.of_nat N → e ∈ members s.2 c →
          out !! Z.to_nat e = Some (Some (c + 1)))
     ∧ (∀ c, 0 ≤ c < Z.of_nat N → members s.2 c = [] →
          Some (c + 1) ∉ out))
  ∧ farthest_neighbor 3 sparse_dist (q 2) (label_vector [1; 2; 3])
    = Ok [Some 1; Some 1; Some 3].
Proof.
  intros Hvalid. split; [|by vm_compute].
  destruct (farthest_neighbor_run N dist thresh labels Hvalid (λ _ _, True))
    as (m & M & Hfill & Hloop & _ & _ & _ & Hwf & _ & Hout);
    [by intros ? ? ? ? ? ? ?|done|].
  pose proof Hwf as [HL _].
  exists (encode N (initial N labels)), (m, encode N M), (Some <$> labelling N M).
  split_and!; [done|done|done|by rewrite length_fmap, length_labelling| |].
  - intros c e Hc [He Hin]%(elem_of_members N); [|done|done].
    pose proof (lookup_total_lt M (Z.to_nat c) ltac:(lia)) as Hm.
    rewrite list_lookup_fmap, (labelling_lookup N M _ _ _ Hwf Hm Hin).
    simpl. do 2 f_equal. lia.
  - intros c Hc Hnil%(members_nil N) Hin; [|done|done].
    apply list_elem_of_lookup in Hin as [e He].
    rewrite list_lookup_fmap in He.
    destruct (labelling N M !! e) as [l|] eqn:El; [|done].
    simpl in He. injection He as ->.
    destruct (labelling_slot N M e _ Hwf El) as (c' & mc & Hc' & Hin & Heq & _).
    assert (c' = Z.to_nat c) as -> by lia.
    rewrite (lookup_total_Some _ _ _ Hc') in Hnil. subst mc.
    by apply elem_of_nil in Hin.
Qed.

(** C5.  For a valid input, a pass of the main loop that merges (the
    retained distance is below the threshold) moves the members of the
    higher-numbered slot of the retained pair behind those of the
    lower-numbered one, leaves the higher-numbered slot empty and the other
    slots as they were, and decrements [num_clusters] by one; the emptied
    slot is empty in every later state of the loop. *)
Theorem merge_absorbs_higher_slot (N : nat) (dist : list Qc) (thresh : Qc)
    (labels : list Z) (st0 : state) (s s' : Qc * state) :
  valid_input N dist labels →
  fill_clusters (Z.of_nat N) (label_vector labels) = Ok st0 →
  iterates (loop_cond thresh) (loop_body (Z.of_nat N) dist thresh)
    (minus_one, st0) s →
  loop_cond thresh s = Ok true →
  loop_body (Z.of_nat N) dist thresh s = Ok s' →
  Qcltb s'.1 thresh = true →
  ∃ ci cj,
    scan (Z.of_nat N) dist (cluster_matrix s.2) = Ok (s'.1, (ci, cj))
    ∧ 0 ≤ ci < cj ∧ cj < Z.of_nat N
    ∧ members s.2 ci ≠ [] ∧ members s.2 cj ≠ []
    ∧ members s'.2 ci = members s.2 ci ++ members s.2 cj
    ∧ members s'.2 cj = []
    ∧ (∀ c, 0 ≤ c < Z.of_nat N → c ≠ ci → c ≠ cj →
         members s'.2 c = members s.2 c)
    ∧ num_clusters s'.2 = num_clusters s.2 - 1
    ∧ ∀ s'', iterates (loop_cond thresh) (loop_body (Z.of_nat N) dist thresh)
               s' s'' →
             members s''.2 cj = [].
Proof.
  intros Hvalid Hfill Hit Hcond Hbody Hlt.
  destruct (reachable_pass N dist thresh labels Hvalid st0 s Hfill Hit Hcond)
    as (m0 & M & m & M' & -> & Hwf & Hbody' & Hstep).
  rewrite Hbody in Hbody'. injection Hbody' as ->. simpl in Hlt.
  pose proof Hvalid as [Hll Hdl Hidx Hlr Hdn].
  pose proof (pstep_wf N dist thresh M m M' Hwf Hstep) as Hwf'.
  pose proof (pstep_live N dist thresh M m M' Hwf Hstep) as Hlive.
  destruct Hstep as (ci & cj & Hscan & _ & Hij & Hi & Hj & _ & HM').
  rewrite Hlt in HM', Hlive. subst M'.
  pose proof Hwf as [HL _].
  destruct (members_pmerge N M ci cj HL Hij) as (Hm1 & Hm2 & Hm3).
  exists (Z.of_nat ci), (Z.of_nat cj). cbn [fst snd].
  split_and!; try done; try lia.
  - rewrite members_encode_Z, Nat2Z.id by (done || lia).
    by intros ?%fmap_nil_inv.
  - rewrite members_encode_Z, Nat2Z.id by (done || lia).
    by intros ?%fmap_nil_inv.
  - intros s'' Hit'.
    destruct (iterates_stores N dist thresh Hdl Hidx Hdn
                (λ _ M, M !!! cj = []) (m, encode N (pmerge M ci cj)) s'')
      as (M'' & HM'' & [HL'' _] & Hnil); [| |done|].
    + apply merge_step_invariant, empty_slot_merge.
    + exists (pmerge M ci cj). split_and!; [done|done|].
      rewrite pmerge_lookup by lia. by rewrite decide_True.
    + rewrite HM''. apply (members_nil N); [done|lia|].
      by rewrite Nat2Z.id.
Qed.

(** The check at line 174 replaces the retained pair only by a candidate
    whose value is strictly below the retained minimum (or when nothing is
    retained yet, the minimum being the negative sentinel).  So, in every
    pass of a run on a valid input, the pair the scan retains has the least
    of the values the scan compares, every pair checked before it (in
    ascending order of [i], then [j]) has a strictly greater value or none,
    and it is the pair that is merged when its value is below the
    threshold.  The values are those of [compared], the running maximum,
    not the complete-linkage distances of the pairs. *)
Lemma first_least_compared_is_retained (N : nat) (dist : list Qc)
    (thresh : Qc) (labels : list Z) (st0 : state) (s : Qc * state) :
  valid_input N dist labels →
  fill_clusters (Z.of_nat N) (label_vector labels) = Ok st0 →
  iterates (loop_cond thresh) (loop_body (Z.of_nat N) dist thresh)
    (minus_one, st0) s →
  loop_cond thresh s = Ok true →
  (∀ cm i j v v', j_body (Z.of_nat N) dist cm i j v = Ok v' →
     (min_cluster_distance v' = min_cluster_distance v
      ∧ closest_pair v' = closest_pair v)
     ∨ (min_cluster_distance v' = tmp_max v' ∧ closest_pair v' = (i, j)
        ∧ (minus_half < tmp_max v')%Qc
        ∧ ((tmp_max v' < min_cluster_distance v)%Qc
           ∨ (min_cluster_distance v < zero)%Qc)))
  ∧ ∃ m ci cj s',
      scan (Z.of_nat N) dist (cluster_matrix s.2) = Ok (m, (ci, cj))
      ∧ 0 ≤ ci < cj ∧ cj < Z.of_nat N
      ∧ compared (Z.of_nat N) dist (cluster_matrix s.2) ci cj = Ok m
      ∧ (minus_half < m)%Qc
      ∧ (∀ a b, 0 ≤ a < b → b < Z.of_nat N →
           ∃ v, compared (Z.of_nat N) dist (cluster_matrix s.2) a b = Ok v
                ∧ ((minus_half < v)%Qc →
                   (m ≤ v)%Qc
                   ∧ (a < ci ∨ (a = ci ∧ b < cj) → (m < v)%Qc)))
      ∧ loop_body (Z.of_nat N) dist thresh s = Ok (m, s')
      ∧ (Qcltb m thresh = true →
           members s' ci = members s.2 ci ++ members s.2 cj
           ∧ members s' cj = []).
Proof.
  intros Hvalid Hfill Hit Hcond. split.
  { intros cm i j v v' Hj. unfold j_body in Hj.
    apply bind_Ok in Hj as (t & _ & Hv').
    destruct (replaces t (min_cluster_distance v)) eqn:E;
      injection Hv' as <-; simpl; [right|by left].
    apply replaces_true in E as [? ?]. done. }
  destruct (reachable_pass N dist thresh labels Hvalid st0 s Hfill Hit Hcond)
    as (m0 & M & m & M' & -> & Hwf & Hbody & Hstep).
  pose proof Hvalid as [Hll Hdl Hidx Hlr Hdn]. pose proof Hwf as [HL _].
  destruct Hstep as (ci & cj & Hscan & Hbest & Hij & Hi & Hj & Hm & HM').
  destruct (best_of_selected N dist M HL m ci cj Hbest)
    as (_ & _ & _ & _ & Hpos & Hval).
  exists m, (Z.of_nat ci), (Z.of_nat cj), (encode N M'). cbn [fst snd].
  change (cluster_matrix (encode N M)) with (row_of N <$> M).
  split_and!; try done; try lia.
  - rewrite Hval. apply (compared_val N dist Hdl Hidx M Hwf); lia.
  - qc_order.
  - intros a b Hab HbN. exists (val N dist M (Z.to_nat a) (Z.to_nat b)).
    split.
    { rewrite <- (Z2Nat.id a) at 1 by lia. rewrite <- (Z2Nat.id b) at 1 by lia.
      apply (compared_val N dist Hdl Hidx M Hwf); lia. }
    intros Hcand.
    destruct Hbest as [(? & _)|(ci' & cj' & E & _ & _ & _ & H)];
      [simplify_eq; lia|].
    assert (ci' = ci ∧ cj' = cj) as [-> ->] by (simplify_eq; lia).
    destruct (H (Z.to_nat a) (Z.to_nat b)) as [Hno|[Hle Hlt]]; [lia| |].
    + rewrite Hno in Hcand. qc_order.
    + split; [done|]. intros Hbefore. apply Hlt. unfold before. lia.
  - intros Hlt. rewrite Hlt in HM'. subst M'.
    by destruct (members_pmerge N M ci cj HL Hij) as (? & ? & _).
Qed.

(** Two individuals that no merge may bring together. *)
Definition apart (a b : nat) (M : partition) : Prop :=
  ∀ c m, M !! c = Some m → a ∈ m → b ∈ m → False.

Lemma apart_merge (N : nat) (dist : list Qc) (thresh : Qc) (a b : nat) :
  (thresh ≤ D N dist a b)%Qc → (thresh ≤ D N dist b a)%Qc →
  merge_invariant N dist thresh (apart a b).
Proof.
  intros Hab Hba M ci cj [HL _] HP (Hlt & Hi & Hj & Hacc) c m Hc Ha Hb.
  assert (c < N)%nat as HcN.
  { apply lookup_lt_Some in Hc. unfold pmerge in Hc.
    rewrite !length_insert in Hc. lia. }
  apply lookup_total_Some in Hc. rewrite pmerge_lookup in Hc by lia.
  pose proof (lookup_total_lt M ci ltac:(lia)) as Hci.
  pose proof (lookup_total_lt M cj ltac:(lia)) as Hcj.
  destruct (decide (c = cj)) as [->|?]; [subst m; by apply elem_of_nil in Ha|].
  destruct (decide (c = ci)) as [->|?].
  - subst m. apply elem_of_app in Ha, Hb.
    destruct Ha as [Ha|Ha], Hb as [Hb|Hb].
    + by apply (HP ci _ Hci).
    + pose proof (foldl_upd_elem minus_one _ _ (elem_link N dist M ci cj a b Ha Hb)).
      unfold acc in Hacc. qc_order.
    + pose proof (foldl_upd_elem minus_one _ _ (elem_link N dist M ci cj b a Hb Ha)).
      unfold acc in Hacc. qc_order.
    + by apply (HP cj _ Hcj).
  - subst m. by apply (HP c _ (lookup_total_lt M c ltac:(lia))).
Qed.

(** Two singletons alone: they are merged exactly when their distance is
    below the threshold. *)
Lemma two_singletons (d thresh : Qc) :
  (zero ≤ d)%Qc →
  farthest_neighbor 2 (pair_dist d) thresh (label_vector [1; 2])
  = Ok (if Qcltb d thresh then [Some 1; Some 1] else [Some 1; Some 2]).
Proof.
  intros Hd.
  assert (valid_input 2 (pair_dist d) [1; 2]) as [_ Hdl Hidx _ Hdn].
  { split; [done|done|by vm_compute|repeat constructor; lia|].
    repeat constructor; (done || apply Qcle_refl). }
  assert (wf 2 [[0]; [1]]%nat) as Hwf by (split; [done|done]).
  unfold farthest_neighbor.
  replace (fill_clusters 2 (label_vector [1; 2]))
    with (Ok (encode 2 [[0]; [1]]%nat)) by (by vm_compute).
  rewrite Ok_bind. unfold main_loop.
  change (Z.to_nat (num_clusters (encode 2 [[0]; [1]]%nat))) with 2%nat.
  rewrite while_loop_S.
  change (loop_cond thresh (minus_one, encode 2 [[0]; [1]]%nat))
    with (Ok (Qcltb minus_one thresh && true) : result bool).
  rewrite Ok_bind, andb_true_r.
  destruct (Qcltb minus_one thresh) eqn:E1.
  - destruct (loop_body_step 2 (pair_dist d) thresh Hdl Hidx Hdn minus_one
                [[0]; [1]]%nat Hwf)
      as (m & ci & cj & _ & _ & Hlt & _ & _ & Hm & Hbody);
      [vm_compute; lia|].
    assert (ci = 0 ∧ cj = 1)%nat as [-> ->] by lia.
    assert (m = d) as ->.
    { rewrite Hm. unfold acc, link.
      change (foldl upd minus_one _) with (upd minus_one d).
      unfold upd. replace (Qcltb minus_one d) with true; [done|].
      symmetry. qc_order. }
    change (loop_body (Z.of_nat 2)) with (loop_body 2) in Hbody.
    rewrite Hbody, Ok_bind.
    destruct (Qcltb d thresh) eqn:E2.
    + change (pmerge [[0]; [1]] 0 1)%nat with [[0; 1]; []]%nat.
      rewrite while_loop_S.
      change (loop_cond thresh (d, encode 2 [[0; 1]; []]%nat))
        with (Ok (Qcltb d thresh && false) : result bool).
      by rewrite andb_false_r, !Ok_bind.
    + rewrite while_loop_S.
      change (loop_cond thresh (d, encode 2 [[0]; [1]]%nat))
        with (Ok (Qcltb d thresh && true) : result bool).
      by rewrite E2, !Ok_bind.
  - rewrite Ok_bind.
    replace (Qcltb d thresh) with false; [done|].
    symmetry. qc_order.
Qed.

(** C3.  In every pass of a run on a valid input, the value retained by
    the scan is the complete-linkage distance of the retained pair, and
    the pair is merged if and only if that value is strictly below the
    threshold: otherwise the pass leaves the state as it was.  So two
    singleton slots that are retained are merged exactly when their
    distance is below the threshold.  Moreover two individuals with
    different labels whose distance is not below the threshold are never
    brought together, whatever else is merged; and of two singletons alone,
    the run merges them when their distance is below the threshold and
    not when it is equal to it. *)
Theorem merge_iff_below_threshold (N : nat) (dist : list Qc) (thresh : Qc)
    (labels : list Z) :
  valid_input N dist labels →
  (∀ st0 s,
     fill_clusters (Z.of_nat N) (label_vector labels) = Ok st0 →
     iterates (loop_cond thresh) (loop_body (Z.of_nat N) dist thresh)
       (minus_one, st0) s →
     loop_cond thresh s = Ok true →
     ∃ m ci cj s',
       scan (Z.of_nat N) dist (cluster_matrix s.2) = Ok (m, (ci, cj))
       ∧ 0 ≤ ci < cj ∧ cj < Z.of_nat N
       ∧ complete_linkage (Z.of_nat N) dist s.2 ci cj = Some m
       ∧ loop_body (Z.of_nat N) dist thresh s = Ok (m, s')
       ∧ ((m < thresh)%Qc → members s' ci = members s.2 ci ++ members s.2 cj
                            ∧ members s' cj = [] ∧ members s.2 cj ≠ [])
       ∧ ((thresh ≤ m)%Qc → s' = s.2))
  ∧ (∀ out a b la lb,
       farthest_neighbor (Z.of_nat N) dist thresh (label_vector labels)
       = Ok out →
       labels !! a = Some la → labels !! b = Some lb → la ≠ lb →
       (thresh ≤ entry (Z.of_nat N) dist (Z.of_nat a) (Z.of_nat b))%Qc →
       (thresh ≤ entry (Z.of_nat N) dist (Z.of_nat b) (Z.of_nat a))%Qc →
       out !! a ≠ out !! b)
  ∧ (∀ d, (zero ≤ d)%Qc →
       farthest_neighbor 2 (pair_dist d) thresh (label_vector [1; 2])
       = Ok (if Qcltb d thresh then [Some 1; Some 1] else [Some 1; Some 2])).
Proof.
  intros Hvalid. pose proof Hvalid as [Hll Hdl Hidx Hlr Hdn].
  split_and!; [| |intros d Hd; by apply two_singletons].
  - intros st0 s Hfill Hit Hcond.
    destruct (reachable_pass N dist thresh labels Hvalid st0 s Hfill Hit Hcond)
      as (m0 & M & m & M' & -> & Hwf & Hbody & Hstep).
    pose proof Hwf as [HL _].
    destruct Hstep as (ci & cj & Hscan & _ & Hij & Hi & Hj & Hm & HM').
    destruct (members_pmerge N M ci cj HL Hij) as (Hm1 & Hm2 & _).
    exists m, (Z.of_nat ci), (Z.of_nat cj), (encode N M'). cbn [fst snd].
    split_and!; try done; try lia.
    + rewrite Hm. apply complete_linkage_acc; (done || lia).
    + intros Hlt%Qcltb_lt. rewrite Hlt in HM'. subst M'.
      split_and!; [done|done|].
      rewrite members_encode_Z, Nat2Z.id by (done || lia).
      by intros ?%fmap_nil_inv.
    + intros Hge%Qcltb_ge. rewrite Hge in HM'. by subst M'.
  - intros out a b la lb Hrun Ha Hb Hne Hab Hba.
    rewrite entry_D in Hab, Hba.
    pose proof (lookup_lt_Some _ _ _ Ha) as HaN.
    pose proof (lookup_lt_Some _ _ _ Hb) as HbN.
    destruct (farthest_neighbor_run N dist thresh labels Hvalid
                (λ _, apart a b))
      as (m & M & _ & _ & _ & _ & _ & Hwf & Hapart & Hout).
    { by apply merge_step_invariant, apart_merge. }
    { intros c mc Hc Hain Hbin.
      assert (c < N)%nat as HcN.
      { apply lookup_lt_Some in Hc. unfold initial in Hc.
        by rewrite initial_upto_length in Hc. }
      apply lookup_total_Some in Hc. subst mc.
      apply (initial_elem N labels Hll Hlr) in Hain as [_ Hla]; [|done].
      apply (initial_elem N labels Hll Hlr) in Hbin as [_ Hlb]; [|done].
      rewrite (list_lookup_total_correct _ _ _ Ha) in Hla.
      rewrite (list_lookup_total_correct _ _ _ Hb) in Hlb. lia. }
    rewrite Hrun in Hout. injection Hout as ->.
    rewrite !list_lookup_fmap. intros Heq.
    destruct (lookup_lt_is_Some_2 (labelling N M) a) as [l Hl];
      [rewrite length_labelling; lia|].
    rewrite Hl in Heq. simpl in Heq.
    destruct (labelling N M !! b) as [l'|] eqn:Hl'; [|done].
    injection Heq as <-.
    destruct (labelling_slot N M a l Hwf Hl) as (c & mc & Hc & Hin & Hlc & _).
    destruct (labelling_slot N M b l Hwf Hl') as (c' & mc' & Hc' & Hin' & Hlc' & _).
    assert (c' = c) as -> by lia. simplify_eq.
    by apply (Hapart c mc Hc).
Qed.

(** ** Running the function on its own output *)

(** Two partitions with the same members in every slot, in any order. *)
Definition same_slots (M M' : partition) : Prop :=
  length M = length M' ∧ ∀ c e, e ∈ M !!! c ↔ e ∈ M' !!! c.

Lemma foldl_upd_same (t : Qc) (l l' : list Qc) :
  (∀ d, d ∈ l ↔ d ∈ l') → foldl upd t l = foldl upd t l'.
Proof.
  intros H. apply Qcle_antisym.
  - destruct (foldl_upd_in t l) as [->|Hin]; [apply foldl_upd_ge|].
    by apply foldl_upd_elem, H.
  - destruct (foldl_upd_in t l') as [->|Hin]; [apply foldl_upd_ge|].
    by apply foldl_upd_elem, H.
Qed.

Lemma foldl_pointwise {A B} (f g : A → B → A) (a : A) (l : list B) :
  (∀ a x, f a x = g a x) → foldl f a l = foldl g a l.
Proof.
  intros H. revert a. induction l as [|x l IH]; intros a; [done|].
  simpl. by rewrite H, IH.
Qed.

Lemma lookup_total_ge (M : partition) (c : nat) :
  (length M ≤ c)%nat → M !!! c = [].
Proof.
  intros H. rewrite list_lookup_total_alt. by rewrite lookup_ge_None_2.
Qed.

Section SameSlots.

Variable N : nat.
Variable dist : list Qc.
Variables M M' : partition.
Hypothesis M_same : same_slots M M'.

Lemma link_same (i j : nat) (d : Qc) :
  d ∈ link N dist M i j ↔ d ∈ link N dist M' i j.
Proof.
  destruct M_same as [_ H].
  split; intros (u & v & Hu & Hv & ->)%link_elem; apply elem_link;
    by apply H.
Qed.

Lemma acc_same (i j : nat) (t : Qc) :
  acc N dist M i j t = acc N dist M' i j t.
Proof. unfold acc. apply foldl_upd_same. intros d. apply link_same. Qed.

(** A scan reads the slots as sets. *)
Lemma a_scan_same : a_scan N dist M = a_scan N dist M'.
Proof.
  unfold a_scan. apply foldl_pointwise. intros v i.
  unfold a_i. apply foldl_pointwise. intros w j.
  unfold a_j. by rewrite acc_same.
Qed.

Lemma labelling_same : wf N M → wf N M' → labelling N M = labelling N M'.
Proof.
  intros Hwf Hwf'. apply list_eq. intros e.
  destruct (decide (e < N)%nat) as [He|He].
  - destruct (wf_elem_slot N M e Hwf He) as (c & m & Hc & Hm).
    rewrite (labelling_lookup N M c m e Hwf Hc Hm).
    symmetry. apply (labelling_lookup N M' c (M' !!! c)); [done| |].
    + apply lookup_total_lt. destruct M_same as [<- _].
      by eapply lookup_lt_Some.
    + apply M_same. by rewrite (lookup_total_Some _ _ _ Hc).
  - by rewrite !lookup_ge_None_2 by (rewrite length_labelling; lia).
Qed.

End SameSlots.

Lemma live_same (M M' : partition) : same_slots M M' → live M = live M'.
Proof.
  revert M'. induction M as [|m M IH]; intros [|m' M'] [HL H];
    [done|done|done|].
  rewrite !live_cons. f_equal.
  - unfold occupied. pose proof (H 0%nat) as H0. simpl in H0.
    destruct m as [|x m], m' as [|x' m']; [done| | |done].
    + exfalso. eapply elem_of_nil, H0. by left.
    + exfalso. eapply elem_of_nil, H0. by left.
  - apply IH. split; [simpl in HL; lia|]. intros c e. apply (H (S c)).
Qed.

Lemma initial_labelling_same (N : nat) (M : partition) :
  wf N M → same_slots (initial N (labelling N M)) M.
Proof.
  intros Hwf. pose proof Hwf as [HL _].
  split; [unfold initial; by rewrite initial_upto_length|].
  intros c e. destruct (decide (c < N)%nat) as [Hc|Hc].
  - rewrite (initial_elem N (labelling N M) (length_labelling N M)
               (labelling_range N M Hwf)) by done.
    pose proof (lookup_total_lt M c ltac:(lia)) as Hmc.
    split.
    + intros [He Hl].
      destruct (lookup_lt_is_Some_2 (labelling N M) e) as [l Hl'];
        [rewrite length_labelling; lia|].
      rewrite (list_lookup_total_correct _ _ _ Hl') in Hl. subst l.
      destruct (labelling_slot N M e _ Hwf Hl') as (c' & m' & Hc' & Hin & Heq & _).
      assert (c' = c) as -> by lia.
      by rewrite (lookup_total_Some _ _ _ Hc').
    + intros Hin. split; [by apply (wf_upto_elem N N M c (M !!! c) e Hwf Hmc)|].
      apply list_lookup_total_correct.
      by apply (labelling_lookup N M c (M !!! c) e).
  - rewrite !lookup_total_ge;
      [done|lia|unfold initial; rewrite initial_upto_length; lia].
Qed.

(** The labels written for the initial partition are the labels given. *)
Lemma labelling_initial (N : nat) (labels : list Z) :
  length labels = N → Forall (λ l, 1 ≤ l ≤ Z.of_nat N) labels →
  wf N (initial N labels) → labelling N (initial N labels) = labels.
Proof.
  intros Hll Hlr Hwf. apply list_eq. intros e.
  destruct (decide (e < N)%nat) as [He|He].
  - destruct (lookup_lt_is_Some_2 labels e) as [l Hl]; [lia|].
    pose proof (Forall_lookup_1 _ _ _ _ Hlr Hl) as Hr. simpl in Hr.
    rewrite Hl.
    assert (e ∈ initial N labels !!! Z.to_nat (l - 1)) as Hin.
    { apply (initial_elem N labels Hll Hlr); [lia|].
      split; [done|]. rewrite (list_lookup_total_correct _ _ _ Hl). lia. }
    assert (initial N labels !! Z.to_nat (l - 1)
            = Some (initial N labels !!! Z.to_nat (l - 1))) as Hc
      by (apply lookup_total_lt; destruct Hwf; lia).
    rewrite (labelling_lookup N _ _ _ e Hwf Hc Hin).
    f_equal. lia.
  - by rewrite !lookup_ge_None_2 by (rewrite ?length_labelling; lia).
Qed.

Lemma while_loop_exit {T} (cond : T → result bool) (body : T → result T)
    (fuel : nat) (s : T) :
  cond s = Ok false → while_loop fuel cond body s = Ok s.
Proof.
  intros H. destruct fuel; [rewrite while_loop_O|rewrite while_loop_S];
    by rewrite H.
Qed.

(** No two occupied slots of [st] are closer, farthest member to farthest
    member, than the threshold.  The pairs are taken with the lower slot
    first, as the scan reads them. *)
Definition stable (n : Z) (dist : list Qc) (thresh : Qc) (st : state) : Prop :=
  ∀ a b x, 0 ≤ a < b → b < n →
    complete_linkage n dist st a b = Some x → (thresh ≤ x)%Qc.

Definition check_stable (N : nat) (dist : list Qc) (thresh : Qc) (st : state)
    : bool :=
  forallb (λ a : nat,
    forallb (λ b : nat,
      (b <=? a)%nat
      || match complete_linkage (Z.of_nat N) dist st (Z.of_nat a) (Z.of_nat b) with
         | None => true
         | Some x => negb (Qcltb x thresh)
         end)
      (seq 0 N))
    (seq 0 N).

Lemma check_stable_stable (N : nat) (dist : list Qc) (thresh : Qc) (st : state) :
  check_stable N dist thresh st = true → stable (Z.of_nat N) dist thresh st.
Proof.
  unfold check_stable. rewrite forallb_forall. intros H a b x Ha Hb Hx.
  specialize (H (Z.to_nat a)). rewrite forallb_forall in H.
  specialize (H ltac:(apply in_seq; lia) (Z.to_nat b) ltac:(apply in_seq; lia)).
  rewrite !Z2Nat.id, Hx in H by lia.
  apply orb_true_iff in H as [H|H].
  - apply Nat.leb_le in H. lia.
  - apply negb_true_iff in H. qc_order.
Qed.

Section Rerun.

Variable N : nat.
Variable dist : list Qc.
Variable thresh : Qc.
Variable labels : list Z.
Hypothesis input_valid : valid_input N dist labels.

Local Abbreviation n := (Z.of_nat N).

(** What the retained minimum is when the loop ends: the initial [-1], a
    value below the threshold, or the value of a scan of the final
    partition. *)
Definition last_scan (m : Qc) (M : partition) : Prop :=
  m = minus_one ∨ Qcltb m thresh = true
  ∨ m = min_cluster_distance (a_scan N dist M).

Lemma last_scan_step : step_invariant N dist thresh last_scan.
Proof.
  destruct input_valid as [_ Hdl Hidx _ _].
  intros m0 M m M' Hwf _ (ci & cj & Hscan & _ & _ & _ & _ & _ & ->).
  unfold last_scan. destruct (Qcltb m thresh) eqn:E; [by right; left|].
  right; right.
  rewrite (scan_a_scan N dist Hdl Hidx M Hwf) in Hscan. by injection Hscan.
Qed.

(** Running the function on the labels it returned returns them again. *)
Lemma rerun_returns_same :
  ∃ out,
    farthest_neighbor n dist thresh (label_vector labels) = Ok (Some <$> out)
    ∧ valid_input N dist out
    ∧ farthest_neighbor n dist thresh (label_vector out) = Ok (Some <$> out)
    ∧ ∃ m M, main_loop n dist thresh (encode N (initial N labels))
             = Ok (m, encode N M)
             ∧ wf N M ∧ out = labelling N M.
Proof.
  destruct (farthest_neighbor_run N dist thresh labels input_valid last_scan)
    as (m & M & _ & Hloop & _ & Hcond & _ & Hwf & Hlast & Hout).
  { apply last_scan_step. }
  { by left. }
  exists (labelling N M). split; [done|].
  pose proof (valid_N_fits _ _ _ input_valid) as HN.
  destruct input_valid as [Hll Hdl Hidx Hlr Hdn].
  assert (valid_input N dist (labelling N M)) as Hvalid'.
  { split; [apply length_labelling|done|done|by apply labelling_range|done]. }
  split; [done|]. split; [|by exists m, M].
  set (out := labelling N M) in *.
  destruct (fill_clusters_initial N out (length_labelling N M)
              (labelling_range N M Hwf) HN) as [Hfill Hwf0].
  pose proof (initial_labelling_same N M Hwf) as Hsame. fold out in Hsame.
  set (M0 := initial N out) in *.
  assert (∃ m', main_loop n dist thresh (encode N M0) = Ok (m', encode N M0))
    as [m' Hloop'].
  { unfold main_loop. rewrite loop_cond_encode in Hcond.
    injection Hcond as Hcond.
    rewrite <- (live_same M0 M Hsame) in Hcond.
    destruct (bool_decide (1 < live M0)%nat) eqn:Hlive.
    - rewrite andb_true_r in Hcond.
      apply bool_decide_eq_true in Hlive.
      destruct (Qcltb minus_one thresh) eqn:E1.
      + change (num_clusters (encode N M0)) with (Z.of_nat (live M0)).
        rewrite Nat2Z.id.
        destruct (live M0) as [|f] eqn:Ef; [lia|].
        rewrite while_loop_S, loop_cond_encode, Ok_bind, E1.
        rewrite bool_decide_eq_true_2 by lia. simpl andb. cbv iota.
        destruct (loop_body_step N dist thresh Hdl Hidx Hdn minus_one M0 Hwf0)
          as (m2 & ci & cj & Hscan & _ & _ & _ & _ & _ & Hbody); [lia|].
        rewrite (scan_a_scan N dist Hdl Hidx M0 Hwf0) in Hscan.
        injection Hscan as Hm2 _.
        rewrite (a_scan_same N dist M0 M Hsame) in Hm2.
        assert (m2 = m) as ->.
        { destruct Hlast as [-> | [Hlt | ->]]; [congruence|congruence|done]. }
        rewrite Hbody, Ok_bind, Hcond.
        exists m. apply while_loop_exit.
        rewrite loop_cond_encode. by rewrite Hcond.
      + exists minus_one. apply while_loop_exit.
        rewrite loop_cond_encode. by rewrite E1.
    - exists minus_one. apply while_loop_exit.
      rewrite loop_cond_encode, Hlive. by rewrite andb_false_r. }
  unfold farthest_neighbor. rewrite Hfill, Ok_bind, Hloop', Ok_bind.
  cbn [snd]. change (cluster_matrix (encode N M0)) with (row_of N <$> M0).
  rewrite fill_output_out_of, out_of_labelling by done.
  by rewrite (labelling_same N M0 M Hsame Hwf0 Hwf).
Qed.

(** From a stable initial partition no pass merges. *)
Lemma stable_step :
  stable n dist thresh (encode N (initial N labels)) →
  step_invariant N dist thresh (λ _ M, M = initial N labels).
Proof.
  intros Hstable m0 M m M' Hwf ->
    (ci & cj & _ & _ & Hij & Hi & Hj & Hm & ->).
  destruct (Qcltb m thresh) eqn:E; [exfalso|done].
  destruct input_valid as [_ _ _ _ Hdn]. destruct Hwf as [HL _].
  pose proof (complete_linkage_acc N dist (initial N labels) ci cj Hdn
                ltac:(lia) ltac:(lia) Hi Hj) as Hcl.
  apply Hstable in Hcl; [|lia..]. rewrite <- Hm in Hcl. qc_order.
Qed.

End Rerun.

(** C9.  For a valid input whose given partition has no two occupied
    slots closer than the threshold in complete linkage, the function
    returns the labels it was given, and running it again on the labels
    returned, with the same matrix and threshold, returns them once more.
    ([rerun_returns_same] gives the second part for every valid input.) *)
Theorem stable_result_is_fixed (N : nat) (dist : list Qc) (thresh : Qc)
    (labels : list Z) (st0 : state) :
  valid_input N dist labels →
  fill_clusters (Z.of_nat N) (label_vector labels) = Ok st0 →
  stable (Z.of_nat N) dist thresh st0 →
  ∃ out,
    farthest_neighbor (Z.of_nat N) dist thresh (label_vector labels)
    = Ok (Some <$> out)
    ∧ farthest_neighbor (Z.of_nat N) dist thresh (label_vector out)
      = Ok (Some <$> out)
    ∧ out = labels.
Proof.
  intros Hvalid Hfill Hstable.
  pose proof (valid_N_fits _ _ _ Hvalid) as HN.
  pose proof Hvalid as [Hll Hdl Hidx Hlr Hdn].
  destruct (fill_clusters_initial N labels Hll Hlr HN) as [Hfill' Hwf0].
  rewrite Hfill in Hfill'. injection Hfill' as ->.
  destruct (rerun_returns_same N dist thresh labels Hvalid)
    as (out & Hout & _ & Hagain & m & M & Hloop & Hwf & HoutM).
  exists out. split_and!; [done|done|].
  destruct (main_loop_stores N dist thresh Hdl Hidx Hdn
              (λ _ M, M = initial N labels) (initial N labels))
    as (m' & M' & Hloop' & _ & _ & _ & ->);
    [by apply stable_step|done|done|].
  rewrite Hloop in Hloop'. injection Hloop' as _ HM _ _.
  apply (f_equal (fill_output (Z.of_nat N))) in HM.
  rewrite (fill_output_out_of N M Hwf) in HM.
  rewrite (fill_output_out_of N _ Hwf0) in HM. injection HM as HM.
  rewrite HoutM. unfold labelling. rewrite HM.
  by apply labelling_initial.
Qed.

(** ** The theorems at the example of the specification *)

Lemma example_valid : valid_input 4 example_dist [1; 2; 3; 4].
Proof. apply check_input_valid. vm_compute. reflexivity. Defined.

Lemma every_individual_in_one_slot_witness :
  valid_input 4 example_dist [1; 2; 3; 4]
  ∧ ∃ out,
      farthest_neighbor 4 example_dist (q 2) (label_vector [1; 2; 3; 4])
      = Ok (Some <$> out)
      ∧ length out = 4%nat ∧ ∀ l, l ∈ out → l ∈ [1; 2; 3; 4].
Proof.
  split; [exact example_valid|].
  destruct (every_individual_in_one_slot 4 example_dist (q 2) [1; 2; 3; 4]
              example_valid) as (st0 & out & _ & _ & Hout & Hlen & Hin).
  exists out. split; [exact Hout|]. split; [exact Hlen|exact Hin].
Defined.

Lemma label_is_least_of_cluster_witness :
  valid_input 4 example_dist [1; 2; 3; 4]
  ∧ ∃ out,
      farthest_neighbor 4 example_dist (q 2) (label_vector [1; 2; 3; 4])
      = Ok (Some <$> out)
      ∧ ∀ e l l0, out !! e = Some l → [1; 2; 3; 4] !! e = Some l0 → l ≤ l0.
Proof.
  split; [exact example_valid|].
  destruct (label_is_least_of_cluster 4 example_dist (q 2) [1; 2; 3; 4]
              example_valid) as (out & Hout & H).
  exists out. split; [exact Hout|].
  intros e l l0 He. exact (proj2 (proj2 (H e l He)) l0).
Defined.

Lemma labels_are_slot_numbers_witness :
  valid_input 4 example_dist [1; 2; 3; 4]
  ∧ ∃ s out,
      main_loop 4 example_dist (q 2) (encode 4 [[0]; [1]; [2]; [3]]%nat) = Ok s
      ∧ farthest_neighbor 4 example_dist (q 2) (label_vector [1; 2; 3; 4])
        = Ok out
      ∧ ∀ c e, 0 ≤ c < 4 → e ∈ members s.2 c →
          out !! Z.to_nat e = Some (Some (c + 1)).
Proof.
  split; [exact example_valid|].
  destruct (proj1 (labels_are_slot_numbers 4 example_dist (q 2) [1; 2; 3; 4]
                     example_valid))
    as (st0 & s & out & Hfill & Hloop & Hout & _ & Hin & _).
  injection Hfill as <-.
  exists s, out. split; [exact Hloop|]. split; [exact Hout|exact Hin].
Defined.

Lemma merge_absorbs_higher_slot_witness :
  valid_input 4 example_dist [1; 2; 3; 4]
  ∧ ∃ ci cj,
      scan 4 example_dist (cluster_matrix (encode 4 [[0]; [1]; [2]; [3]]%nat))
      = Ok (q 1, (ci, cj))
      ∧ 0 ≤ ci < cj ∧ cj < 4
      ∧ members (encode 4 [[0; 1]; []; [2]; [3]]%nat) cj = [].
Proof.
  split; [exact example_valid|].
  destruct (merge_absorbs_higher_slot 4 example_dist (q 2) [1; 2; 3; 4]
              (encode 4 [[0]; [1]; [2]; [3]]%nat)
              (minus_one, encode 4 [[0]; [1]; [2]; [3]]%nat)
              (q 1, encode 4 [[0; 1]; []; [2]; [3]]%nat)
              example_valid)
    as (ci & cj & Hscan & Hlt & HltN & _ & _ & _ & Hnil & _).
  - vm_compute. reflexivity.
  - apply iterates_refl.
  - vm_compute. reflexivity.
  - vm_compute. reflexivity.
  - vm_compute. reflexivity.
  - exists ci, cj. split; [exact Hscan|]. split; [exact Hlt|].
    split; [exact HltN|exact Hnil].
Defined.


Lemma merge_iff_below_threshold_witness :
  valid_input 4 example_dist [1; 2; 3; 4]
  ∧ ∀ d, (zero ≤ d)%Qc →
      farthest_neighbor 2 (pair_dist d) (q 2) (label_vector [1; 2])
      = Ok (if Qcltb d (q 2) then [Some 1; Some 1] else [Some 1; Some 2]).
Proof.
  split; [exact example_valid|].
  exact (proj2 (proj2 (merge_iff_below_threshold 4 example_dist (q 2)
                         [1; 2; 3; 4] example_valid))).
Defined.

Lemma stable_result_is_fixed_witness :
  valid_input 4 example_dist [1; 1; 3; 3]
  ∧ stable 4 example_dist (q 2) (encode 4 [[0; 1]; []; [2; 3]; []]%nat)
  ∧ ∃ out,
      farthest_neighbor 4 example_dist (q 2) (label_vector [1; 1; 3; 3])
      = Ok (Some <$> out)
      ∧ farthest_neighbor 4 example_dist (q 2) (label_vector out)
        = Ok (Some <$> out)
      ∧ out = [1; 1; 3; 3].
Proof.
  assert (valid_input 4 example_dist [1; 1; 3; 3]) as Hvalid
    by (apply check_input_valid; vm_compute; reflexivity).
  assert (stable (Z.of_nat 4) example_dist (q 2)
            (encode 4 [[0; 1]; []; [2; 3]; []]%nat)) as Hstable
    by (apply check_stable_stable; vm_compute; reflexivity).
  split; [exact Hvalid|]. split; [exact Hstable|].
  apply (stable_result_is_fixed 4 example_dist (q 2) [1; 1; 3; 3]
           (encode 4 [[0; 1]; []; [2; 3]; []]%nat) Hvalid).
  - vm_compute. reflexivity.
  - exact Hstable.
Defined.

(** ** Further properties of [farthest_neighbor] *)

(** *** Labels that are not checked *)

Lemma bind_Fault {A B} (m : result A) (k : A → result B) (f : fault) :
  m = Fault f → m ≫= k = Fault f.
Proof. by intros ->. Qed.

Lemma for_loop_S_always {T} (body : Z → T → result T) (count : nat) (i : Z)
    (s : T) :
  for_loop (S count) i always body s
  = s' ← body i s; for_loop count (i + 1) always body s'.
Proof. done. Qed.

Lemma load_fault {A} (a : list A) (i : Z) :
  ¬ (0 ≤ i < Z.of_nat (length a)) → load a i = Fault OutOfBounds.
Proof.
  intros H. unfold load. case_decide; [|done].
  rewrite lookup_ge_None_2; [done|lia].
Qed.

Section Unchecked.

Variable N : nat.
Variable labels : list Z.
Hypothesis labels_length : length labels = N.
Hypothesis N_fits : Z.of_nat N ≤ INT_MAX.

(** Line 121 for a label outside [1 .. N]: the row does not exist. *)
Lemma fill_step_invalid (M : partition) (e : nat) (l : Z) :
  length M = N → labels !! e = Some l → ¬ (1 ≤ l ≤ Z.of_nat N) →
  fill_step (label_vector labels) (Z.of_nat e) (encode N M)
  = Fault OutOfBounds
  ∨ fill_step (label_vector labels) (Z.of_nat e) (encode N M)
    = Fault IntOverflow.
Proof.
  intros HL Hl Hbad. unfold fill_step.
  rewrite (load_lookup _ e (Qc_of_Z l))
    by (unfold label_vector; by rewrite list_lookup_fmap, Hl).
  rewrite Ok_bind. unfold double_to_int, to_int. simpl Qnum. simpl Qden.
  rewrite Z.quot_1_r. case_decide; [left|by right].
  rewrite Ok_bind. apply bind_Fault, load_fault. simpl.
  rewrite length_fmap. lia.
Qed.

Lemma fill_from_invalid (count k : nat) (M : partition) :
  wf_upto N k M → (k + count = N)%nat →
  (∃ e l, (k ≤ e)%nat ∧ labels !! e = Some l ∧ ¬ (1 ≤ l ≤ Z.of_nat N)) →
  for_loop count (Z.of_nat k) always (fill_step (label_vector labels))
    (encode N M) = Fault OutOfBounds
  ∨ for_loop count (Z.of_nat k) always (fill_step (label_vector labels))
      (encode N M) = Fault IntOverflow.
Proof.
  revert k M. induction count as [|count IH]; intros k M Hwf Hk (e & l & He & Hl & Hbad).
  - apply lookup_lt_Some in Hl. lia.
  - rewrite for_loop_S_always.
    destruct (lookup_lt_is_Some_2 labels k) as [lk Hlk]; [lia|].
    destruct (decide (1 ≤ lk ≤ Z.of_nat N)) as [Hok|Hno].
    + assert (fill_step (label_vector labels) (Z.of_nat k) (encode N M)
              = Ok (encode N (place M (slot_of_label lk) k))) as ->.
      { unfold fill_step.
        destruct Hwf as [HL HP].
        set (c := slot_of_label lk).
        assert (lk - 1 = Z.of_nat c) as Hc by (unfold c, slot_of_label; lia).
        destruct (lookup_lt_is_Some_2 M c) as [mc Hmc]; [lia|].
        pose proof (wf_upto_length N k M c mc (conj HL HP) Hmc) as Hlen.
        rewrite (load_lookup _ k (Qc_of_Z lk))
          by (unfold label_vector; by rewrite list_lookup_fmap, Hlk).
        rewrite Ok_bind, double_to_int_Qc_of_Z, Ok_bind
          by (unfold INT_MIN, INT_MAX in *; lia).
        rewrite Hc. simpl.
        rewrite (load_lookup _ c (row_of N mc))
          by (by rewrite list_lookup_fmap, Hmc).
        rewrite Ok_bind.
        rewrite (load_lookup _ c (Z.of_nat (length mc)))
          by (by rewrite list_lookup_fmap, Hmc).
        rewrite Ok_bind.
        rewrite (store_insert (row_of N mc)) by (rewrite length_row_of; lia).
        rewrite Ok_bind, row_of_snoc by lia.
        rewrite (store_insert (row_of N <$> M)) by (rewrite length_fmap; lia).
        rewrite Ok_bind.
        rewrite store_insert by (rewrite length_fmap; lia).
        rewrite Ok_bind. unfold encode.
        rewrite (live_place M c k mc Hmc). unfold place.
        rewrite (list_lookup_total_correct _ _ _ Hmc), !list_fmap_insert.
        rewrite length_app, Nat2Z.inj_add. done. }
      rewrite Ok_bind.
      replace (Z.of_nat k + 1) with (Z.of_nat (S k)) by lia.
      apply IH.
      * apply wf_upto_place; [done|]. unfold slot_of_label. lia.
      * lia.
      * exists e, l. split_and!; [|done|done].
        destruct (decide (e = k)) as [->|]; [|lia]. simplify_eq. lia.
    + destruct Hwf as [HL _].
      destruct (fill_step_invalid M k lk HL Hlk Hno) as [-> | ->];
        [by left|by right].
Qed.

End Unchecked.

(** X1.  The labels are not checked: when the vector holds a label outside
    [1 .. n], the function never returns labels.  It reaches line 121 with
    that label and indexes [cluster_matrix] outside its rows, or the label
    does not fit in an [int]. *)
Theorem invalid_label_never_returns (N : nat) (dist : list Qc) (thresh : Qc)
    (labels : list Z) :
  length labels = N → Z.of_nat N ≤ INT_MAX →
  ¬ Forall (λ l, 1 ≤ l ≤ Z.of_nat N) labels →
  farthest_neighbor (Z.of_nat N) dist thresh (label_vector labels)
  = Fault OutOfBounds
  ∨ farthest_neighbor (Z.of_nat N) dist thresh (label_vector labels)
    = Fault IntOverflow.
Proof.
  intros Hll HN Hbad.
  apply not_Forall_Exists in Hbad; [|intros l; apply _].
  apply Exists_exists in Hbad as (l & Hin & Hl).
  apply list_elem_of_lookup in Hin as [e He].
  unfold farthest_neighbor, fill_clusters.
  rewrite Nat2Z.id, alloc_state_encode. change 0 with (Z.of_nat 0).
  destruct (fill_from_invalid N labels Hll HN N 0 (replicate N []))
    as [-> | ->]; [apply wf_upto_alloc|lia| |by left|by right].
  exists e, l. split_and!; [lia|done|done].
Qed.

Lemma invalid_label_never_returns_witness :
  length [1; 3] = 2%nat ∧ 2 ≤ INT_MAX
  ∧ (farthest_neighbor 2 (pair_dist (q 1)) (q 2) (label_vector [1; 3])
     = Fault OutOfBounds
     ∨ farthest_neighbor 2 (pair_dist (q 1)) (q 2) (label_vector [1; 3])
       = Fault IntOverflow).
Proof.
  split; [reflexivity|]. split; [vm_compute; discriminate|].
  apply (invalid_label_never_returns 2 (pair_dist (q 1)) (q 2) [1; 3]).
  - reflexivity.
  - vm_compute. discriminate.
  - intros H. apply Forall_cons in H as [_ H].
    apply Forall_cons in H as [H _]. vm_compute in H. destruct H as [_ H].
    apply H. reflexivity.
Defined.

(** *** Inputs that come back unchanged *)

Lemma fill_output_initial (N : nat) (labels : list Z) :
  length labels = N → Z.of_nat N ≤ INT_MAX →
  Forall (λ l, 1 ≤ l ≤ Z.of_nat N) labels →
  fill_output (Z.of_nat N) (cluster_matrix (encode N (initial N labels)))
  = Ok (Some <$> labels).
Proof.
  intros Hll HN Hlr.
  destruct (fill_clusters_initial N labels Hll Hlr HN) as [_ Hwf0].
  change (cluster_matrix (encode N (initial N labels)))
    with (row_of N <$> initial N labels).
  rewrite fill_output_out_of, out_of_labelling by done.
  by rewrite labelling_initial.
Qed.

(** X2.  Filling the clusters from the labels (lines 117-129) and writing
    the output from the clusters (lines 203-211) are inverse to each other:
    without any merge in between, the labels come back as they were
    given. *)
Theorem fill_then_output_is_identity (N : nat) (labels : list Z) (st0 : state) :
  length labels = N → Z.of_nat N ≤ INT_MAX →
  Forall (λ l, 1 ≤ l ≤ Z.of_nat N) labels →
  fill_clusters (Z.of_nat N) (label_vector labels) = Ok st0 →
  fill_output (Z.of_nat N) (cluster_matrix st0) = Ok (Some <$> labels).
Proof.
  intros Hll HN Hlr Hfill.
  destruct (fill_clusters_initial N labels Hll Hlr HN) as [Hfill' _].
  rewrite Hfill in Hfill'. injection Hfill' as ->.
  by apply fill_output_initial.
Qed.

Lemma fill_then_output_is_identity_witness :
  fill_output 4 (cluster_matrix (encode 4 [[0; 1]; []; [2; 3]; []]%nat))
  = Ok (Some <$> [1; 1; 3; 3]).
Proof.
  apply (fill_then_output_is_identity 4 [1; 1; 3; 3]).
  - reflexivity.
  - vm_compute. discriminate.
  - repeat constructor; vm_compute; discriminate.
  - vm_compute. reflexivity.
Defined.

Lemma live_le_one (M : partition) :
  (∀ a b, (a < b < length M)%nat → M !!! a ≠ [] → M !!! b ≠ [] → False) →
  (live M ≤ 1)%nat.
Proof.
  intros H. destruct (decide (1 < live M)%nat) as [Hlive|]; [exfalso|lia].
  destruct (live_two M Hlive) as (a & b & Hab & Ha & Hb). by apply (H a b).
Qed.

Section Unchanged.

Variable N : nat.
Variable dist : list Qc.
Variable thresh : Qc.
Variable labels : list Z.
Hypothesis input_valid : valid_input N dist labels.

Local Abbreviation n := (Z.of_nat N).

(** When no pass can merge, the loop ends on the partition it started
    from and the labels returned are the labels given. *)
Lemma no_merge_returns_input :
  step_invariant N dist thresh (λ _ M, M = initial N labels) →
  (∃ m, main_loop n dist thresh (encode N (initial N labels))
        = Ok (m, encode N (initial N labels)))
  ∧ farthest_neighbor n dist thresh (label_vector labels)
    = Ok (Some <$> labels).
Proof.
  intros Hstep.
  destruct (farthest_neighbor_run N dist thresh labels input_valid
              (λ _ M, M = initial N labels) Hstep eq_refl)
    as (m & M & _ & Hloop & _ & _ & Hwf0 & _ & -> & Hout).
  destruct input_valid as [Hll _ _ Hlr _].
  split; [by exists m|].
  by rewrite Hout, labelling_initial.
Qed.

End Unchanged.

(** X3.  A threshold that is not positive merges nothing: the comparison
    at line 187 is strict and no distance is negative, so the labels
    returned are the labels given, also for individuals at distance 0. *)
Theorem nonpositive_threshold_merges_nothing (N : nat) (dist : list Qc)
    (thresh : Qc) (labels : list Z) :
  valid_input N dist labels → (thresh ≤ zero)%Qc →
  farthest_neighbor (Z.of_nat N) dist thresh (label_vector labels)
  = Ok (Some <$> labels).
Proof.
  intros Hvalid Hthresh.
  apply (no_merge_returns_input N dist thresh labels Hvalid).
  intros m0 M m M' Hwf -> (ci & cj & _ & Hbest & _ & _ & _ & _ & ->).
  destruct (best_of_selected N dist _ (proj1 Hwf) m ci cj Hbest)
    as (_ & _ & _ & _ & Hpos & _).
  replace (Qcltb m thresh) with false; [done|]. symmetry. qc_order.
Qed.

Lemma nonpositive_threshold_merges_nothing_witness :
  valid_input 4 example_dist [1; 2; 3; 4] ∧ (q 0 ≤ zero)%Qc
  ∧ farthest_neighbor 4 example_dist (q 0) (label_vector [1; 2; 3; 4])
    = Ok (Some <$> [1; 2; 3; 4]).
Proof.
  split; [exact example_valid|].
  assert (q 0 ≤ zero)%Qc as H by (vm_compute; discriminate).
  split; [exact H|].
  exact (nonpositive_threshold_merges_nothing 4 example_dist (q 0)
           [1; 2; 3; 4] example_valid H).
Defined.

(** X4.  When every individual is given the same label there is one
    cluster: the main loop makes no pass ([num_clusters] is 1, or 0 without
    individuals) and the labels returned are the labels given, whatever the
    distances and the threshold. *)
Theorem one_cluster_makes_no_pass (N : nat) (dist : list Qc) (thresh : Qc)
    (labels : list Z) (l0 : Z) (st0 : state) :
  valid_input N dist labels →
  labels = replicate N l0 →
  fill_clusters (Z.of_nat N) (label_vector labels) = Ok st0 →
  num_clusters st0 ≤ 1
  ∧ main_loop (Z.of_nat N) dist thresh st0 = Ok (minus_one, st0)
  ∧ farthest_neighbor (Z.of_nat N) dist thresh (label_vector labels)
    = Ok (Some <$> labels).
Proof.
  intros Hvalid Hrep Hfill.
  assert (∀ l l', l ∈ labels → l' ∈ labels → l = l') as Hsame.
  { rewrite Hrep. intros l l' [-> _]%elem_of_replicate [-> _]%elem_of_replicate.
    done. }
  clear Hrep.
  pose proof (valid_N_fits _ _ _ Hvalid) as HN.
  pose proof Hvalid as [Hll Hdl Hidx Hlr Hdn].
  destruct (fill_clusters_initial N labels Hll Hlr HN) as [Hfill' Hwf0].
  rewrite Hfill in Hfill'. injection Hfill' as ->.
  assert (live (initial N labels) ≤ 1)%nat as Hlive.
  { apply live_le_one. intros a b Hab Ha Hb.
    unfold initial in Hab. rewrite initial_upto_length in Hab.
    destruct (initial N labels !!! a) as [|e ma] eqn:Ea; [done|].
    destruct (initial N labels !!! b) as [|e' mb] eqn:Eb; [done|].
    assert (e ∈ initial N labels !!! a) as Hin by (rewrite Ea; by left).
    assert (e' ∈ initial N labels !!! b) as Hin' by (rewrite Eb; by left).
    apply (initial_elem N labels Hll Hlr) in Hin as [He Hl]; [|lia].
    apply (initial_elem N labels Hll Hlr) in Hin' as [He' Hl']; [|lia].
    assert (labels !!! e = labels !!! e') as Heq.
    { apply Hsame; apply list_elem_of_lookup_total_2; lia. }
    lia. }
  assert (main_loop (Z.of_nat N) dist thresh (encode N (initial N labels))
          = Ok (minus_one, encode N (initial N labels))) as Hloop.
  { unfold main_loop. apply while_loop_exit.
    rewrite loop_cond_encode.
    rewrite (bool_decide_eq_false_2 (1 < live _)%nat) by lia.
    by rewrite andb_false_r. }
  split_and!; [simpl; lia|done|].
  unfold farthest_neighbor. rewrite Hfill, Ok_bind, Hloop, Ok_bind.
  by apply fill_output_initial.
Qed.

Lemma one_cluster_makes_no_pass_witness :
  valid_input 4 example_dist [2; 2; 2; 2]
  ∧ farthest_neighbor 4 example_dist (q 9) (label_vector [2; 2; 2; 2])
    = Ok (Some <$> [2; 2; 2; 2]).
Proof.
  assert (valid_input 4 example_dist [2; 2; 2; 2]) as Hvalid
    by (apply check_input_valid; vm_compute; reflexivity).
  split; [exact Hvalid|].
  refine (proj2 (proj2 (one_cluster_makes_no_pass 4 example_dist (q 9)
                  [2; 2; 2; 2] 2 (encode 4 [[]; [0; 1; 2; 3]; []; []]%nat)
                  Hvalid _ _))).
  - reflexivity.
  - vm_compute. reflexivity.
Defined.

(** *** What the merges preserve *)

(** X5.  The function is idempotent on every valid input, whether or not
    its result is stable: the labels it returns are a valid input again,
    and running it on them with the same matrix and threshold returns
    them unchanged. *)
Theorem rerun_is_identity (N : nat) (dist : list Qc) (thresh : Qc)
    (labels : list Z) :
  valid_input N dist labels →
  ∃ out,
    farthest_neighbor (Z.of_nat N) dist thresh (label_vector labels)
    = Ok (Some <$> out)
    ∧ valid_input N dist out
    ∧ farthest_neighbor (Z.of_nat N) dist thresh (label_vector out)
      = Ok (Some <$> out).
Proof.
  intros Hvalid.
  destruct (rerun_returns_same N dist thresh labels Hvalid)
    as (out & Hout & Hvalid' & Hagain & _).
  by exists out.
Qed.

Lemma rerun_is_identity_witness :
  valid_input 3 skipped_dist [1; 2; 3]
  ∧ ∃ out,
      farthest_neighbor 3 skipped_dist (q 6) (label_vector [1; 2; 3])
      = Ok (Some <$> out)
      ∧ farthest_neighbor 3 skipped_dist (q 6) (label_vector out)
        = Ok (Some <$> out).
Proof.
  assert (valid_input 3 skipped_dist [1; 2; 3]) as Hvalid
    by (apply check_input_valid; vm_compute; reflexivity).
  split; [exact Hvalid|].
  destruct (rerun_is_identity 3 skipped_dist (q 6) [1; 2; 3] Hvalid)
    as (out & Hout & _ & Hagain).
  exists out. split; [exact Hout|exact Hagain].
Defined.

(** Two individuals that are in one slot. *)
Definition together (a b : nat) (M : partition) : Prop :=
  ∃ c, a ∈ M !!! c ∧ b ∈ M !!! c.

Lemma together_merge (N : nat) (dist : list Qc) (thresh : Qc) (a b : nat) :
  merge_invariant N dist thresh (together a b).
Proof.
  intros M ci cj [HL _] (c & Ha & Hb) (Hlt & _).
  destruct (decide (c = cj)) as [->|Hcj].
  - exists ci. rewrite pmerge_lookup by lia.
    rewrite decide_False, decide_True by (done || lia).
    split; apply elem_of_app; by right.
  - destruct (decide (c = ci)) as [->|Hci].
    + exists ci. rewrite pmerge_lookup by lia.
      rewrite decide_False, decide_True by (done || lia).
      split; apply elem_of_app; by left.
    + exists c. rewrite pmerge_lookup by lia.
      by rewrite !decide_False by done.
Qed.

(** X6.  The function only joins clusters, it never splits one: two
    individuals that are given the same label are returned the same
    label. *)
Theorem same_label_stays_together (N : nat) (dist : list Qc) (thresh : Qc)
    (labels : list Z) (a b : nat) (l : Z) :
  valid_input N dist labels →
  labels !! a = Some l → labels !! b = Some l →
  ∃ out l',
    farthest_neighbor (Z.of_nat N) dist thresh (label_vector labels)
    = Ok (Some <$> out)
    ∧ out !! a = Some l' ∧ out !! b = Some l'.
Proof.
  intros Hvalid Ha Hb. pose proof Hvalid as [Hll Hdl Hidx Hlr Hdn].
  pose proof (lookup_lt_Some _ _ _ Ha) as HaN.
  pose proof (lookup_lt_Some _ _ _ Hb) as HbN.
  pose proof (Forall_lookup_1 _ _ _ _ Hlr Ha) as Hr. simpl in Hr.
  destruct (farthest_neighbor_run N dist thresh labels Hvalid
              (λ _, together a b))
    as (m & M & _ & _ & _ & _ & _ & Hwf & (c & Hac & Hbc) & Hout).
  { by apply merge_step_invariant, together_merge. }
  { exists (Z.to_nat (l - 1)).
    split; apply (initial_elem N labels Hll Hlr); try lia;
      (split; [lia|]); rewrite (list_lookup_total_correct _ _ _ Ha)
        || rewrite (list_lookup_total_correct _ _ _ Hb); lia. }
  assert (c < length M)%nat as Hc.
  { destruct (decide (c < length M)%nat); [done|].
    rewrite lookup_total_ge in Hac by lia. by apply elem_of_nil in Hac. }
  pose proof (lookup_total_lt M c Hc) as Hmc.
  exists (labelling N M), (Z.of_nat c + 1).
  split_and!; [done| |]; by apply (labelling_lookup N M c (M !!! c)).
Qed.

Lemma same_label_stays_together_witness :
  valid_input 4 example_dist [1; 1; 3; 3]
  ∧ ∃ out l',
      farthest_neighbor 4 example_dist (q 2) (label_vector [1; 1; 3; 3])
      = Ok (Some <$> out)
      ∧ out !! 2%nat = Some l' ∧ out !! 3%nat = Some l'.
Proof.
  assert (valid_input 4 example_dist [1; 1; 3; 3]) as Hvalid
    by (apply check_input_valid; vm_compute; reflexivity).
  split; [exact Hvalid|].
  apply (same_label_stays_together 4 example_dist (q 2) [1; 1; 3; 3]
           2 3 3 Hvalid); reflexivity.
Defined.

Lemma live_two_slots (M : partition) (c c' : nat) :
  c ≠ c' → (c < length M)%nat → (c' < length M)%nat →
  M !!! c ≠ [] → M !!! c' ≠ [] → (2 ≤ live M)%nat.
Proof.
  intros Hne Hc Hc' Hm Hm'.
  pose proof (live_insert M c (M !!! c) [] (lookup_total_lt M c Hc)) as H1.
  assert (<[c := []]> M !! c' = Some (M !!! c')) as Hl
    by (rewrite list_lookup_insert_ne by done; by apply lookup_total_lt).
  pose proof (live_insert _ c' (M !!! c') [] Hl) as H2.
  unfold occupied in *.
  rewrite (decide_True (P := M !!! c ≠ [])) in H1 by done.
  rewrite (decide_True (P := M !!! c' ≠ [])) in H2 by done.
  rewrite (decide_False (P := [] ≠ [])) in H1, H2 by (by intros ?).
  lia.
Qed.

Lemma step_invariant_and (N : nat) (dist : list Qc) (thresh : Qc)
    (P Q : Qc → partition → Prop) :
  step_invariant N dist thresh P → step_invariant N dist thresh Q →
  step_invariant N dist thresh (λ m M, P m M ∧ Q m M).
Proof.
  intros HP HQ m0 M m M' Hwf [HPM HQM] Hstep.
  split; [by eapply HP|by eapply HQ].
Qed.

Lemma no_individuals (dist mlg : list Qc) (thresh : Qc) :
  farthest_neighbor 0 dist thresh mlg = Ok [].
Proof.
  unfold farthest_neighbor, fill_clusters, main_loop. simpl for_loop.
  rewrite Ok_bind. rewrite while_loop_exit; [done|].
  unfold loop_cond. simpl. by rewrite andb_false_r.
Qed.

(** X7.  When every entry of the matrix is below the threshold, the loop
    only stops with one cluster: all the individuals are returned the same
    label, the least of the labels given. *)
Theorem all_below_threshold_collapses (N : nat) (dist : list Qc)
    (thresh : Qc) (labels : list Z) :
  valid_input N dist labels →
  Forall (λ d, (d < thresh)%Qc) dist →
  ∃ l,
    farthest_neighbor (Z.of_nat N) dist thresh (label_vector labels)
    = Ok (replicate N (Some l))
    ∧ ∀ l', l' ∈ labels → l ∈ labels ∧ l ≤ l'.
Proof.
  intros Hvalid Hbelow. pose proof Hvalid as [Hll Hdl Hidx Hlr Hdn].
  destruct N as [|N'].
  { exists 0. destruct labels; [|done]. split; [apply no_individuals|].
    by intros l' ?%elem_of_nil. }
  set (N := S N') in *.
  assert (zero < thresh)%Qc as Hpos.
  { destruct dist as [|d0 dist']; [done|].
    apply Forall_cons in Hbelow as [Hd0 _]. apply Forall_cons in Hdn as [Hd0' _].
    qc_order. }
  assert (∀ u v, (D N dist u v < thresh)%Qc) as HD.
  { intros u v. unfold D. destruct (dist !! _) as [d|] eqn:E; simpl.
    - by apply (Forall_lookup_1 _ _ _ _ Hbelow E).
    - qc_order. }
  destruct (farthest_neighbor_run N dist thresh labels Hvalid
              (λ m M, (m < thresh)%Qc ∧ lowest_label labels M))
    as (m & M & _ & _ & _ & Hcond & _ & Hwf & [Hm Hlow] & Hout).
  { apply step_invariant_and;
      [|apply merge_step_invariant, lowest_label_merge].
    intros m0 M m M' Hwf _ (ci & cj & _ & _ & _ & _ & _ & -> & _).
    unfold acc.
    destruct (foldl_upd_in minus_one (link N dist M ci cj)) as [->|Hin];
      [qc_order|].
    apply link_elem in Hin as (u & v & _ & _ & ->). apply HD. }
  { split; [qc_order|by apply initial_lowest_label]. }
  rewrite loop_cond_encode in Hcond. injection Hcond as Hcond.
  apply Qcltb_lt in Hm. rewrite Hm in Hcond. simpl in Hcond.
  apply bool_decide_eq_false in Hcond.
  pose proof Hwf as [HL _].
  destruct (wf_elem_slot N M 0 Hwf ltac:(lia)) as (c & mc & Hc & Hin0).
  pose proof (lookup_lt_Some _ _ _ Hc) as HcN.
  assert (∀ e, (e < N)%nat → e ∈ mc) as Hall.
  { intros e He.
    destruct (wf_elem_slot N M e Hwf He) as (c' & mc' & Hc' & Hin).
    destruct (decide (c' = c)) as [->|Hne]; [by simplify_eq|exfalso].
    pose proof (lookup_lt_Some _ _ _ Hc') as Hc'N.
    apply Hcond.
    apply (live_two_slots M c' c Hne Hc'N HcN).
    - rewrite (lookup_total_Some _ _ _ Hc'). by intros ->; apply elem_of_nil in Hin.
    - rewrite (lookup_total_Some _ _ _ Hc). by intros ->; apply elem_of_nil in Hin0. }
  exists (Z.of_nat c + 1). split.
  - rewrite Hout. f_equal. apply list_eq. intros e.
    rewrite list_lookup_fmap.
    destruct (decide (e < N)%nat) as [He|He].
    + rewrite (labelling_lookup N M c mc e Hwf Hc (Hall e He)).
      by rewrite lookup_replicate_2.
    + rewrite !lookup_ge_None_2; [done| |];
        rewrite ?length_replicate, ?length_labelling; lia.
  - intros l' Hl'. destruct (Hlow c mc Hc) as [Hge Hex].
    destruct Hex as (e & He & Hle); [by intros ->; apply elem_of_nil in Hin0|].
    pose proof (wf_upto_elem N N M c mc e Hwf Hc He) as HeN.
    split.
    + rewrite <- Hle. apply list_elem_of_lookup_total_2. lia.
    + apply list_elem_of_lookup in Hl' as [e' He'].
      pose proof (lookup_lt_Some _ _ _ He') as He'N.
      specialize (Hge e' (Hall e' ltac:(lia))).
      by rewrite (list_lookup_total_correct _ _ _ He') in Hge.
Qed.

Lemma all_below_threshold_collapses_witness :
  valid_input 4 example_dist [2; 1; 3; 4]
  ∧ Forall (λ d, (d < q 6)%Qc) example_dist
  ∧ ∃ l, farthest_neighbor 4 example_dist (q 6) (label_vector [2; 1; 3; 4])
         = Ok (replicate 4 (Some l)).
Proof.
  assert (valid_input 4 example_dist [2; 1; 3; 4]) as Hvalid
    by (apply check_input_valid; vm_compute; reflexivity).
  assert (Forall (λ d, (d < q 6)%Qc) example_dist) as Hbelow
    by (repeat constructor).
  split; [exact Hvalid|]. split; [exact Hbelow|].
  destruct (all_below_threshold_collapses 4 example_dist (q 6) [2; 1; 3; 4]
              Hvalid Hbelow) as (l & Hout & _).
  exists l. exact Hout.
Defined.

(** *** Which pair a scan retains *)

Section Neighbours.

Variable N : nat.
Variable dist : list Qc.
Hypothesis dist_nonneg : Forall (λ d, (zero ≤ d)%Qc) dist.
Variable M : partition.

Lemma val_le (i j k : nat) :
  (i ≤ j ≤ k)%nat → (val N dist M i j ≤ val N dist M i k)%Qc.
Proof.
  intros [Hij Hjk]. induction k as [|k IH].
  - assert (j = 0)%nat as -> by lia. apply Qcle_refl.
  - destruct (decide (j = S k)) as [->|]; [apply Qcle_refl|].
    eapply Qcle_trans; [apply IH; lia|]. apply val_mono. lia.
Qed.

(** Empty slots leave [tmp_max] at [-1]. *)
Lemma val_gap (i j : nat) :
  (∀ c, (i < c ≤ j)%nat → M !!! c = []) → val N dist M i j = minus_one.
Proof.
  induction j as [|j IH]; intros H; [apply val_start; lia|].
  destruct (decide (i ≤ j)%nat) as [Hij|]; [|apply val_start; lia].
  rewrite val_S by done. rewrite IH by (intros; apply H; lia).
  unfold acc. rewrite (proj2 (link_nil N dist M i (S j))); [done|].
  right. apply H. lia.
Qed.

Lemma val_neighbour (i j : nat) :
  (i < j)%nat → (∀ c, (i < c < j)%nat → M !!! c = []) →
  val N dist M i j = acc N dist M i j minus_one.
Proof.
  intros Hij H. destruct j as [|j]; [lia|].
  rewrite val_S by lia. by rewrite val_gap by (intros; apply H; lia).
Qed.

(** The retained pair has no occupied slot between its two slots. *)
Lemma best_of_gap (m : Qc) (ci cj c : nat) :
  length M = N →
  best_of N dist M (λ a b, (a < b < N)%nat) m (Z.of_nat ci, Z.of_nat cj) →
  (ci < c < cj)%nat → M !!! c = [].
Proof.
  intros HL Hbest Hc.
  destruct (best_of_selected N dist M HL m ci cj Hbest)
    as (Hlt & Hi & _ & _ & _ & Hval).
  destruct Hbest as [(? & _)|(ci' & cj' & E & _ & _ & _ & H)];
    [simplify_eq; lia|].
  assert (ci' = ci ∧ cj' = cj) as [-> ->] by (simplify_eq; lia).
  destruct (M !!! c) as [|x mc] eqn:Ec; [done|exfalso].
  pose proof (val_nonneg N dist dist_nonneg M ci c ltac:(lia) Hi
                ltac:(by rewrite Ec)) as Hpos.
  pose proof (val_le ci c cj ltac:(lia)) as Hle.
  destruct (H ci c) as [Hno|[_ Hless]]; [lia| |].
  - rewrite Hno in Hpos. qc_order.
  - specialize (Hless ltac:(unfold before; lia)). rewrite <- Hval in Hle.
    qc_order.
Qed.

End Neighbours.

(** X8.  In every pass of a run on a valid input the scan retains two
    occupied slots with no occupied slot between them, at their
    complete-linkage distance.  Among all such pairs of neighbouring
    occupied slots the retained one has the least complete-linkage distance,
    and every such pair that starts at a lower slot has a strictly greater
    one.  Two occupied slots that have an occupied slot between them are
    never retained, whatever their distance. *)
Theorem scan_retains_nearest_neighbours (N : nat) (dist : list Qc)
    (thresh : Qc) (labels : list Z) (st0 : state) (s : Qc * state) :
  valid_input N dist labels →
  fill_clusters (Z.of_nat N) (label_vector labels) = Ok st0 →
  iterates (loop_cond thresh) (loop_body (Z.of_nat N) dist thresh)
    (minus_one, st0) s →
  loop_cond thresh s = Ok true →
  ∃ m ci cj,
    scan (Z.of_nat N) dist (cluster_matrix s.2) = Ok (m, (ci, cj))
    ∧ 0 ≤ ci < cj ∧ cj < Z.of_nat N
    ∧ members s.2 ci ≠ [] ∧ members s.2 cj ≠ []
    ∧ (∀ c, ci < c < cj → members s.2 c = [])
    ∧ complete_linkage (Z.of_nat N) dist s.2 ci cj = Some m
    ∧ ∀ a b, 0 ≤ a < b → b < Z.of_nat N →
        members s.2 a ≠ [] → members s.2 b ≠ [] →
        (∀ c, a < c < b → members s.2 c = []) →
        ∃ x, complete_linkage (Z.of_nat N) dist s.2 a b = Some x
             ∧ (m ≤ x)%Qc ∧ (a < ci → (m < x)%Qc).
Proof.
  intros Hvalid Hfill Hit Hcond.
  destruct (reachable_pass N dist thresh labels Hvalid st0 s Hfill Hit Hcond)
    as (m0 & M & m & M' & -> & Hwf & _ & Hstep).
  pose proof Hvalid as [Hll Hdl Hidx Hlr Hdn]. pose proof Hwf as [HL _].
  destruct Hstep as (ci & cj & Hscan & Hbest & Hij & Hi & Hj & Hm & _).
  exists m, (Z.of_nat ci), (Z.of_nat cj). cbn [fst snd].
  assert (∀ c, 0 ≤ c < Z.of_nat N →
               members (encode N M) c ≠ [] ↔ M !!! Z.to_nat c ≠ []) as Hocc.
  { intros c Hc. by rewrite (members_nil N M c HL Hc). }
  split_and!; try done; try lia.
  - apply Hocc; [lia|]. by rewrite Nat2Z.id.
  - apply Hocc; [lia|]. by rewrite Nat2Z.id.
  - intros c Hc. apply (members_nil N M c HL); [lia|].
    apply (best_of_gap N dist Hdn M m ci cj); [done|done|lia].
  - rewrite Hm. apply complete_linkage_acc; (done || lia).
  - intros a b Hab HbN Ha Hb Hgap.
    apply Hocc in Ha, Hb; [|lia..].
    exists (acc N dist M (Z.to_nat a) (Z.to_nat b) minus_one).
    assert (complete_linkage (Z.of_nat N) dist (encode N M) a b
            = Some (acc N dist M (Z.to_nat a) (Z.to_nat b) minus_one)) as Hcl.
    { rewrite <- (Z2Nat.id a) at 1 by lia. rewrite <- (Z2Nat.id b) at 1 by lia.
      apply complete_linkage_acc; (done || lia). }
    split; [done|].
    assert (val N dist M (Z.to_nat a) (Z.to_nat b)
            = acc N dist M (Z.to_nat a) (Z.to_nat b) minus_one) as Hval.
    { apply val_neighbour; [lia|]. intros c Hc.
      rewrite <- (Nat2Z.id c).
      apply (members_nil N M (Z.of_nat c) HL); [lia|]. apply Hgap. lia. }
    assert (zero ≤ val N dist M (Z.to_nat a) (Z.to_nat b))%Qc as Hpos
      by (apply val_nonneg; (done || lia)).
    destruct Hbest as [(? & _)|(ci' & cj' & E & _ & _ & _ & H)];
      [simplify_eq; lia|].
    assert (ci' = ci ∧ cj' = cj) as [-> ->] by (simplify_eq; lia).
    destruct (H (Z.to_nat a) (Z.to_nat b)) as [Hno|[Hle Hless]]; [lia| |].
    + rewrite Hno in Hpos. qc_order.
    + rewrite <- Hval. split; [done|].
      intros Hlow. apply Hless. unfold before. lia.
Qed.

Lemma scan_retains_nearest_neighbours_witness :
  valid_input 4 example_dist [1; 2; 3; 4]
  ∧ ∃ m ci cj,
      scan 4 example_dist
        (cluster_matrix (encode 4 [[0; 1]; []; [2]; [3]]%nat))
      = Ok (m, (ci, cj))
      ∧ ∀ c, ci < c < cj →
          members (encode 4 [[0; 1]; []; [2]; [3]]%nat) c = [].
Proof.
  split; [exact example_valid|].
  destruct (scan_retains_nearest_neighbours 4 example_dist (q 2)
              [1; 2; 3; 4] (encode 4 [[0]; [1]; [2]; [3]]%nat)
              (q 1, encode 4 [[0; 1]; []; [2]; [3]]%nat) example_valid)
    as (m & ci & cj & Hscan & _ & _ & _ & _ & Hgap & _).
  - vm_compute. reflexivity.
  - apply (iterates_step _ _ _ (q 1, encode 4 [[0; 1]; []; [2]; [3]]%nat));
      [vm_compute; reflexivity|vm_compute; reflexivity|apply iterates_refl].
  - vm_compute. reflexivity.
  - exists m, ci, cj. split; [exact Hscan|exact Hgap].
Defined.

(** X9.  The tie-break of line 174 on the values the scan compares: in
    every pass of a run on a valid input, the value retained is the least of
    the values [compared] of all the pairs that had one, and every pair
    checked before the retained pair (in ascending order of [i], then [j])
    had a strictly greater value or none: the comparison is strict, so
    the first pair with the least compared value is the one retained. *)
Theorem first_least_compared_value_wins (N : nat) (dist : list Qc)
    (thresh : Qc) (labels : list Z) (st0 : state) (s : Qc * state) :
  valid_input N dist labels →
  fill_clusters (Z.of_nat N) (label_vector labels) = Ok st0 →
  iterates (loop_cond thresh) (loop_body (Z.of_nat N) dist thresh)
    (minus_one, st0) s →
  loop_cond thresh s = Ok true →
  ∃ m ci cj,
    scan (Z.of_nat N) dist (cluster_matrix s.2) = Ok (m, (ci, cj))
    ∧ compared (Z.of_nat N) dist (cluster_matrix s.2) ci cj = Ok m
    ∧ (minus_half < m)%Qc
    ∧ ∀ a b, 0 ≤ a < b → b < Z.of_nat N →
        ∃ v, compared (Z.of_nat N) dist (cluster_matrix s.2) a b = Ok v
             ∧ ((minus_half < v)%Qc →
                (m ≤ v)%Qc
                ∧ (a < ci ∨ (a = ci ∧ b < cj) → (m < v)%Qc)).
Proof.
  intros Hvalid Hfill Hit Hcond.
  destruct (first_least_compared_is_retained N dist thresh labels st0 s
              Hvalid Hfill Hit Hcond)
    as (_ & m & ci & cj & s' & Hscan & _ & _ & Hcmp & Hm & Hall & _).
  by exists m, ci, cj.
Qed.

Lemma first_least_compared_value_wins_witness :
  valid_input 4 example_dist [1; 2; 3; 4]
  ∧ ∃ m ci cj,
      scan 4 example_dist (cluster_matrix (encode 4 [[0]; [1]; [2]; [3]]%nat))
      = Ok (m, (ci, cj))
      ∧ compared 4 example_dist
          (cluster_matrix (encode 4 [[0]; [1]; [2]; [3]]%nat)) ci cj
        = Ok m.
Proof.
  split; [exact example_valid|].
  destruct (first_least_compared_value_wins 4 example_dist (q 2)
              [1; 2; 3; 4] (encode 4 [[0]; [1]; [2]; [3]]%nat)
              (minus_one, encode 4 [[0]; [1]; [2]; [3]]%nat) example_valid)
    as (m & ci & cj & Hscan & Hcmp & _).
  - vm_compute. reflexivity.
  - apply iterates_refl.
  - vm_compute. reflexivity.
  - exists m, ci, cj. split; [exact Hscan|exact Hcmp].
Defined.

(** *** The arrays *)

(** What the loops of the function rely on: [num_mlgs] rows of
    [num_individuals] cells, in each row [cluster_size] individuals followed
    by [-1] in every other cell, sizes that add up to [num_individuals],
    and [num_clusters] the number of rows that hold an individual. *)
Definition well_shaped (n : Z) (st : state) : Prop :=
  Z.of_nat (length (cluster_matrix st)) = n
  ∧ Z.of_nat (length (cluster_size st)) = n
  ∧ (∀ c row sz,
       cluster_matrix st !! c = Some row → cluster_size st !! c = Some sz →
       Z.of_nat (length row) = n ∧ 0 ≤ sz ≤ n
       ∧ ∀ k x, row !! k = Some x →
           if decide (Z.of_nat k < sz) then 0 ≤ x < n else x = -1)
  ∧ foldr Z.add 0 (cluster_size st) = n
  ∧ num_clusters st
    = Z.of_nat (length (filter (λ sz, 0 < sz) (cluster_size st))).

Lemma length_concat_sizes (M : partition) :
  foldr Z.add 0 ((λ m, Z.of_nat (length m)) <$> M)
  = Z.of_nat (length (concat M)).
Proof.
  induction M as [|m M IH]; [done|].
  rewrite fmap_cons. cbn [foldr concat]. rewrite IH, length_app. lia.
Qed.

Lemma live_sizes (M : partition) :
  live M
  = length (filter (λ sz, 0 < sz) ((λ m, Z.of_nat (length m)) <$> M)).
Proof.
  induction M as [|m M IH]; [done|].
  rewrite live_cons, fmap_cons, filter_cons, IH. unfold occupied.
  destruct m; simpl; repeat case_decide; (done || lia).
Qed.

Lemma encode_well_shaped (N : nat) (M : partition) :
  wf N M → well_shaped (Z.of_nat N) (encode N M).
Proof.
  intros Hwf. pose proof Hwf as [HL HP]. unfold well_shaped, encode.
  cbn [cluster_matrix cluster_size num_clusters].
  split_and!.
  - rewrite length_fmap. lia.
  - rewrite length_fmap. lia.
  - intros c row sz Hrow Hsz.
    rewrite list_lookup_fmap in Hrow. rewrite list_lookup_fmap in Hsz.
    destruct (M !! c) as [m|] eqn:Hm; [|done]. simpl in Hrow, Hsz.
    injection Hrow as <-. injection Hsz as <-.
    pose proof (wf_upto_length N N M c m Hwf Hm) as Hlen.
    split_and!; [by rewrite length_row_of|lia|lia|].
    intros k x Hk. unfold row_of in Hk. case_decide.
    + rewrite lookup_app_l in Hk by (rewrite length_fmap; lia).
      rewrite list_lookup_fmap in Hk.
      destruct (m !! k) as [e|] eqn:He; [|done]. injection Hk as <-.
      pose proof (wf_upto_elem N N M c m e Hwf Hm
                    (list_elem_of_lookup_2 _ _ _ He)). lia.
    + rewrite lookup_app_r in Hk by (rewrite length_fmap; lia).
      by apply lookup_replicate in Hk as [-> _].
  - rewrite length_concat_sizes. apply Permutation_length in HP.
    rewrite length_seq in HP. lia.
  - by rewrite live_sizes.
Qed.

(** X10.  For a valid input the arrays keep their shape in every state of
    the main loop: each row holds [cluster_size] individuals in its first
    cells and [-1] in all the others, the sizes add up to the number of
    individuals, and [num_clusters] is the number of rows with a positive
    size. *)
Theorem arrays_keep_their_shape (N : nat) (dist : list Qc) (thresh : Qc)
    (labels : list Z) (st0 : state) (s : Qc * state) :
  valid_input N dist labels →
  fill_clusters (Z.of_nat N) (label_vector labels) = Ok st0 →
  iterates (loop_cond thresh) (loop_body (Z.of_nat N) dist thresh)
    (minus_one, st0) s →
  well_shaped (Z.of_nat N) s.2.
Proof.
  intros Hvalid Hfill Hit.
  destruct (reachable_stores N dist thresh labels Hvalid st0 s Hfill Hit)
    as (m0 & M & -> & Hwf).
  by apply encode_well_shaped.
Qed.

Lemma arrays_keep_their_shape_witness :
  valid_input 4 example_dist [1; 2; 3; 4]
  ∧ well_shaped 4 (encode 4 [[0; 1]; []; [2]; [3]]%nat).
Proof.
  split; [exact example_valid|].
  apply (arrays_keep_their_shape 4 example_dist (q 2) [1; 2; 3; 4]
           (encode 4 [[0]; [1]; [2]; [3]]%nat)
           (q 1, encode 4 [[0; 1]; []; [2]; [3]]%nat) example_valid).
  - vm_compute. reflexivity.
  - apply (iterates_step _ _ _ (q 1, encode 4 [[0; 1]; []; [2]; [3]]%nat));
      [vm_compute; reflexivity|vm_compute; reflexivity|apply iterates_refl].
Defined.

(** *** What the result depends on *)

Lemma for_loop_ext {T} (cond : Z → T → result bool)
    (body body' : Z → T → result T) (count : nat) (lo : Z) (s : T) :
  (∀ k s, lo ≤ k < lo + Z.of_nat count → body k s = body' k s) →
  for_loop count lo cond body s = for_loop count lo cond body' s.
Proof.
  revert lo s. induction count as [|c IH]; intros lo s Hb; [done|].
  cbn [for_loop]. destruct (cond lo s) as [[]|]; [|done..].
  rewrite !Ok_bind, Hb by lia.
  destruct (body' lo s) as [s'|]; [|done].
  rewrite !Ok_bind. apply IH. intros. apply Hb. lia.
Qed.

(** X11.  The label vector is read through the implicit cast of line 119
    and only in its first [n] entries: two vectors whose first [n] entries
    truncate to the same [int] (or are missing at the same places) give the
    same result, whatever the fractions and whatever follows the first [n]
    entries. *)
Theorem labels_are_read_truncated (N : nat) (dist : list Qc) (thresh : Qc)
    (mlg mlg' : list Qc) :
  (∀ i, (i < N)%nat →
        double_to_int <$> (mlg !! i) = double_to_int <$> (mlg' !! i)) →
  farthest_neighbor (Z.of_nat N) dist thresh mlg
  = farthest_neighbor (Z.of_nat N) dist thresh mlg'.
Proof.
  intros H. unfold farthest_neighbor, fill_clusters. rewrite Nat2Z.id.
  rewrite (for_loop_ext _ (fill_step mlg) (fill_step mlg')); [done|].
  intros k s Hk. unfold fill_step, load.
  specialize (H (Z.to_nat k) ltac:(lia)).
  rewrite !decide_True by lia.
  destruct (mlg !! Z.to_nat k) as [x|], (mlg' !! Z.to_nat k) as [y|];
    try done.
  injection H as H. by rewrite !Ok_bind, H.
Qed.

Lemma labels_are_read_truncated_witness :
  farthest_neighbor 2 (pair_dist (q 1)) (q 2)
    [Qcmake (3 # 2) eq_refl; Qcmake (5 # 2) eq_refl; q 7]
  = farthest_neighbor 2 (pair_dist (q 1)) (q 2) [q 1; q 2].
Proof.
  apply (labels_are_read_truncated 2).
  intros i Hi. destruct i as [|[|i]]; [reflexivity|reflexivity|lia].
Defined.

(** A vector shorter than [n]: line 119 reads past its end. *)
Lemma fill_step_outcome (mlg : list Qc) (k : Z) (st : state) :
  (∃ st', fill_step mlg k st = Ok st')
  ∨ fill_step mlg k st = Fault OutOfBounds
  ∨ fill_step mlg k st = Fault IntOverflow.
Proof.
  unfold fill_step.
  destruct (load mlg k) as [x|f] eqn:E1.
  2:{ unfold load in E1. repeat case_match; simplify_eq; by right; left. }
  rewrite Ok_bind.
  destruct (double_to_int x) as [c|f] eqn:E2.
  2:{ unfold double_to_int, to_int in E2. repeat case_match; simplify_eq.
      by right; right. }
  rewrite Ok_bind.
  destruct (load (cluster_matrix st) (c - 1)) as [row|f] eqn:E3.
  2:{ unfold load in E3. repeat case_match; simplify_eq; by right; left. }
  rewrite Ok_bind.
  destruct (load (cluster_size st) (c - 1)) as [sz|f] eqn:E4.
  2:{ unfold load in E4. repeat case_match; simplify_eq; by right; left. }
  rewrite Ok_bind.
  destruct (store row sz k) as [row'|f] eqn:E5.
  2:{ unfold store in E5. repeat case_match; simplify_eq; by right; left. }
  rewrite Ok_bind.
  destruct (store (cluster_matrix st) (c - 1) row') as [cm'|f] eqn:E6.
  2:{ unfold store in E6. repeat case_match; simplify_eq; by right; left. }
  rewrite Ok_bind.
  destruct (store (cluster_size st) (c - 1) (sz + 1)) as [cs'|f] eqn:E7.
  2:{ unfold store in E7. repeat case_match; simplify_eq; by right; left. }
  rewrite Ok_bind. left. by eexists.
Qed.

Lemma fill_past_the_end (mlg : list Qc) (count : nat) (lo : Z) (st : state) :
  0 ≤ lo ≤ Z.of_nat (length mlg) →
  Z.of_nat (length mlg) < lo + Z.of_nat count →
  for_loop count lo always (fill_step mlg) st = Fault OutOfBounds
  ∨ for_loop count lo always (fill_step mlg) st = Fault IntOverflow.
Proof.
  revert lo st. induction count as [|c IH]; intros lo st Hlo Hlen.
  - left. exfalso. lia.
  - rewrite for_loop_S_always.
    destruct (decide (lo < Z.of_nat (length mlg))) as [Hin|Hout].
    + destruct (fill_step_outcome mlg lo st) as [[st' ->]|[-> | ->]];
        [|by left|by right].
      rewrite Ok_bind. apply IH; lia.
    + left. apply bind_Fault. unfold fill_step.
      apply bind_Fault, load_fault. lia.
Qed.

(** X12.  The length of the label vector is not checked against the
    dimension of the matrix: with fewer than [n] labels the function never
    returns labels.  The filling loop runs to [n] and line 119 reads past
    the end of the vector, unless an earlier label has already sent line
    121 out of bounds. *)
Theorem short_label_vector_never_returns (N : nat) (dist : list Qc)
    (thresh : Qc) (mlg : list Qc) :
  (length mlg < N)%nat →
  farthest_neighbor (Z.of_nat N) dist thresh mlg = Fault OutOfBounds
  ∨ farthest_neighbor (Z.of_nat N) dist thresh mlg = Fault IntOverflow.
Proof.
  intros Hlen. unfold farthest_neighbor, fill_clusters. rewrite Nat2Z.id.
  destruct (fill_past_the_end mlg N 0 (alloc_state (Z.of_nat N)))
    as [-> | ->]; [lia|lia|by left|by right].
Qed.

Lemma short_label_vector_never_returns_witness :
  farthest_neighbor 2 (pair_dist (q 1)) (q 2) [q 1] = Fault OutOfBounds
  ∨ farthest_neighbor 2 (pair_dist (q 1)) (q 2) [q 1] = Fault IntOverflow.
Proof.
  apply (short_label_vector_never_returns 2). simpl. lia.
Defined.

(** X13.  With no individuals (a 0 by 0 matrix) no loop body runs and the
    function returns the empty vector, whatever the other arguments
    hold. *)
Theorem no_individuals_returns_empty (dist mlg : list Qc) (thresh : Qc) :
  fill_clusters 0 mlg = Ok (State [] [] 0)
  ∧ main_loop 0 dist thresh (State [] [] 0) = Ok (minus_one, State [] [] 0)
  ∧ farthest_neighbor 0 dist thresh mlg = Ok [].
Proof.
  split_and!; [done| |apply no_individuals].
  unfold main_loop. rewrite while_loop_exit; [done|].
  unfold loop_cond. simpl. by rewrite andb_false_r.
Qed.

(** *** The diagonal of the matrix *)

Lemma bind_ext_in {A B} (f g : A → list B) (l : list A) :
  (∀ x, x ∈ l → f x = g x) → l ≫= f = l ≫= g.
Proof.
  induction l as [|x l IH]; intros H; [done|].
  rewrite !bind_cons, H, IH; [done| |apply list_elem_of_here].
  intros y Hy. apply H. by apply list_elem_of_further.
Qed.

Lemma fmap_ext_in {A B} (f g : A → B) (l : list A) :
  (∀ x, x ∈ l → f x = g x) → f <$> l = g <$> l.
Proof.
  induction l as [|x l IH]; intros H; [done|].
  rewrite !fmap_cons, H, IH; [done| |apply list_elem_of_here].
  intros y Hy. apply H. by apply list_elem_of_further.
Qed.

Lemma foldl_ext_in {A B} (f g : A → B → A) (a : A) (l : list B) :
  (∀ a x, x ∈ l → f a x = g a x) → foldl f a l = foldl g a l.
Proof.
  revert a. induction l as [|x l IH]; intros a H; [done|].
  simpl. rewrite H by apply list_elem_of_here.
  apply IH. intros a' y Hy. apply H. by apply list_elem_of_further.
Qed.

Section Diagonal.

Variable N : nat.
Variables dist dist' : list Qc.
Variable thresh : Qc.

Hypothesis off_diagonal :
  ∀ u v, (u < N)%nat → (v < N)%nat → u ≠ v → D N dist u v = D N dist' u v.

Local Abbreviation n := (Z.of_nat N).

Lemma link_off_diagonal (M : partition) (i j : nat) :
  wf N M → i ≠ j → link N dist M i j = link N dist' M i j.
Proof.
  intros Hwf Hij. unfold link.
  destruct (M !! i) as [mi|] eqn:Hi.
  2:{ apply lookup_ge_None in Hi. by rewrite (lookup_total_ge M i Hi). }
  destruct (M !! j) as [mj|] eqn:Hj.
  2:{ apply lookup_ge_None in Hj. rewrite (lookup_total_ge M j Hj).
      apply bind_ext_in. by intros. }
  rewrite (list_lookup_total_correct _ _ _ Hi).
  rewrite (list_lookup_total_correct _ _ _ Hj).
  apply bind_ext_in. intros u Hu. apply fmap_ext_in. intros v Hv.
  apply off_diagonal.
  - by apply (wf_upto_elem N N M i mi u).
  - by apply (wf_upto_elem N N M j mj v).
  - intros ->. apply Hij. by apply (wf_upto_unique N N M i j mi mj v).
Qed.

Lemma a_scan_off_diagonal (M : partition) :
  wf N M → a_scan N dist M = a_scan N dist' M.
Proof.
  intros Hwf. unfold a_scan. apply foldl_ext_in. intros v i _.
  unfold a_i. apply foldl_ext_in. intros w j Hj.
  apply elem_of_seq in Hj.
  unfold a_j, acc. rewrite (link_off_diagonal M i j Hwf) by lia. done.
Qed.

Hypothesis dist_length : length dist = (N * N)%nat.
Hypothesis dist'_length : length dist' = (N * N)%nat.
Hypothesis index_fits : Z.of_nat (N * N) ≤ INT_MAX.

Lemma loop_body_off_diagonal (m0 : Qc) (M : partition) :
  wf N M →
  loop_body n dist thresh (m0, encode N M)
  = loop_body n dist' thresh (m0, encode N M).
Proof.
  intros Hwf. unfold loop_body. cbn [snd].
  change (cluster_matrix (encode N M)) with (row_of N <$> M).
  rewrite (scan_a_scan N dist dist_length index_fits M Hwf).
  rewrite (scan_a_scan N dist' dist'_length index_fits M Hwf).
  by rewrite a_scan_off_diagonal.
Qed.

Hypothesis dist_nonneg : Forall (λ d, (zero ≤ d)%Qc) dist.

Lemma while_loop_off_diagonal (fuel : nat) (s : Qc * state) :
  stores N (λ _ _, True) s →
  while_loop fuel (loop_cond thresh) (loop_body n dist thresh) s
  = while_loop fuel (loop_cond thresh) (loop_body n dist' thresh) s.
Proof.
  revert s. induction fuel as [|f IH]; intros s Hs.
  - by rewrite !while_loop_O.
  - rewrite !while_loop_S.
    destruct (loop_cond thresh s) as [[]|] eqn:Hc; [|done..].
    destruct (loop_body_stores N dist thresh dist_length index_fits
                dist_nonneg (λ _ _, True) s) as (s' & Hb & Hs' & _);
      [done|done|done|].
    assert (loop_body n dist' thresh s = Ok s') as Hb'.
    { destruct Hs as (M & HM & Hwf & _). destruct s as [m0 st].
      simpl in HM. subst st. by rewrite <- loop_body_off_diagonal. }
    rewrite !Ok_bind, Hb, Hb', !Ok_bind. by apply IH.
Qed.

End Diagonal.

(** X14.  The diagonal of the matrix is never read: the scan only measures
    individuals of two different rows, and an individual is in one row.
    Two matrices of the same dimension that agree off the diagonal give the
    same result, whatever the second one holds on its diagonal. *)
Theorem diagonal_is_never_read (N : nat) (dist dist' : list Qc)
    (thresh : Qc) (labels : list Z) :
  valid_input N dist labels →
  length dist' = length dist →
  (∀ u v, (u < N)%nat → (v < N)%nat → u ≠ v →
          dist' !! (u * N + v)%nat = dist !! (u * N + v)%nat) →
  farthest_neighbor (Z.of_nat N) dist' thresh (label_vector labels)
  = farthest_neighbor (Z.of_nat N) dist thresh (label_vector labels).
Proof.
  intros Hvalid Hlen Hoff.
  pose proof (valid_N_fits _ _ _ Hvalid) as HN.
  destruct Hvalid as [Hll Hdl Hidx Hlr Hdn].
  destruct (fill_clusters_initial N labels Hll Hlr HN) as [Hfill Hwf0].
  unfold farthest_neighbor. rewrite Hfill, !Ok_bind. unfold main_loop.
  rewrite (while_loop_off_diagonal N dist dist' thresh); try done.
  - intros u v Hu Hv Huv. unfold D. by rewrite Hoff.
  - congruence.
  - by exists (initial N labels).
Qed.

Lemma diagonal_is_never_read_witness :
  farthest_neighbor 4
    [q 9; q 1; q 5; q 5;
     q 1; q (-3); q 5; q 5;
     q 5; q 5; q 0; q 1;
     q 5; q 5; q 1; q 7] (q 2) (label_vector [1; 2; 3; 4])
  = farthest_neighbor 4 example_dist (q 2) (label_vector [1; 2; 3; 4]).
Proof.
  apply (diagonal_is_never_read 4).
  - exact example_valid.
  - reflexivity.
  - intros u v Hu Hv Huv.
    destruct u as [|[|[|[|u]]]]; [| | | |lia];
      (destruct v as [|[|[|[|v]]]]; [| | | |lia]);
      (reflexivity || lia).
Defined.

(** *** Individuals that are all apart *)

(** X15.  When no two different individuals are closer than the threshold,
    nothing is merged and the labels returned are the labels given; a
    distance equal to the threshold is far enough (line 187 is strict), and
    the diagonal does not count. *)
Theorem all_apart_merges_nothing (N : nat) (dist : list Qc) (thresh : Qc)
    (labels : list Z) :
  valid_input N dist labels →
  (∀ u v d, (u < N)%nat → (v < N)%nat → u ≠ v →
            dist !! (u * N + v)%nat = Some d → (thresh ≤ d)%Qc) →
  farthest_neighbor (Z.of_nat N) dist thresh (label_vector labels)
  = Ok (Some <$> labels).
Proof.
  intros Hvalid Hfar.
  apply (no_merge_returns_input N dist thresh labels Hvalid).
  intros m0 M m M' Hwf -> (ci & cj & _ & _ & Hlt & Hi & Hj & Hm & ->).
  replace (Qcltb m thresh) with false; [done|]. symmetry.
  apply Qcltb_ge. pose proof Hwf as [HL _].
  destruct (lookup_lt_is_Some_2 (initial N labels) ci) as [mi Hmi]; [lia|].
  destruct (lookup_lt_is_Some_2 (initial N labels) cj) as [mj Hmj]; [lia|].
  rewrite (list_lookup_total_correct _ _ _ Hmi) in Hi.
  rewrite (list_lookup_total_correct _ _ _ Hmj) in Hj.
  destruct mi as [|u mi']; [done|]. destruct mj as [|v mj']; [done|].
  assert (u ∈ u :: mi') as Hu by apply list_elem_of_here.
  assert (v ∈ v :: mj') as Hv by apply list_elem_of_here.
  pose proof (wf_upto_elem N N _ ci _ u Hwf Hmi Hu) as HuN.
  pose proof (wf_upto_elem N N _ cj _ v Hwf Hmj Hv) as HvN.
  assert (u ≠ v) as Huv.
  { intros ->.
    pose proof (wf_upto_unique N N _ ci cj _ _ v Hwf Hmi Hmj Hu Hv). lia. }
  destruct Hvalid as [_ Hdl _ _ _].
  destruct (lookup_lt_is_Some_2 dist (u * N + v)%nat) as [d Hd]; [nia|].
  apply Qcle_trans with d; [by apply (Hfar u v)|].
  rewrite Hm. unfold acc. apply foldl_upd_elem.
  replace d with (D N dist u v) by (unfold D; by rewrite Hd).
  apply elem_link.
  - by rewrite (list_lookup_total_correct _ _ _ Hmi).
  - by rewrite (list_lookup_total_correct _ _ _ Hmj).
Qed.

Lemma all_apart_merges_nothing_witness :
  farthest_neighbor 4 example_dist (q 1) (label_vector [1; 2; 3; 4])
  = Ok (Some <$> [1; 2; 3; 4]).
Proof.
  apply (all_apart_merges_nothing 4 example_dist (q 1) [1; 2; 3; 4]).
  - exact example_valid.
  - intros u v d Hu Hv Huv Hd.
    destruct u as [|[|[|[|u]]]]; [| | | |lia];
      (destruct v as [|[|[|[|v]]]]; [| | | |lia]);
      try lia; injection Hd as <-; vm_compute; discriminate.
Defined.
